(** * wollok-ts: node behaviours and runtime state ([src/behavior.ts])

    A shallow embedding of the behaviours that [behavior.ts] attaches to
    the nodes of the staged syntax tree (Raw, Filled, Linked) and to the
    runtime [Evaluation], together with the properties stated about them.

    The source discovers the tree reflectively: a node is any object with
    a truthy [kind] attribute and its children are found by walking every
    attribute value.  The embedding keeps that view: JavaScript values are
    a small inductive type and the tree algorithms walk it as the source
    does. *)

From Stdlib Require Import ZArith QArith Qabs String Ascii DecimalString.
From Stdlib Require DecimalPos DecimalN.
From stdpp Require Import base option list strings gmap.

Local Open Scope string_scope.
Local Open Scope list_scope.

(** ** JavaScript values *)

Module Js.

(** Numbers are exact rationals: NaN and the infinities are left out. *)
#[warnings="-register-all"]
Inductive JsValue : Type :=
| JUndefined
| JNull
| JBool (b : bool)
| JNum (q : Q)
| JStr (s : string)
| JFun (source : string)
| JArr (items : list JsValue)
| JObj (props : list (string * JsValue)).

(** The double quote character, as a string. *)
Definition dquote : string := String "034"%char EmptyString.

(** [!!v] *)
Definition truthy (v : JsValue) : bool :=
  match v with
  | JUndefined | JNull => false
  | JBool b => b
  | JNum q => negb (Qeq_bool q 0)
  | JStr s => negb (String.eqb s EmptyString)
  | JFun _ | JArr _ | JObj _ => true
  end.

(** [obj[key]] on the own properties of a plain object. *)
Fixpoint lookupProp (key : string) (props : list (string * JsValue)) : JsValue :=
  match props with
  | [] => JUndefined
  | (k, v) :: rest => if String.eqb k key then v else lookupProp key rest
  end.

Definition get (key : string) (v : JsValue) : JsValue :=
  match v with
  | JObj props => lookupProp key props
  | _ => JUndefined
  end.

(** [v === JStr s] *)
Definition isStr (s : string) (v : JsValue) : bool :=
  match v with
  | JStr s' => String.eqb s' s
  | _ => false
  end.

(** [a === b] on primitive values.  Objects, arrays and functions compare
    by identity, which the values here do not carry: ids, kinds and names
    are strings. *)
Definition strictEq (a b : JsValue) : bool :=
  match a, b with
  | JUndefined, JUndefined | JNull, JNull => true
  | JBool x, JBool y => Bool.eqb x y
  | JNum x, JNum y => Qeq_bool x y
  | JStr x, JStr y => String.eqb x y
  | _, _ => false
  end.

Inductive JsError : Type :=
| Error_ (message : string)
| RangeError (message : string)
| TypeError (message : string).

Definition errorMessage (e : JsError) : string :=
  match e with
  | Error_ m | RangeError m | TypeError m => m
  end.

(** A call returns or throws; [OutOfFuel] is the answer of a bounded
    recursion whose bound was too small. *)
Inductive Result (A : Type) : Type :=
| Returned (a : A)
| Thrown (e : JsError)
| OutOfFuel.
Arguments Returned {A} a.
Arguments Thrown {A} e.
Arguments OutOfFuel {A}.

Definition rbind {A B : Type} (m : Result A) (k : A -> Result B) : Result B :=
  match m with
  | Returned a => k a
  | Thrown e => Thrown e
  | OutOfFuel => OutOfFuel
  end.

Notation "'try!' x ':=' m 'in' k" := (rbind m (fun x => k))
  (at level 10, x name, m at level 100, k at level 200, only parsing).

(** [l.map(f)] for an [f] that may throw. *)
Fixpoint mapR {A B : Type} (f : A -> Result B) (l : list A) : Result (list B) :=
  match l with
  | [] => Returned []
  | x :: rest =>
      try! y := f x in
      try! ys := mapR f rest in
      Returned (y :: ys)
  end.

(** [l.reduce(f, acc)] for an [f] that may throw. *)
Fixpoint foldR {A B : Type} (f : B -> A -> Result B) (acc : B) (l : list A) : Result B :=
  match l with
  | [] => Returned acc
  | x :: rest =>
      try! acc' := f acc x in
      foldR f acc' rest
  end.

(** [str.split(sep)] for a separator of one character. *)
Fixpoint splitOn (sep : ascii) (str : string) : list string :=
  match str with
  | EmptyString => [EmptyString]
  | String c rest =>
      if Ascii.eqb c sep then EmptyString :: splitOn sep rest
      else match splitOn sep rest with
           | [] => [String c EmptyString]
           | head :: tail => String c head :: tail
           end
  end.

(** Modelled from the spec: [last] of [./extensions], which is not part
    of the sources at hand; the spec lists it among the utility
    collection operations: the last element of a sequence, none when the
    sequence is empty. *)
Definition last {A : Type} (l : list A) : option A := list.last l.

(** Modelled from the spec: [getOrUpdate] of [./cache], which is not part
    of the sources at hand.  The spec has the caches as memoising tables
    "with a compute-on-miss contract" whose "entries never change once
    set": a cached call answers what the computation answers. *)
Definition getOrUpdate {A : Type} (compute : unit -> A) : A := compute tt.

(** Modelled from the spec: [divideOn] of [./extensions], which is not
    part of the sources at hand.  The spec has it split "on the first"
    separator; the remainder is a string, empty when there is no
    separator, as [target()] asks it for its [length]. *)
Definition divideOn (sep : ascii) (str : string) : string * string :=
  match splitOn sep str with
  | [] => (EmptyString, EmptyString)
  | head :: tail => (head, String.concat (String sep EmptyString) tail)
  end.

(** [str.replace(/\.#/g, '')]: every [.#] is dropped, left to right. *)
Fixpoint dropDotHash (str : string) : string :=
  match str with
  | String "."%char (String "#"%char rest) => dropDotHash rest
  | String c rest => String c (dropDotHash rest)
  | EmptyString => EmptyString
  end.

(** String conversion, as in a template literal or ['S!' + v].  An array
    joins its elements with commas, a plain object prints as
    [[object Object]] and a function as its source text.
    [numberToString] is [Number::toString], the shortest round-trip form
    of a double, which is a parameter of the development. *)
Fixpoint ToString (numberToString : Q -> string) (v : JsValue) : string :=
  match v with
  | JUndefined => "undefined"
  | JNull => "null"
  | JBool b => if b then "true" else "false"
  | JNum q => numberToString q
  | JStr s => s
  | JFun source => source
  | JArr items =>
      String.concat ","
        (map (fun x => match x with
                       | JUndefined | JNull => EmptyString
                       | _ => ToString numberToString x
                       end) items)
  | JObj _ => "[object Object]"
  end.

(** [str.startsWith(sub)] and [str.includes(sub)] *)
Fixpoint startsWith (sub str : string) : bool :=
  match sub, str with
  | EmptyString, _ => true
  | String a sub', String b str' => Ascii.eqb a b && startsWith sub' str'
  | String _ _, EmptyString => false
  end.

Fixpoint includesText (sub str : string) : bool :=
  startsWith sub str
  || match str with
     | EmptyString => false
     | String _ rest => includesText sub rest
     end.

(** [value.attribute] as an array, for [map], [filter], [some] and
    [length]. *)
Definition arrayItems (v : JsValue) : Result (list JsValue) :=
  match v with
  | JArr items => Returned items
  | _ => Thrown (TypeError "Cannot read properties of a value that is not an array")
  end.

(** [l.find(p)] for a [p] that may throw. *)
Fixpoint findR {A : Type} (p : A -> Result bool) (l : list A) : Result (option A) :=
  match l with
  | [] => Returned None
  | x :: rest =>
      try! holds := p x in
      if holds then Returned (Some x) else findR p rest
  end.

End Js.
Export Js.

(** ** Raw behaviour: tree algorithms *)

(** [const isNode = obj => !!(obj && obj.kind)] *)
Definition isNode (obj : JsValue) : bool :=
  match obj with
  | JObj props => truthy (lookupProp "kind" props)
  | _ => false
  end.

Definition entityKinds : list string :=
  ["Package"; "Class"; "Singleton"; "Mixin"; "Program"; "Describe"; "Test"].
Definition moduleKinds : list string := ["Singleton"; "Mixin"; "Class"].
Definition expressionKinds : list string :=
  ["Reference"; "Self"; "Literal"; "Send"; "Super"; "New"; "If"; "Throw"; "Try"].
Definition sentenceKinds : list string := ["Variable"; "Return"; "Assignment"].

(** [array.includes(v)] for an array of strings. *)
Definition includes (l : list string) (v : JsValue) : bool :=
  existsb (fun k => isStr k v) l.

(** [node.is(kind)]: a kind or one of the four categories ([is] is a
    reserved word here). *)
Definition is_ (kind : string) (node : JsValue) : bool :=
  let k := get "kind" node in
  if String.eqb kind "Entity" then includes entityKinds k
  else if String.eqb kind "Module" then includes moduleKinds k
  else if String.eqb kind "Expression" then includes expressionKinds k
  else if String.eqb kind "Sentence" then includes sentenceKinds k
  else isStr kind k.

(** [extractChildren] of [children()]: a node is its own extraction, arrays
    and other objects are searched through.  A function is an object
    without enumerable properties. *)
Fixpoint extractChildren (owner : JsValue) : list JsValue :=
  match owner with
  | JObj props =>
      if truthy (lookupProp "kind" props) then [owner]
      else flat_map (fun '(_, v) => extractChildren v) props
  | JArr items => flat_map extractChildren items
  | _ => []
  end.

(** [children()]: [values(this).flatMap(extractChildren)].  The source
    memoises the answer per node id; the memo only stores the value this
    function computes. *)
Definition children (node : JsValue) : list JsValue :=
  match node with
  | JObj props => flat_map (fun '(_, v) => extractChildren v) props
  | _ => []
  end.

(** [kind ? children.filter(child => child.is(kind)) : children] *)
Definition ofKind (kind : option string) (nodes : list JsValue) : list JsValue :=
  match kind with
  | Some k => filter (fun child => is_ k child = true) nodes
  | None => nodes
  end.

(** [descendants(kind?)]: the do-while loop over the [pending] queue;
    [next] is the node being expanded. *)
Fixpoint descendantsLoop (fuel : nat) (kind : option string)
    (next : JsValue) (pending response : list JsValue) : option (list JsValue) :=
  match fuel with
  | O => None
  | S fuel' =>
      let cs := children next in
      let response' := response ++ ofKind kind cs in
      match pending ++ cs with
      | [] => Some response'
      | next' :: pending' => descendantsLoop fuel' kind next' pending' response'
      end
  end.

(** Number of nodes below and including a value. *)
Fixpoint nodeCount (v : JsValue) : nat :=
  match v with
  | JObj props =>
      (if truthy (lookupProp "kind" props) then 1 else 0)
      + list_sum (map (fun '(_, x) => nodeCount x) props)
  | JArr items => list_sum (map nodeCount items)
  | _ => 0
  end.

Definition descendants (kind : option string) (node : JsValue) : option (list JsValue) :=
  descendantsLoop (S (nodeCount node)) kind node [] [].

(** Left fold that stops at the first failure. *)
Fixpoint foldlM {A B : Type} (f : B -> A -> option B) (acc : B) (l : list A) : option B :=
  match l with
  | [] => Some acc
  | x :: rest => match f acc x with
                 | Some acc' => foldlM f acc' rest
                 | None => None
                 end
  end.



(** The argument of [transform]: one function for every node, or a table
    from kind to function. *)
Inductive Transform : Type :=
| TxFun (f : JsValue -> JsValue)
| TxMap (table : string -> option (JsValue -> JsValue)).

(** Modelled from the spec: [mapObject] of [./extensions], which is not
    part of the sources at hand; the spec lists it among the "ordered
    mapping transforms": the function is applied to every attribute value,
    keys and their order are kept.  The source only hands it objects. *)
Definition mapObject (f : JsValue -> Result JsValue) (obj : JsValue) : Result JsValue :=
  match obj with
  | JObj props =>
      try! props' := mapR (fun '(k, v) => try! v' := f v in Returned (k, v')) props in
      Returned (JObj props')
  | _ => Thrown (TypeError "mapObject called on a value that is not an object")
  end.

(** [tx[value.kind] || (n => n)] *)
Definition txFor (table : string -> option (JsValue -> JsValue)) (value : JsValue)
    : JsValue -> JsValue :=
  match get "kind" value with
  | JStr k => default id (table k)
  | _ => id
  end.

(** [applyTransform] of [transform(tx)].  With a function [tx] the walk
    continues on whatever [tx] returns, so the recursion is counted by
    [fuel]. *)
Fixpoint applyTransform (fuel : nat) (tx : Transform) (value : JsValue) : Result JsValue :=
  match fuel with
  | O => OutOfFuel
  | S fuel' =>
      match value with
      | JFun _ => Returned value
      | JArr items =>
          try! items' := mapR (applyTransform fuel' tx) items in
          Returned (JArr items')
      | JObj _ =>
          if isNode value then
            match tx with
            | TxFun f => mapObject (applyTransform fuel' tx) (f value)
            | TxMap table =>
                try! rewritten := mapObject (applyTransform fuel' tx) value in
                Returned (txFor table value rewritten)
            end
          else mapObject (applyTransform fuel' tx) value
      | _ => Returned value
      end
  end.

Definition transform (fuel : nat) (tx : Transform) (node : JsValue) : Result JsValue :=
  applyTransform fuel tx node.

(** Nesting depth of a value: enough fuel for a walk that follows it. *)
Fixpoint depth (v : JsValue) : nat :=
  match v with
  | JObj props => S (foldr (fun '(_, x) d => max (depth x) d) 0 props)
  | JArr items => S (foldr (fun x d => max (depth x) d) 0 items)
  | _ => 1
  end.

(** What a bottom-up rewrite with a table is: the attributes are rewritten
    first and the kind's function is applied to the rewritten node. *)
Fixpoint bottomUp (table : string -> option (JsValue -> JsValue)) (value : JsValue) : JsValue :=
  match value with
  | JArr items => JArr (map (bottomUp table) items)
  | JObj props =>
      let rewritten := JObj (map (fun '(k, v) => (k, bottomUp table v)) props) in
      if truthy (lookupProp "kind" props) then txFor table value rewritten else rewritten
  | _ => value
  end.

(** The table that a transform argument stands for: a single function is
    the function of every kind. *)
Definition tableOf (tx : Transform) : string -> option (JsValue -> JsValue) :=
  match tx with
  | TxFun f => fun _ => Some f
  | TxMap table => table
  end.

(** [transform(tx)] rewrites bottom-up: whenever it answers, the answer is
    the bottom-up rewrite. *)
Definition rewritesBottomUp (tx : Transform) : Prop :=
  forall (fuel : nat) (node result : JsValue),
    isNode node = true ->
    transform fuel tx node = Returned result ->
    result = bottomUp (tableOf tx) node.

(** All the nodes inside a value, the value itself first when it is one. *)
Fixpoint nodesIn (v : JsValue) : list JsValue :=
  match v with
  | JObj props =>
      (if truthy (lookupProp "kind" props) then [v] else [])
      ++ flat_map (fun '(_, x) => nodesIn x) props
  | JArr items => flat_map nodesIn items
  | _ => []
  end.

(** *** The memo of [cache(f)]

    [cache(f)] closes over a [CACHE] of its own, a [Map] from id to
    response.  A call is a step on that table. *)

Section Cache.

Context {R : Type}.
(** [!!response] *)
Variable truthyR : R -> bool.
(** [f.bind(this)()] *)
Variable f : JsValue -> R.

(** [CACHE.get(id)]: the entry set last for the key.  Keys compare as
    [strictEq] does: ids are strings. *)
Fixpoint cacheGet (id : JsValue) (CACHE : list (JsValue * R)) : option R :=
  match CACHE with
  | [] => None
  | (key, response) :: older => if strictEq key id then Some response else cacheGet id older
  end.

(** [CACHE.set(id, response)] *)
Definition cacheSet (id : JsValue) (response : R) (CACHE : list (JsValue * R))
    : list (JsValue * R) :=
  (id, response) :: CACHE.

(** The function that [cache(f)] returns, called on [this]:
    [this.id && CACHE.get(this.id)] is answered when it is truthy;
    otherwise [f] is called and its response is set under a truthy id. *)
Definition cache (this : JsValue) (CACHE : list (JsValue * R)) : R * list (JsValue * R) :=
  let id := get "id" this in
  let miss :=
    let response := f this in
    (response, if truthy id then cacheSet id response CACHE else CACHE) in
  match (if truthy id then cacheGet id CACHE else None) with
  | Some cached => if truthyR cached then (cached, CACHE) else miss
  | None => miss
  end.

(** One call after the other on the same closure; the responses and the
    table left. *)
Fixpoint cacheCalls (callers : list JsValue) (CACHE : list (JsValue * R))
    : list R * list (JsValue * R) :=
  match callers with
  | [] => ([], CACHE)
  | this :: rest =>
      let '(response, CACHE') := cache this CACHE in
      let '(responses, CACHE'') := cacheCalls rest CACHE' in
      (response :: responses, CACHE'')
  end.

End Cache.

(** [children: cache(function () { ... })]: the memoised method; an array
    is truthy. *)
Definition cachedChildren : JsValue -> list (JsValue * list JsValue)
                            -> list JsValue * list (JsValue * list JsValue) :=
  cache (fun _ => true) children.

(** [fields()], [constructors()] and [tests()]:
    [this.members.filter(member => member.is(kind))]; only a node has an
    [is]. *)
Definition membersOfKind (kind : string) (this : JsValue) : Result (list JsValue) :=
  try! members := arrayItems (get "members" this) in
  if forallb isNode members
  then Returned (filter (fun member => is_ kind member = true) members)
  else Thrown (TypeError "member.is is not a function").

Definition fields (this : JsValue) : Result (list JsValue) :=
  if is_ "Module" this then membersOfKind "Field" this
  else Thrown (TypeError "fields is not a function").

Definition constructors (this : JsValue) : Result (list JsValue) :=
  if is_ "Class" this then membersOfKind "Constructor" this
  else Thrown (TypeError "constructors is not a function").

Definition tests (this : JsValue) : Result (list JsValue) :=
  if is_ "Describe" this then membersOfKind "Test" this
  else Thrown (TypeError "tests is not a function").


(** ** Linked behaviour: the environment index, names and hierarchies *)

Module Linked.

Section Environment.

Variable numberToString : Q -> string.
(** The environment that every linked behaviour closes over. *)
Variable environment : JsValue.

Let text : JsValue -> string := ToString numberToString.

(** [search] of [getNodeById]: depth first, the first node with the id. *)
Fixpoint search (id : JsValue) (obj : JsValue) : option JsValue :=
  match obj with
  | JArr items =>
      (fix searchAll (l : list JsValue) : option JsValue :=
         match l with
         | [] => None
         | value :: rest =>
             match search id value with
             | Some found => Some found
             | None => searchAll rest
             end
         end) items
  | JObj props =>
      if truthy (lookupProp "kind" props) && strictEq (lookupProp "id" props) id
      then Some obj
      else
        (fix searchValues (l : list (string * JsValue)) : option JsValue :=
           match l with
           | [] => None
           | (_, value) :: rest =>
               match search id value with
               | Some found => Some found
               | None => searchValues rest
               end
           end) props
  | _ => None
  end.

(** [getNodeById(id)], through [NODE_CACHE]. *)
Definition getNodeById (id : JsValue) : Result JsValue :=
  getOrUpdate (fun _ =>
    match search id environment with
    | Some response => Returned response
    | None => Thrown (Error_ ("Missing node " +:+ text id))
    end).

(** One step of [getNodeByQN]: the child entity that has the name. *)
Definition stepInto (qualifiedName : string) (this current : JsValue) (step : string)
    : Result JsValue :=
  match find (fun child => is_ "Entity" child && strictEq (get "name" child) (JStr step))
             (children current) with
  | Some next => Returned next
  | None => Thrown (Error_ ("Could not resolve reference to " +:+ qualifiedName
                            +:+ " from " +:+ text (get "name" this)))
  end.

(** [Package.getNodeByQN(qualifiedName)] *)
Definition getNodeByQN (this : JsValue) (qualifiedName : string) : Result JsValue :=
  if negb (is_ "Package" this) then Thrown (TypeError "getNodeByQN is not a function")
  else
    let bySteps :=
      foldR (stepInto qualifiedName this) this (splitOn "." qualifiedName) in
    match splitOn "#" qualifiedName with
    | _ :: id :: _ => if String.eqb id EmptyString then bySteps else getNodeById (JStr id)
    | _ => bySteps
    end.

(** [getNodeByFQN(fullyQualifiedName)]; [FQN_CACHE] memoises the answer. *)
Definition getNodeByFQN (fullyQualifiedName : string) : Result JsValue :=
  let '(start, rest) := divideOn "." fullyQualifiedName in
  match find (fun child => strictEq (get "name" child) (JStr start)) (children environment) with
  | None => Thrown (Error_ ("Could not resolve reference to " +:+ fullyQualifiedName))
  | Some root => if String.eqb rest EmptyString then Returned root else getNodeByQN root rest
  end.

(** [parent()]: the id of the parent, through [PARENT_CACHE], handed to
    [getNodeById]. *)
Definition parent (this : JsValue) : Result JsValue :=
  try! parentId :=
    getOrUpdate (fun _ =>
      match descendants None environment with
      | None => OutOfFuel
      | Some below =>
          match find (fun descendant =>
                        existsb (fun child => strictEq (get "id" child) (get "id" this))
                                (children descendant))
                     (environment :: below) with
          | Some found => Returned (get "id" found)
          | None => Thrown (Error_ ("Node " +:+ text (get "kind" this) +:+ "#"
                                    +:+ text (get "id" this)
                                    +:+ " is not in the environment"))
          end
      end) in
  getNodeById parentId.

(** [Reference.target()] *)
Definition target (this : JsValue) : Result JsValue :=
  if negb (is_ "Reference" this) then Thrown (TypeError "target is not a function")
  else
    match get "name" this with
    | JStr name =>
        let '(start, rest) := divideOn "." name in
        try! root := getNodeById (get start (get "scope" this)) in
        if (String.length rest =? 0)%nat then Returned root else getNodeByQN root rest
    | _ => Thrown (TypeError "str.split is not a function")
    end.

(** [Entity.fullyQualifiedName()].  It climbs through [parent()] and, for
    an unnamed singleton, goes to the superclass: counted by [fuel]. *)
Fixpoint fullyQualifiedName (fuel : nat) (this : JsValue) : Result string :=
  match fuel with
  | O => OutOfFuel
  | S fuel' =>
      if negb (is_ "Entity" this) then Thrown (TypeError "fullyQualifiedName is not a function")
      else
        try! parent := parent this in
        try! label :=
          (if is_ "Singleton" this then
             if truthy (get "name" this) then Returned (text (get "name" this))
             else
               try! superModule := target (get "superclass" (get "superCall" this)) in
               try! superName := fullyQualifiedName fuel' superModule in
               Returned (superName +:+ "#" +:+ text (get "id" this))
           else
             match get "name" this with
             | JStr name => Returned (dropDotHash name)
             | _ => Thrown (TypeError "this.name.replace is not a function")
             end) in
        if is_ "Package" parent then
          try! parentName := fullyQualifiedName fuel' parent in
          Returned (parentName +:+ "." +:+ label)
        else Returned label
  end.

(** [Class.superclassNode()] and [Singleton.superclassNode()]; [JNull]
    for a class without superclass. *)
Definition superclassNode (this : JsValue) : Result JsValue :=
  if is_ "Class" this then
    if truthy (get "superclass" this) then target (get "superclass" this) else Returned JNull
  else if is_ "Singleton" this then target (get "superclass" (get "superCall" this))
  else Thrown (TypeError "superclassNode is not a function").

(** [hierarchyExcluding] of [Module.hierarchy()]. *)
Fixpoint hierarchyExcluding (fuel : nat) (module : JsValue) (exclude : list JsValue)
    : Result (list JsValue) :=
  match fuel with
  | O => OutOfFuel
  | S fuel' =>
      if existsb (strictEq (get "id" module)) exclude then Returned []
      else
        try! mixins := arrayItems (get "mixins" module) in
        try! mixinTargets := mapR target mixins in
        try! superclass :=
          (if strictEq (get "kind" module) (JStr "Mixin") then Returned []
           else
             try! node := superclassNode module in
             Returned (if truthy node then [node] else [])) in
        try! final :=
          foldR (fun acc mod_ =>
                   try! below := hierarchyExcluding fuel' mod_ acc.2 in
                   Returned (acc.1 ++ below, get "id" mod_ :: acc.2))
                ([module], get "id" module :: exclude)
                (mixinTargets ++ superclass) in
        Returned final.1
  end.

Definition hierarchy (fuel : nat) (this : JsValue) : Result (list JsValue) :=
  if is_ "Module" this then hierarchyExcluding fuel this []
  else Thrown (TypeError "hierarchy is not a function").

(** [Module.inherits(other)] *)
Definition inherits (fuel : nat) (this other : JsValue) : Result bool :=
  try! modules := hierarchy fuel this in
  Returned (existsb (fun m => strictEq (get "id" other) (get "id" m)) modules).

(** [Module.methods()] *)
Definition methods (this : JsValue) : Result (list JsValue) :=
  try! members := arrayItems (get "members" this) in
  Returned (filter (fun member => is_ "Method" member = true) members).

(** The arity test of [lookupMethod] and [lookupConstructor]. *)
Definition arityMatches (member : JsValue) (arity : Z) : Result bool :=
  try! parameters := arrayItems (get "parameters" member) in
  let n := Z.of_nat (length parameters) in
  Returned (existsb (fun p => truthy (get "isVarArg" p)) parameters && (n - 1 <=? arity)%Z
            || (n =? arity)%Z).

(** The test [lookupMethod] hands to [find]. *)
Definition methodMatches (name : string) (arity : Z) (member : JsValue) : Result bool :=
  if (truthy (get "body" member) || truthy (get "isNative" member))
     && strictEq (get "name" member) (JStr name)
  then arityMatches member arity
  else Returned false.

(** The [for] loop of [lookupMethod]. *)
Fixpoint lookupIn (name : string) (arity : Z) (modules : list JsValue)
    : Result (option JsValue) :=
  match modules with
  | [] => Returned None
  | module :: rest =>
      try! candidates := methods module in
      try! found := findR (methodMatches name arity) candidates in
      match found with
      | Some method => Returned (Some method)
      | None => lookupIn name arity rest
      end
  end.

(** [Module.lookupMethod(name, arity)] *)
Definition lookupMethod (fuel : nat) (this : JsValue) (name : string) (arity : Z)
    : Result (option JsValue) :=
  try! modules := hierarchy fuel this in
  lookupIn name arity modules.

(** [Class.lookupConstructor(arity)]; [None] is [undefined]. *)
Definition lookupConstructor (this : JsValue) (arity : Z) : Result (option JsValue) :=
  if negb (is_ "Class" this) then Thrown (TypeError "lookupConstructor is not a function")
  else
    try! candidates := constructors this in
    findR (fun member => arityMatches member arity) candidates.

(** [closestAncestor(kind)]; [None] is [undefined].  Whatever [parent()]
    throws is caught; the climb is counted by [fuel]. *)
Fixpoint closestAncestor (fuel : nat) (kind : string) (this : JsValue)
    : Result (option JsValue) :=
  match fuel with
  | O => OutOfFuel
  | S fuel' =>
      match parent this with
      | Returned parent =>
          if is_ kind parent then Returned (Some parent)
          else closestAncestor fuel' kind parent
      | Thrown _ => Returned None
      | OutOfFuel => OutOfFuel
      end
  end.

(** [singleInheritance chain]: no module of the chain has mixins, each
    one but the last has the next one as superclass, and the last one has
    no superclass. *)
Inductive singleInheritance : list JsValue -> Prop :=
| chain_end (module : JsValue) :
    get "mixins" module = JArr [] ->
    strictEq (get "kind" module) (JStr "Mixin") = true
    \/ (exists node, superclassNode module = Returned node
                     /\ truthy node = false) ->
    singleInheritance [module]
| chain_step (module superclass : JsValue) (rest : list JsValue) :
    get "mixins" module = JArr [] ->
    strictEq (get "kind" module) (JStr "Mixin") = false ->
    superclassNode module = Returned superclass ->
    truthy superclass = true ->
    singleInheritance (superclass :: rest) ->
    singleInheritance (module :: superclass :: rest).

End Environment.

(** How many nodes of the environment an exclusion list of
    [hierarchyExcluding] leaves. *)
Definition excludes (exclude : list JsValue) (node : JsValue) : bool :=
  existsb (strictEq (get "id" node)) exclude.
Definition remaining (environment : JsValue) (exclude : list JsValue) : nat :=
  length (filter (fun node => excludes exclude node = false) (nodesIn environment)).

(** Ids are unique across the environment, and they are strings. *)
Definition uniqueIds (environment : JsValue) : Prop :=
  NoDup (map (get "id") (nodesIn environment))
  /\ Forall (fun node => exists id, get "id" node = JStr id) (nodesIn environment).

Fixpoint hasChar (c : ascii) (str : string) : bool :=
  match str with
  | EmptyString => false
  | String c' rest => Ascii.eqb c' c || hasChar c rest
  end.

(** A name that is not empty and has neither a dot nor a hash. *)
Definition plainName (name : string) : Prop :=
  name <> EmptyString /\ hasChar "." name = false /\ hasChar "#" name = false.

(** [packaged environment entity names]: the entity is reached from the
    environment through packages only; [names] are the names on the way,
    the entity's own name last.  Every name is plain and no sibling that
    the lookup would accept has the same name. *)
Inductive packaged (environment : JsValue) : JsValue -> list string -> Prop :=
| packaged_top (entity : JsValue) (name : string) :
    entity ∈ children environment ->
    is_ "Entity" entity = true ->
    get "name" entity = JStr name ->
    plainName name ->
    (forall other, other ∈ children environment ->
                   get "name" other = JStr name -> other = entity) ->
    packaged environment entity [name]
| packaged_member (package : JsValue) (names : list string) (entity : JsValue) (name : string) :
    packaged environment package names ->
    is_ "Package" package = true ->
    entity ∈ children package ->
    is_ "Entity" entity = true ->
    get "name" entity = JStr name ->
    plainName name ->
    (forall other, other ∈ children package -> is_ "Entity" other = true ->
                   get "name" other = JStr name -> other = entity) ->
    packaged environment entity (names ++ [name]).

(** [reached environment node names]: from the environment a chain of
    children leads to the node; the first has the first name, every later
    one is an entity with the next name. *)
Inductive reached (environment : JsValue) : JsValue -> list string -> Prop :=
| reached_top (root : JsValue) (name : string) :
    root ∈ children environment ->
    get "name" root = JStr name ->
    reached environment root [name]
| reached_member (holder : JsValue) (names : list string) (entity : JsValue) (name : string) :
    reached environment holder names ->
    entity ∈ children holder ->
    is_ "Entity" entity = true ->
    get "name" entity = JStr name ->
    reached environment entity (names ++ [name]).

(** The names, joined with dots. *)
Definition dotted (names : list string) : string := String.concat "." names.


End Linked.

(** ** Runtime: instances, frames and the evaluation state *)

Module Runtime.

Abbreviation Id := string (only parsing).
Abbreviation Name := string (only parsing).
Abbreviation Interruption := string (only parsing).

(** Modelled from the spec: [RuntimeObject] of [./interpreter], which is
    not part of the sources at hand: "{ id, module: Name, fields: mapping
    from Name to Id, innerValue: any? }". *)
Record RuntimeObject : Type := mkRuntimeObject {
  id : Id;
  module : Name;
  fields : gmap Name Id;
  innerValue : JsValue;
}.

(** Modelled from the spec: [Frame] of [./interpreter], which is not part
    of the sources at hand: "{ locals: mapping from Name to Id,
    operandStack: ordered sequence of Id, resume: set of Interruption }
    plus any executor state"; [executorState] stands for the latter,
    which the behaviours never touch. *)
Record Frame : Type := mkFrame {
  locals : gmap Name Id;
  operandStack : list Id;
  resume : list Interruption;
  executorState : JsValue;
}.

(** Modelled from the spec: [Evaluation] of [./interpreter], which is not
    part of the sources at hand: "frame stack + instance heap"; [others]
    stands for its remaining top-level attributes (the linked node tree
    among them), which the behaviours hand on as they are. *)
Record Evaluation : Type := mkEvaluation {
  instances : gmap Id RuntimeObject;
  frameStack : list Frame;
  others : JsValue;
}.

(** A call on an evaluation answers and leaves a state; the state is kept
    when it throws, as the mutations done before a [throw] stay. *)
Definition Eval (A : Type) : Type := Evaluation -> Result A * Evaluation.

Definition ret {A : Type} (a : A) : Eval A := fun ev => (Returned a, ev).
Definition throw {A : Type} (e : JsError) : Eval A := fun ev => (Thrown e, ev).
Definition bind {A B : Type} (m : Eval A) (k : A -> Eval B) : Eval B :=
  fun ev =>
    match m ev with
    | (Returned a, ev') => k a ev'
    | (Thrown e, ev') => (Thrown e, ev')
    | (OutOfFuel, ev') => (OutOfFuel, ev')
    end.
Definition modify (f : Evaluation -> Evaluation) : Eval unit := fun ev => (Returned tt, f ev).
Definition gets {A : Type} (f : Evaluation -> A) : Eval A := fun ev => (Returned (f ev), ev).

Notation "'let!' x ':=' m 'in' k" := (bind m (fun x => k))
  (at level 10, x name, m at level 100, k at level 200, only parsing).

Definition setFrameStack (fs : list Frame) (ev : Evaluation) : Evaluation :=
  {| instances := instances ev; frameStack := fs; others := others ev |}.
Definition setInstances (is_ : gmap Id RuntimeObject) (ev : Evaluation) : Evaluation :=
  {| instances := is_; frameStack := frameStack ev; others := others ev |}.

(** [currentFrame()]: [last(this.frameStack)]. *)
Definition currentFrame (ev : Evaluation) : option Frame := last (frameStack ev).

(** [instance(id)] *)
Definition instance (i : Id) : Eval RuntimeObject := fun ev =>
  match instances ev !! i with
  | Some response => (Returned response, ev)
  | None => (Thrown (RangeError ("Access to undefined instance " +:+ dquote +:+ i +:+ dquote)), ev)
  end.

(** [Frame.pushOperand(id)] and [Frame.popOperand()] *)
Definition pushOperand (i : Id) (frame : Frame) : Frame :=
  {| locals := locals frame; operandStack := operandStack frame ++ [i];
     resume := resume frame; executorState := executorState frame |}.

Definition popOperand (frame : Frame) : Result Id * Frame :=
  match last (operandStack frame) with
  | Some response =>
      (if String.eqb response EmptyString then Thrown (RangeError "Popped empty operand stack")
       else Returned response,
       {| locals := locals frame; operandStack := removelast (operandStack frame);
          resume := resume frame; executorState := executorState frame |})
  | None => (Thrown (RangeError "Popped empty operand stack"), frame)
  end.

Definition setResume (r : list Interruption) (frame : Frame) : Frame :=
  {| locals := locals frame; operandStack := operandStack frame;
     resume := r; executorState := executorState frame |}.

(** *** Number and string builtins

    [Number.prototype.toFixed], [Number(string)] and string conversion
    are written out for numbers in positional decimal notation.  Where
    ECMAScript goes through the shortest round-trip form of a double
    ([Number::toString]) or reads other numeric literals, the builtin is a
    parameter of the development. *)

Definition pow10 (n : nat) : Z := 10 ^ Z.of_nat n.

(** Decimal digits of a non-negative integer. *)
Definition digits (n : Z) : string := NilZero.string_of_uint (N.to_uint (Z.to_N n)).

Fixpoint zeros (n : nat) : string :=
  match n with
  | O => EmptyString
  | S n' => String "0"%char (zeros n')
  end.

Definition digitValue (c : ascii) : option Z :=
  let n := nat_of_ascii c in
  if ((48 <=? n) && (n <=? 57))%nat then Some (Z.of_nat (n - 48)) else None.

(** Reads a run of digits: its value so far, how many were read, the rest. *)
Fixpoint readDigits (s : string) (acc : Z) (count : nat) : Z * nat * string :=
  match s with
  | EmptyString => (acc, count, s)
  | String c rest =>
      match digitValue c with
      | Some d => readDigits rest (10 * acc + d) (S count)
      | None => (acc, count, s)
      end
  end.

(** [-?digits(.digits)?] *)
Definition parseDecimal (s : string) : option Q :=
  let '(negative, body) :=
    match s with
    | String "-"%char rest => (true, rest)
    | _ => (false, s)
    end in
  let '(whole, wholeCount, afterWhole) := readDigits body 0 0 in
  if (wholeCount =? 0)%nat then None else
  let sign := if negative then (-1)%Z else 1%Z in
  match afterWhole with
  | EmptyString => Some (inject_Z (sign * whole))
  | String "."%char fraction =>
      let '(frac, fracCount, afterFrac) := readDigits fraction 0 0 in
      if (fracCount =? 0)%nat then None else
      match afterFrac with
      | EmptyString =>
          Some (Qred (Qmake (sign * (whole * pow10 fracCount + frac))
                            (Z.to_pos (pow10 fracCount))))
      | _ => None
      end
  | _ => None
  end.






Section Builtins.

(** [Number::toString] *)
Variable numberToString : Q -> string.
(** [StringToNumber] on the strings that are not plain decimal literals. *)
Variable stringToNumber : string -> JsValue.
(** [DECIMAL_PRECISION] of [./interpreter]. *)
Variable DECIMAL_PRECISION : nat.

(** [x.toFixed(f)], ECMAScript 21.1.3.3, for a finite [x]: the sign is
    that of [x < 0]; from [10^21] on the digits are those of
    [Number::toString]; below, [n] is the integer closest to
    [|x| * 10^f], the larger one on a tie, printed with [f] decimals. *)
Definition toFixed (x : Q) (f : nat) : string :=
  let s := if Qle_bool 0 x then EmptyString else "-" in
  let x' := Qabs x in
  let m :=
    if Qle_bool (inject_Z (pow10 21)) x' then numberToString x'
    else
      let n := ((2 * Qnum x' * pow10 f + Zpos (Qden x')) / (2 * Zpos (Qden x')))%Z in
      let m := digits n in
      if (f =? 0)%nat then m
      else
        let m' := zeros (S f - String.length m) +:+ m in
        let k := String.length m' in
        substring 0 (k - f) m' +:+ "." +:+ substring (k - f) f m' in
  s +:+ m.

(** [Number(string)] *)
Definition Number_ (s : string) : JsValue :=
  match parseDecimal s with
  | Some q => JNum q
  | None => stringToNumber s
  end.

(** [createInstance(module, baseInnerValue)]; [uuid] is what the call of
    [uuid()] answers. *)
Definition createInstance (uuid : Id) (module : Name) (baseInnerValue : JsValue) : Eval Id :=
  let! chosen :=
    (if String.eqb module "wollok.lang.Number" then
       match baseInnerValue with
       | JNum x =>
           let stringValue := toFixed x DECIMAL_PRECISION in
           ret ("N!" +:+ stringValue, Number_ stringValue)
       | _ => throw (TypeError "innerValue.toFixed is not a function")
       end
     else if String.eqb module "wollok.lang.String" then
       ret ("S!" +:+ ToString numberToString baseInnerValue, baseInnerValue)
     else ret (uuid, baseInnerValue)) in
  let! _ := modify (fun ev =>
    setInstances
      (<[chosen.1 := {| id := chosen.1; module := module; fields := ∅;
                        innerValue := chosen.2 |}]> (instances ev)) ev) in
  ret chosen.1.



(** The do-while loop of [interrupt]: every round pops the top frame and
    looks at the new top.  [fuel] counts the rounds. *)
Fixpoint unwind (fuel : nat) (interruption : Interruption) (frameStack : list Frame)
    : option (list Frame) :=
  match fuel with
  | O => None
  | S fuel' =>
      let frameStack' := removelast frameStack in
      match last frameStack' with
      | Some nextFrame =>
          if negb (bool_decide (interruption ∈ resume nextFrame))
          then unwind fuel' interruption frameStack'
          else Some frameStack'
      | None => Some frameStack'
      end
  end.

(** The detail of the error of an unhandled interruption:
    [value.fields.message && this.instance(value.fields.message).innerValue || value.innerValue]
    behind the module, for an exception; nothing otherwise. *)
Definition unhandledDetail (interruption : Interruption) (value : RuntimeObject) : Eval string :=
  if String.eqb interruption "exception" then
    let! shown :=
      (match fields value !! "message" with
       | Some messageId =>
           if String.eqb messageId EmptyString then ret (innerValue value)
           else
             let! messageInstance := instance messageId in
             ret (if truthy (innerValue messageInstance)
                  then innerValue messageInstance
                  else innerValue value)
       | None => ret (innerValue value)
       end) in
    ret (module value +:+ ": " +:+ ToString numberToString shown)
  else ret EmptyString.

(** [interrupt(interruption, valueId)], with [fuel] rounds for the loop. *)
Definition interruptFuel (fuel : nat) (interruption : Interruption) (valueId : Id)
    : Eval unit := fun ev =>
  match unwind fuel interruption (frameStack ev) with
  | None => (OutOfFuel, ev)
  | Some frameStack' =>
      let ev' := setFrameStack frameStack' ev in
      match last frameStack' with
      | None =>
          (let! value := instance valueId in
           let! message := unhandledDetail interruption value in
           throw (Error_ ("Unhandled " +:+ dquote +:+ interruption +:+ dquote
                          +:+ " interruption: [" +:+ valueId +:+ "] " +:+ message))) ev' 
      | Some nextFrame =>
          let nextFrame' :=
            pushOperand valueId
              (setResume (filter (fun elem => elem ≠ interruption) (resume nextFrame)) nextFrame) in
          (Returned tt,
           setFrameStack (<[pred (length frameStack') := nextFrame']> frameStack') ev')
      end
  end.

Definition interrupt (interruption : Interruption) (valueId : Id) : Eval unit := fun ev =>
  interruptFuel (S (length (frameStack ev))) interruption valueId ev.

(** The frame that takes an interruption over: the kind leaves its
    [resume] and the value is pushed on its operands. *)
Definition handled (interruption : Interruption) (valueId : Id) (frame : Frame) : Frame :=
  {| locals := locals frame;
     operandStack := operandStack frame ++ [valueId];
     resume := filter (fun elem => elem ≠ interruption) (resume frame);
     executorState := executorState frame |}.

(** The text of the error of an unhandled interruption. *)
Definition unhandledMessage (interruption : Interruption) (valueId : Id) (detail : string)
    : string :=
  "Unhandled " +:+ dquote +:+ interruption +:+ dquote
  +:+ " interruption: [" +:+ valueId +:+ "] " +:+ detail.

(** What the claim about the unhandled exception says the error shows:
    the inner value of the instance under [message] when there is such a
    field, the own inner value otherwise. *)
Definition unhandledExceptionShows (ev : Evaluation) (value : RuntimeObject) : option JsValue :=
  match fields value !! "message" with
  | Some messageId => innerValue <$> instances ev !! messageId
  | None => Some (innerValue value)
  end.

Definition unhandledExceptionClaim : Prop :=
  forall (ev : Evaluation) (valueId : Id) (value : RuntimeObject) (shown : JsValue),
    Forall (fun frame => "exception" ∉ resume frame) (removelast (frameStack ev)) ->
    instances ev !! valueId = Some value ->
    unhandledExceptionShows ev value = Some shown ->
    exists message,
      (interrupt "exception" valueId ev).1 = Thrown (Error_ message)
      /\ includesText (module value +:+ ": " +:+ ToString numberToString shown) message = true.

End Builtins.

End Runtime.

(** ** The evaluation as objects in a store

    [copy()] is about which objects are shared between an evaluation and
    its copy.  Here the evaluation, its frames, its instances and their
    parts are cells of a store and refer to one another by location; an
    object literal or an array literal allocates a cell. *)

Module Store.

Import Runtime.

Abbreviation loc := nat (only parsing).

Inductive Cell : Type :=
| CArray (items : list Id)
| CDict (entries : gmap Name Id)
| CInstance (id : Id) (module : Name) (fields : loc) (innerValue : JsValue)
| CFrame (locals operandStack resume : loc) (executorState : JsValue)
| CFrameStack (frames : list loc)
| CInstances (table : list (Id * loc))
| CEvaluation (instances frameStack : loc) (others : JsValue).

(** Arrays of ids and dictionaries refer to no other cell. *)
Definition leaf (c : Cell) : bool :=
  match c with
  | CArray _ | CDict _ => true
  | _ => false
  end.

(** A store is the list of its cells; a new cell goes to the end. *)
Abbreviation Heap := (list Cell) (only parsing).

Definition alloc (c : Cell) (h : Heap) : loc * Heap := (length h, h ++ [c]).

(** [{ ...dict }] and [[...array]] *)
Definition copyDict (l : loc) (h : Heap) : option (loc * Heap) :=
  match h !! l with
  | Some (CDict entries) => Some (alloc (CDict entries) h)
  | _ => None
  end.

Definition copyArray (l : loc) (h : Heap) : option (loc * Heap) :=
  match h !! l with
  | Some (CArray items) => Some (alloc (CArray items) h)
  | _ => None
  end.

(** [{ ...this.instance(name), fields: { ...this.instance(name).fields } }] *)
Definition copyInstance (l : loc) (h : Heap) : option (loc * Heap) :=
  match h !! l with
  | Some (CInstance id module fields innerValue) =>
      '(fields', h1) ← copyDict fields h;
      Some (alloc (CInstance id module fields' innerValue) h1)
  | _ => None
  end.

(** [{ ...frame, locals: { ...frame.locals },
       operandStack: [...frame.operandStack], resume: [...frame.resume] }] *)
Definition copyFrame (l : loc) (h : Heap) : option (loc * Heap) :=
  match h !! l with
  | Some (CFrame locals operandStack resume executorState) =>
      '(locals', h1) ← copyDict locals h;
      '(operandStack', h2) ← copyArray operandStack h1;
      '(resume', h3) ← copyArray resume h2;
      Some (alloc (CFrame locals' operandStack' resume' executorState) h3)
  | _ => None
  end.

(** [this.frameStack.map(frame => ...)] *)
Fixpoint copyFrames (frames : list loc) (h : Heap) : option (list loc * Heap) :=
  match frames with
  | [] => Some ([], h)
  | l :: rest =>
      '(l', h1) ← copyFrame l h;
      '(rest', h2) ← copyFrames rest h1;
      Some (l' :: rest', h2)
  end.

(** [keys(this.instances).reduce(...)]: the clones, key by key.  The
    accumulators of the reduce are dropped as soon as they are spread into
    the next one; only the table they end in is allocated. *)
Fixpoint copyTable (table : list (Id * loc)) (h : Heap) : option (list (Id * loc) * Heap) :=
  match table with
  | [] => Some ([], h)
  | (name, l) :: rest =>
      '(l', h1) ← copyInstance l h;
      '(rest', h2) ← copyTable rest h1;
      Some ((name, l') :: rest', h2)
  end.

(** [copy()]: [{ ...this, instances: ..., frameStack: ... }] *)
Definition copy (e : loc) (h : Heap) : option (loc * Heap) :=
  match h !! e with
  | Some (CEvaluation instances frameStack others) =>
      match h !! instances, h !! frameStack with
      | Some (CInstances table), Some (CFrameStack frames) =>
          '(table', h1) ← copyTable table h;
          let '(instances', h2) := alloc (CInstances table') h1 in
          '(frames', h3) ← copyFrames frames h2;
          let '(frameStack', h4) := alloc (CFrameStack frames') h3 in
          Some (alloc (CEvaluation instances' frameStack' others) h4)
      | _, _ => None
      end
  | _ => None
  end.

(** What can be seen of a frame, an instance, an evaluation. *)
Definition viewFrame (h : Heap) (l : loc) : option Frame :=
  match h !! l with
  | Some (CFrame locals operandStack resume executorState) =>
      match h !! locals, h !! operandStack, h !! resume with
      | Some (CDict ls), Some (CArray os), Some (CArray rs) =>
          Some (mkFrame ls os rs executorState)
      | _, _, _ => None
      end
  | _ => None
  end.

Definition viewInstance (h : Heap) (l : loc) : option RuntimeObject :=
  match h !! l with
  | Some (CInstance id module fields innerValue) =>
      match h !! fields with
      | Some (CDict fs) => Some (mkRuntimeObject id module fs innerValue)
      | _ => None
      end
  | _ => None
  end.

Definition viewEntry (h : Heap) (entry : Id * loc) : option (Id * RuntimeObject) :=
  pair entry.1 <$> viewInstance h entry.2.

Definition snapshot (h : Heap) (e : loc)
    : option (list (Id * RuntimeObject) * list Frame * JsValue) :=
  match h !! e with
  | Some (CEvaluation instances frameStack others) =>
      match h !! instances, h !! frameStack with
      | Some (CInstances table), Some (CFrameStack frames) =>
          objects ← mapM (viewEntry h) table;
          stack ← mapM (viewFrame h) frames;
          Some (objects, stack, others)
      | _, _ => None
      end
  | _ => None
  end.

(** The evaluation state that a snapshot stands for. *)
Definition evaluationOf (h : Heap) (e : loc) : option Evaluation :=
  view ← snapshot h e;
  Some (mkEvaluation (list_to_map view.1.1) view.1.2 view.2).

(** The cells an evaluation is made of. *)
Definition frameLocs (h : Heap) (l : loc) : list loc :=
  match h !! l with
  | Some (CFrame locals operandStack resume _) => [l; locals; operandStack; resume]
  | _ => [l]
  end.

Definition instanceLocs (h : Heap) (l : loc) : list loc :=
  match h !! l with
  | Some (CInstance _ _ fields _) => [l; fields]
  | _ => [l]
  end.

Definition ownedLocs (h : Heap) (e : loc) : list loc :=
  match h !! e with
  | Some (CEvaluation instances frameStack _) =>
      e :: instances :: frameStack
      :: match h !! instances with
         | Some (CInstances table) => flat_map (instanceLocs h) table.*2
         | _ => []
         end
      ++ match h !! frameStack with
         | Some (CFrameStack frames) => flat_map (frameLocs h) frames
         | _ => []
         end
  | _ => [e]
  end.

(** Mutations of the contents of frames and of the fields of instances,
    done through an evaluation. *)
Inductive Mutation : Type :=
| PushOperand (frame : nat) (id : Id)
| PopOperand (frame : nat)
| SetLocal (frame : nat) (name : Name) (id : Id)
| SetResume (frame : nat) (resume : list Interruption)
| PushResume (frame : nat) (interruption : Interruption)
| SetField (instance : Id) (name : Name) (id : Id).

(** [e.frameStack[i]] and [e.instances[id]] *)
Definition frameAt (h : Heap) (e : loc) (i : nat) : option loc :=
  match h !! e with
  | Some (CEvaluation _ frameStack _) =>
      match h !! frameStack with
      | Some (CFrameStack frames) => frames !! i
      | _ => None
      end
  | _ => None
  end.

Fixpoint assoc (key : Id) (table : list (Id * loc)) : option loc :=
  match table with
  | [] => None
  | (k, l) :: rest => if String.eqb k key then Some l else assoc key rest
  end.

Definition instanceAt (h : Heap) (e : loc) (id : Id) : option loc :=
  match h !! e with
  | Some (CEvaluation instances _ _) =>
      match h !! instances with
      | Some (CInstances table) => assoc id table
      | _ => None
      end
  | _ => None
  end.

(** The mutation, done through the evaluation at [e]:
    - [e.frameStack[i].operandStack.push(id)], [....pop()],
    - [e.frameStack[i].locals[name] = id],
    - [e.frameStack[i].resume = [...]] (a new array, as in [interrupt]),
      [e.frameStack[i].resume.push(interruption)],
    - [e.instances[instance].fields[name] = id]. *)
Definition mutate (m : Mutation) (e : loc) (h : Heap) : option Heap :=
  match m with
  | PushOperand i id =>
      l ← frameAt h e i;
      match h !! l with
      | Some (CFrame _ operandStack _ _) =>
          match h !! operandStack with
          | Some (CArray items) => Some (<[operandStack := CArray (items ++ [id])]> h)
          | _ => None
          end
      | _ => None
      end
  | PopOperand i =>
      l ← frameAt h e i;
      match h !! l with
      | Some (CFrame _ operandStack _ _) =>
          match h !! operandStack with
          | Some (CArray items) => Some (<[operandStack := CArray (removelast items)]> h)
          | _ => None
          end
      | _ => None
      end
  | SetLocal i name id =>
      l ← frameAt h e i;
      match h !! l with
      | Some (CFrame locals _ _ _) =>
          match h !! locals with
          | Some (CDict entries) => Some (<[locals := CDict (<[name := id]> entries)]> h)
          | _ => None
          end
      | _ => None
      end
  | SetResume i resume =>
      l ← frameAt h e i;
      match h !! l with
      | Some (CFrame locals operandStack _ executorState) =>
          let '(resume', h1) := alloc (CArray resume) h in
          Some (<[l := CFrame locals operandStack resume' executorState]> h1)
      | _ => None
      end
  | PushResume i interruption =>
      l ← frameAt h e i;
      match h !! l with
      | Some (CFrame _ _ resume _) =>
          match h !! resume with
          | Some (CArray items) => Some (<[resume := CArray (items ++ [interruption])]> h)
          | _ => None
          end
      | _ => None
      end
  | SetField instance name id =>
      l ← instanceAt h e instance;
      match h !! l with
      | Some (CInstance _ _ fields _) =>
          match h !! fields with
          | Some (CDict entries) => Some (<[fields := CDict (<[name := id]> entries)]> h)
          | _ => None
          end
      | _ => None
      end
  end.

(** Two stores differ only in arrays and dictionaries, present or not. *)
Definition sameStructure (h h' : Heap) : Prop :=
  forall l : loc,
    h' !! l = h !! l
    \/ (default true (leaf <$> h !! l) = true /\ default true (leaf <$> h' !! l) = true).

(** A run of mutations through one evaluation. *)
Fixpoint mutateAll (ms : list Mutation) (e : loc) (h : Heap) : option Heap :=
  match ms with
  | [] => Some h
  | m :: rest => h1 ← mutate m e h; mutateAll rest e h1
  end.

End Store.

(** ** Sample trees and states *)

Module Samples.

(** A package [p] with one class [C] that has one method [m]. *)
Definition smallMethod : JsValue :=
  JObj [("kind", JStr "Method"); ("id", JStr "m1"); ("name", JStr "m");
        ("parameters", JArr []); ("isNative", JBool true)].
Definition smallClass : JsValue :=
  JObj [("kind", JStr "Class"); ("id", JStr "c1"); ("name", JStr "C");
        ("superclass", JNull); ("mixins", JArr []); ("members", JArr [smallMethod])].
Definition smallPackage : JsValue :=
  JObj [("kind", JStr "Package"); ("id", JStr "p1"); ("name", JStr "p");
        ("members", JArr [smallClass])].

(** A function that marks the node it is given and records whether the
    node under [child] was marked when it saw it. *)
Definition markSeen (node : JsValue) : JsValue :=
  match node with
  | JObj props =>
      JObj (props ++ [("saw", get "mark" (get "child" node)); ("mark", JStr "done")])
  | _ => node
  end.

Definition leafB : JsValue := JObj [("kind", JStr "B")].
Definition rootA : JsValue := JObj [("kind", JStr "A"); ("child", leafB)].

(** A table that only rewrites nodes of kind [B]. *)
Definition onlyB (kind : string) : option (JsValue -> JsValue) :=
  if String.eqb kind "B" then Some markSeen else None.

(** Modules of a package [p], by name; a reference [p.X] resolves through
    the scope entry for [p]. *)
Definition reference (id target : string) : JsValue :=
  JObj [("kind", JStr "Reference"); ("id", JStr id); ("name", JStr ("p." +:+ target));
        ("scope", JObj [("p", JStr "p")])].
Definition mixinsOf (owner : string) (names : list string) : JsValue :=
  JArr (map (fun m => reference (owner +:+ "-mixes-" +:+ m) m) names).
Definition class_ (name : string) (superclass : option string) (mixins : list string)
    (members : list JsValue) : JsValue :=
  JObj [("kind", JStr "Class"); ("id", JStr name); ("name", JStr name);
        ("superclass", match superclass with
                       | Some super => reference (name +:+ "-extends") super
                       | None => JNull
                       end);
        ("mixins", mixinsOf name mixins); ("members", JArr members)].
Definition mixin_ (name : string) (mixins : list string) : JsValue :=
  JObj [("kind", JStr "Mixin"); ("id", JStr name); ("name", JStr name);
        ("mixins", mixinsOf name mixins); ("members", JArr [])].
Definition environmentOf (members : list JsValue) : JsValue :=
  JObj [("kind", JStr "Environment"); ("id", JStr "env");
        ("members", JArr [JObj [("kind", JStr "Package"); ("id", JStr "p");
                                ("name", JStr "p"); ("members", JArr members)]])].

(** [C] mixes [M1] and [M2], which both mix [M3]. *)
Definition diamondC : JsValue := class_ "C" None ["M1"; "M2"] [].
Definition diamondM1 : JsValue := mixin_ "M1" ["M3"].
Definition diamondM2 : JsValue := mixin_ "M2" ["M3"].
Definition diamondM3 : JsValue := mixin_ "M3" [].
Definition diamond : JsValue := environmentOf [diamondC; diamondM1; diamondM2; diamondM3].


(** The package [p] holds the package [q], which holds the class [C]; a
    method of [C] returns an object literal, an unnamed singleton that
    extends [C]. *)
Definition literalObject : JsValue :=
  JObj [("kind", JStr "Singleton"); ("id", JStr "o1"); ("name", JUndefined);
        ("superCall", JObj [("superclass", reference "o1-extends" "q.C");
                            ("args", JArr [])]);
        ("mixins", JArr []); ("members", JArr [])].
Definition makeMethod : JsValue :=
  JObj [("kind", JStr "Method"); ("id", JStr "make"); ("name", JStr "make");
        ("parameters", JArr []); ("isNative", JBool false);
        ("body", JObj [("kind", JStr "Body"); ("id", JStr "make-body");
                       ("sentences",
                        JArr [JObj [("kind", JStr "Return"); ("id", JStr "make-return");
                                    ("value", JObj [("kind", JStr "Literal");
                                                    ("id", JStr "make-literal");
                                                    ("value", literalObject)])]])])].
Definition nestedC : JsValue := class_ "C" None [] [makeMethod].
Definition packageQ : JsValue :=
  JObj [("kind", JStr "Package"); ("id", JStr "q"); ("name", JStr "q");
        ("members", JArr [nestedC])].
Definition packageP : JsValue :=
  JObj [("kind", JStr "Package"); ("id", JStr "p"); ("name", JStr "p");
        ("members", JArr [packageQ])].
Definition nested : JsValue :=
  JObj [("kind", JStr "Environment"); ("id", JStr "env"); ("members", JArr [packageP])].

(** [M] declares [foo(a, *b)]. *)
Definition parameter (name : string) (isVarArg : bool) : JsValue :=
  JObj [("kind", JStr "Parameter"); ("id", JStr ("param-" +:+ name)); ("name", JStr name);
        ("isVarArg", JBool isVarArg)].
Definition fooMethod : JsValue :=
  JObj [("kind", JStr "Method"); ("id", JStr "foo"); ("name", JStr "foo");
        ("parameters", JArr [parameter "a" false; parameter "b" true]);
        ("isNative", JBool false);
        ("body", JObj [("kind", JStr "Body"); ("id", JStr "foo-body");
                       ("sentences", JArr [])])].
Definition moduleM : JsValue := class_ "M" None [] [fooMethod].
Definition varargs : JsValue := environmentOf [moduleM].

(** Frames with an empty and with an ["exception"] resume set. *)
Definition plainFrame (operands : list Runtime.Id) : Runtime.Frame :=
  Runtime.mkFrame ∅ operands [] JUndefined.
Definition catchingFrame (operands : list Runtime.Id) : Runtime.Frame :=
  Runtime.mkFrame ∅ operands ["exception"] JUndefined.

(** An exception [X] of module [E] whose [message] is the instance [Y]. *)
Definition exceptionX (own : JsValue) : Runtime.RuntimeObject :=
  Runtime.mkRuntimeObject "X" "E" {["message" := "Y"]} own.
Definition messageY (inner : JsValue) : Runtime.RuntimeObject :=
  Runtime.mkRuntimeObject "Y" "wollok.lang.String" ∅ inner.
Definition unhandledState (own inner : JsValue) : Runtime.Evaluation :=
  Runtime.mkEvaluation
    {["X" := exceptionX own; "Y" := messageY inner]}
    [plainFrame []] JUndefined.

(** A store with one instance [a] and one frame that has [a] on its
    operands; the evaluation is the last cell. *)
Definition smallStore : list Store.Cell :=
  [Store.CDict ∅;
   Store.CInstance "a" "M" 0 JUndefined;
   Store.CInstances [("a", 1)];
   Store.CDict ∅;
   Store.CArray ["a"];
   Store.CArray ["exception"];
   Store.CFrame 3 4 5 JUndefined;
   Store.CFrameStack [6];
   Store.CEvaluation 2 7 (JStr "the node tree")].
Definition smallView
    : list (string * Runtime.RuntimeObject) * list Runtime.Frame * JsValue :=
  ([("a", Runtime.mkRuntimeObject "a" "M" ∅ JUndefined)],
   [Runtime.mkFrame ∅ ["a"] ["exception"] JUndefined],
   JStr "the node tree").

(** The stack [F1, F2, F3] where only [F2] resumes ["exception"]. *)
Definition threeFrames : Runtime.Evaluation :=
  Runtime.mkEvaluation ∅ [plainFrame ["a"]; catchingFrame ["b"]; plainFrame ["c"]]
    JUndefined.

Definition noDigits (q : Q) : string := "?".

(** The class [C] before it got its method: the same id, no member. *)
Definition emptyClass : JsValue :=
  JObj [("kind", JStr "Class"); ("id", JStr "c1"); ("name", JStr "C");
        ("superclass", JNull); ("mixins", JArr []); ("members", JArr [])].

(** [Point] has a field and two constructors, [Point(x, y)] and
    [Point(...coordinates)]. *)
Definition fieldX : JsValue :=
  JObj [("kind", JStr "Field"); ("id", JStr "x"); ("name", JStr "x")].
Definition constructorOf (id : string) (parameters : list JsValue) : JsValue :=
  JObj [("kind", JStr "Constructor"); ("id", JStr id); ("parameters", JArr parameters)].
Definition pointXY : JsValue :=
  constructorOf "xy" [parameter "x" false; parameter "y" false].
Definition pointMany : JsValue := constructorOf "many" [parameter "coordinates" true].
Definition pointClass : JsValue := class_ "Point" None [] [fieldX; pointXY; pointMany].

(** [A] extends [B] and [B] extends [A]. *)
Definition cyclicA : JsValue := class_ "A" (Some "B") [] [].
Definition cyclicB : JsValue := class_ "B" (Some "A") [] [].
Definition cyclic : JsValue := environmentOf [cyclicA; cyclicB].

(** [D] extends [M] and declares a [foo(a, *b)] of its own, natively. *)
Definition ownFoo : JsValue :=
  JObj [("kind", JStr "Method"); ("id", JStr "own-foo"); ("name", JStr "foo");
        ("parameters", JArr [parameter "own-a" false; parameter "own-b" true]);
        ("isNative", JBool true)].
Definition moduleD : JsValue := class_ "D" (Some "M") [] [ownFoo].
(** [E] extends [D] and declares nothing. *)
Definition moduleE : JsValue := class_ "E" (Some "D") [] [].
Definition overriding : JsValue := environmentOf [moduleM; moduleD; moduleE].

End Samples.

(** * Properties *)

(** ** Induction on values *)

Section JsValueInduction.

Variable P : JsValue -> Prop.
Hypothesis HUndefined : P JUndefined.
Hypothesis HNull : P JNull.
Hypothesis HBool : forall b, P (JBool b).
Hypothesis HNum : forall q, P (JNum q).
Hypothesis HStr : forall s, P (JStr s).
Hypothesis HFun : forall source, P (JFun source).
Hypothesis HArr : forall items, Forall P items -> P (JArr items).
Hypothesis HObj : forall props, Forall (fun kv => P kv.2) props -> P (JObj props).

Fixpoint JsValue_nested_ind (v : JsValue) : P v :=
  match v with
  | JUndefined => HUndefined
  | JNull => HNull
  | JBool b => HBool b
  | JNum q => HNum q
  | JStr s => HStr s
  | JFun source => HFun source
  | JArr items =>
      HArr items
        ((fix all (l : list JsValue) : Forall P l :=
            match l with
            | [] => List.Forall_nil P
            | x :: rest => @List.Forall_cons _ P x rest (JsValue_nested_ind x) (all rest)
            end) items)
  | JObj props =>
      HObj props
        ((fix all (l : list (string * JsValue)) : Forall (fun kv => P kv.2) l :=
            match l with
            | [] => List.Forall_nil _
            | kv :: rest =>
                @List.Forall_cons _ (fun kv => P kv.2) kv rest (JsValue_nested_ind kv.2) (all rest)
            end) props)
  end.

End JsValueInduction.

(** ** The fold counts the nodes *)

Lemma list_sum_flat_map {A : Type} (f : A -> list JsValue) (g : JsValue -> nat) (l : list A) :
  list_sum (map g (flat_map f l)) = list_sum (map (fun x => list_sum (map g (f x))) l).
Proof.
  induction l as [|x l IH]; simpl; [reflexivity|].
  rewrite map_app, list_sum_app, IH. reflexivity.
Qed.

Lemma extractChildren_nodeCount (v : JsValue) :
  list_sum (map nodeCount (extractChildren v)) = nodeCount v.
Proof.
  induction v as [| | | | | |items IH|props IH] using JsValue_nested_ind;
    try reflexivity.
  - simpl. rewrite list_sum_flat_map. f_equal.
    apply map_ext_Forall. exact IH.
  - cbn [extractChildren nodeCount].
    destruct (truthy (lookupProp "kind" props)) eqn:Hk.
    + cbn [map nodeCount]. rewrite Hk. simpl. lia.
    + rewrite list_sum_flat_map. simpl. f_equal.
      apply map_ext_Forall. eapply Forall_impl; [exact IH|].
      intros [k x] Hx. exact Hx.
Qed.

Lemma children_nodeCount (node : JsValue) :
  isNode node = true ->
  nodeCount node = S (list_sum (map nodeCount (children node))).
Proof.
  destruct node as [| | | | | |items|props]; simpl; try discriminate.
  intros ->. simpl. f_equal.
  rewrite list_sum_flat_map.
  induction props as [|[k x] l IH]; simpl; [reflexivity|].
  rewrite extractChildren_nodeCount, IH. reflexivity.
Qed.

Lemma extractChildren_isNode (v child : JsValue) :
  child ∈ extractChildren v -> isNode child = true.
Proof.
  revert child.
  induction v as [| | | | | |items IH|props IH] using JsValue_nested_ind;
    intros child Hin; simpl in Hin; try (by apply elem_of_nil in Hin).
  - apply list_elem_of_In, in_flat_map in Hin as (x & Hx & Hc).
    rewrite Forall_forall in IH. apply (IH x); [by apply list_elem_of_In|by apply list_elem_of_In].
  - destruct (truthy (lookupProp "kind" props)) eqn:Hk.
    + apply list_elem_of_singleton in Hin as ->. exact Hk.
    + apply list_elem_of_In, in_flat_map in Hin as ([k x] & Hx & Hc).
      rewrite Forall_forall in IH.
      apply (IH (k, x)); [by apply list_elem_of_In|by apply list_elem_of_In].
Qed.

Lemma children_isNode (node child : JsValue) :
  child ∈ children node -> isNode child = true.
Proof.
  destruct node as [| | | | | |items|props]; simpl; try (intros H; by apply elem_of_nil in H).
  intros Hin. apply list_elem_of_In, in_flat_map in Hin as ([k x] & Hx & Hc).
  apply (extractChildren_isNode x). by apply list_elem_of_In.
Qed.

Lemma flat_map_nested {A B C : Type} (f : B -> list C) (g : A -> list B) (l : list A) :
  flat_map f (flat_map g l) = flat_map (fun x => flat_map f (g x)) l.
Proof.
  induction l as [|x l IH]; simpl; [reflexivity|].
  rewrite flat_map_app, IH. reflexivity.
Qed.

Lemma flat_map_ext_Forall {A B : Type} (f g : A -> list B) (l : list A) :
  Forall (fun x => f x = g x) l -> flat_map f l = flat_map g l.
Proof.
  induction 1 as [|x l Hx _ IH]; simpl; [reflexivity|].
  rewrite Hx, IH. reflexivity.
Qed.

Lemma extractChildren_nodesIn (v : JsValue) :
  flat_map nodesIn (extractChildren v) = nodesIn v.
Proof.
  induction v as [| | | | | |items IH|props IH] using JsValue_nested_ind;
    try reflexivity.
  - simpl. rewrite flat_map_nested. apply flat_map_ext_Forall, IH.
  - cbn [extractChildren nodesIn].
    destruct (truthy (lookupProp "kind" props)) eqn:Hk.
    + cbn [flat_map nodesIn]. rewrite Hk. apply app_nil_r.
    + simpl. rewrite flat_map_nested. apply flat_map_ext_Forall.
      eapply Forall_impl; [exact IH|]. intros [k x] Hx. exact Hx.
Qed.

Lemma nodesIn_node (node : JsValue) :
  isNode node = true ->
  nodesIn node = node :: flat_map nodesIn (children node).
Proof.
  destruct node as [| | | | | |items|props]; simpl; try discriminate.
  intros ->. simpl. f_equal.
  induction props as [|[k x] l IH]; simpl; [reflexivity|].
  rewrite flat_map_app, extractChildren_nodesIn, IH. reflexivity.
Qed.

Lemma nodesIn_length (v : JsValue) : length (nodesIn v) = nodeCount v.
Proof.
  induction v as [| | | | | |items IH|props IH] using JsValue_nested_ind;
    try reflexivity.
  - simpl. induction IH as [|x l Hx _ IHl]; simpl; [reflexivity|].
    rewrite length_app, Hx, IHl. reflexivity.
  - cbn [nodesIn nodeCount]. rewrite length_app. f_equal.
    + destruct (truthy (lookupProp "kind" props)); reflexivity.
    + clear -IH. induction IH as [|[k x] l Hx _ IHl]; simpl; [reflexivity|].
      simpl in Hx. rewrite length_app, Hx, IHl. reflexivity.
Qed.

Lemma foldlM_fold_left {A B : Type} (f : B -> A -> option B) (g : B -> A -> B) (l : list A) :
  (forall x, x ∈ l -> forall acc, f acc x = Some (g acc x)) ->
  forall acc, foldlM f acc l = Some (fold_left g l acc).
Proof.
  induction l as [|x l IH]; intros Hf acc; simpl; [reflexivity|].
  rewrite (Hf x) by left.
  apply IH. intros y Hy. apply Hf. by right.
Qed.

Lemma list_sum_elem_le (f : JsValue -> nat) (l : list JsValue) (x : JsValue) :
  x ∈ l -> f x <= list_sum (map f l).
Proof.
  induction 1 as [x l|x y l _ IH]; simpl; lia.
Qed.


(** ** The breadth-first walk reaches every node below *)

Lemma nodesIn_children_perm (cs : list JsValue) :
  Forall (fun c => isNode c = true) cs ->
  flat_map nodesIn cs ≡ₚ cs ++ flat_map (fun c => flat_map nodesIn (children c)) cs.
Proof.
  induction 1 as [|c cs Hc _ IH]; simpl; [reflexivity|].
  rewrite (nodesIn_node c Hc). simpl. constructor.
  rewrite IH. apply Permutation_app_swap_app.
Qed.

Lemma ofKind_app (kind : option string) (a b : list JsValue) :
  ofKind kind (a ++ b) = ofKind kind a ++ ofKind kind b.
Proof. destruct kind; simpl; [apply filter_app|reflexivity]. Qed.

Lemma ofKind_perm (kind : option string) (a b : list JsValue) :
  a ≡ₚ b -> ofKind kind a ≡ₚ ofKind kind b.
Proof. intros H. destruct kind; simpl; [by rewrite H|exact H]. Qed.

Lemma children_all_nodes (node : JsValue) :
  Forall (fun c => isNode c = true) (children node).
Proof. apply Forall_forall. intros c Hc. by eapply children_isNode. Qed.

Lemma descendantsLoop_spec (kind : option string) (fuel : nat) :
  forall (next : JsValue) (pending response : list JsValue),
    Forall (fun c => isNode c = true) pending ->
    S (list_sum (map nodeCount (children next)) + list_sum (map nodeCount pending)) <= fuel ->
    exists ds,
      descendantsLoop fuel kind next pending response = Some (response ++ ds)
      /\ ds ≡ₚ ofKind kind (flat_map nodesIn (children next)
                             ++ flat_map (fun c => flat_map nodesIn (children c)) pending).
Proof.
  induction fuel as [|fuel IH]; intros next pending response Hpending Hfuel; [lia|].
  cbn [descendantsLoop].
  pose proof (children_all_nodes next) as Hcs.
  set (cs := children next) in *.
  assert (Hqueue : Forall (fun c => isNode c = true) (pending ++ cs))
    by (apply Forall_app; split; assumption).
  assert (Hsum : list_sum (map nodeCount (pending ++ cs)) <= fuel)
    by (rewrite map_app, list_sum_app; lia).
  assert (Hperm :
    ofKind kind (flat_map nodesIn cs
                 ++ flat_map (fun c => flat_map nodesIn (children c)) pending)
    ≡ₚ ofKind kind cs
       ++ ofKind kind (flat_map (fun c => flat_map nodesIn (children c)) (pending ++ cs))).
  { rewrite <- ofKind_app. apply ofKind_perm.
    rewrite (nodesIn_children_perm cs Hcs), flat_map_app, <- app_assoc.
    apply Permutation_app_head, Permutation_app_comm. }
  destruct (pending ++ cs) as [|next' pending'] eqn:Hq.
  - exists (ofKind kind cs). split; [reflexivity|].
    rewrite Hperm. destruct kind; simpl; by rewrite app_nil_r.
  - apply Forall_cons in Hqueue as [Hnext' Hpending'].
    simpl in Hsum. rewrite (children_nodeCount next' Hnext') in Hsum.
    destruct (IH next' pending' (response ++ ofKind kind cs) Hpending') as (ds & Hrun & Hds);
      [lia|].
    exists (ofKind kind cs ++ ds). split.
    + rewrite Hrun, <- app_assoc. reflexivity.
    + rewrite Hperm, Hds. simpl. reflexivity.
Qed.

Lemma descendants_spec (kind : option string) (node : JsValue) :
  isNode node = true ->
  exists ds,
    descendants kind node = Some ds
    /\ ds ≡ₚ ofKind kind (flat_map nodesIn (children node)).
Proof.
  intros Hnode. unfold descendants.
  destruct (descendantsLoop_spec kind (S (nodeCount node)) node [] [])
    as (ds & Hrun & Hds); [constructor| |].
  - rewrite (children_nodeCount node Hnode). simpl. lia.
  - exists ds. split; [exact Hrun|].
    rewrite Hds. simpl. rewrite app_nil_r. reflexivity.
Qed.




(** ** The order of the rewrite *)

Lemma mapR_map {A B : Type} (f : A -> Result B) (g : A -> B) (l : list A) :
  Forall (fun x => f x = Returned (g x)) l -> mapR f l = Returned (map g l).
Proof.
  induction 1 as [|x l Hx _ IH]; [reflexivity|].
  cbn. rewrite Hx. cbn. rewrite IH. reflexivity.
Qed.

Lemma mapR_Returned {A B : Type} (f : A -> Result B) (g : A -> B) (l : list A) (l' : list B) :
  (forall x y, f x = Returned y -> y = g x) ->
  mapR f l = Returned l' -> l' = map g l.
Proof.
  intros Hf. revert l'. induction l as [|x l IH]; intros l'; cbn.
  - by intros [= <-].
  - destruct (f x) as [y| |] eqn:Hx; cbn; try discriminate.
    destruct (mapR f l) as [ys| |]; cbn; try discriminate.
    intros [= <-]. by rewrite (Hf x y Hx), (IH ys eq_refl).
Qed.

Lemma depth_item (items : list JsValue) (x : JsValue) :
  x ∈ items -> depth x < depth (JArr items).
Proof.
  simpl. induction 1 as [x l|x y l _ IH]; simpl; lia.
Qed.

Lemma depth_prop (props : list (string * JsValue)) (k : string) (x : JsValue) :
  (k, x) ∈ props -> depth x < depth (JObj props).
Proof.
  simpl. induction props as [|[k' x'] l IH]; intros Hin.
  - by apply elem_of_nil in Hin.
  - apply elem_of_cons in Hin as [[= <- <-]|Hin]; simpl; [lia|].
    specialize (IH Hin). lia.
Qed.

(** With a table the walk ends on every value, given fuel for its
    depth, and answers the bottom-up rewrite. *)
Lemma applyTransform_table (table : string -> option (JsValue -> JsValue)) (fuel : nat) :
  forall value : JsValue,
    depth value <= fuel ->
    applyTransform fuel (TxMap table) value = Returned (bottomUp table value).
Proof.
  induction fuel as [|fuel IH]; intros value Hfuel.
  - destruct value; simpl in Hfuel; lia.
  - destruct value as [| | | | | |items|props]; try reflexivity.
    + cbn [applyTransform bottomUp].
      rewrite (mapR_map _ (bottomUp table)); [reflexivity|].
      apply Forall_forall. intros x Hx. apply IH.
      pose proof (depth_item items x Hx). lia.
    + assert (Hprops :
        mapObject (applyTransform fuel (TxMap table)) (JObj props)
        = Returned (JObj (map (fun '(k, v) => (k, bottomUp table v)) props))).
      { cbn [mapObject].
        rewrite (mapR_map _ (fun '(k, v) => (k, bottomUp table v))); [reflexivity|].
        apply Forall_forall. intros [k x] Hx. rewrite IH; [reflexivity|].
        pose proof (depth_prop props k x Hx). lia. }
      cbn [applyTransform bottomUp isNode].
      destruct (truthy (lookupProp "kind" props)); rewrite Hprops; reflexivity.
Qed.

(** With a table, whatever the walk answers is the bottom-up rewrite. *)
Lemma applyTransform_table_Returned (table : string -> option (JsValue -> JsValue))
    (fuel : nat) :
  forall value result : JsValue,
    applyTransform fuel (TxMap table) value = Returned result ->
    result = bottomUp table value.
Proof.
  induction fuel as [|fuel IH]; intros value result Hrun; [discriminate|].
  destruct value as [| | | | | |items|props]; cbn [applyTransform] in Hrun;
    try (by injection Hrun as <-).
  - destruct (mapR (applyTransform fuel (TxMap table)) items) as [items'| |] eqn:Hitems;
      cbn in Hrun; try discriminate.
    injection Hrun as <-. cbn [bottomUp]. f_equal.
    by apply (mapR_Returned _ (bottomUp table) items items' (IH)).
  - assert (Hprops : forall rewritten,
              mapObject (applyTransform fuel (TxMap table)) (JObj props) = Returned rewritten ->
              rewritten = JObj (map (fun '(k, v) => (k, bottomUp table v)) props)).
    { cbn [mapObject]. intros rewritten Hm.
      match type of Hm with
      | rbind ?m _ = _ => destruct m as [props'| |] eqn:Hmap; cbn in Hm; try discriminate
      end.
      injection Hm as <-. f_equal.
      eapply (mapR_Returned _ (fun '(k, v) => (k, bottomUp table v)) props props');
        [|exact Hmap].
      intros [k x] [k' x'] Hx.
      destruct (applyTransform fuel (TxMap table) x) as [y| |] eqn:Hy; cbn in Hx;
        try discriminate.
      injection Hx as <- <-. by rewrite (IH x y Hy). }
    cbn [isNode] in Hrun. cbn [bottomUp].
    destruct (truthy (lookupProp "kind" props)).
    + destruct (mapObject (applyTransform fuel (TxMap table)) (JObj props))
        as [rewritten| |]; cbn in Hrun; try discriminate.
      injection Hrun as <-. by rewrite (Hprops rewritten eq_refl).
    + by apply Hprops.
Qed.

(** C2, as the code has it: with a table from kind to function the
    rewrite is bottom-up, and it ends: the function of a node's kind is
    applied to the node whose attributes have all been rewritten.  With a
    single function the order is the other one: the function is applied
    to the node as it stands, and the attributes of what it returns are
    rewritten afterwards. *)
Theorem C2_transform_order :
  (forall (table : string -> option (JsValue -> JsValue)) (node : JsValue) (fuel : nat),
      isNode node = true ->
      depth node <= fuel ->
      transform fuel (TxMap table) node = Returned (bottomUp table node)
      /\ bottomUp table node
         = txFor table node
             (JObj (map (fun '(k, v) => (k, bottomUp table v))
                        (match node with JObj props => props | _ => [] end))))
  /\ (forall table : string -> option (JsValue -> JsValue), rewritesBottomUp (TxMap table))
  /\ (forall (f : JsValue -> JsValue) (node : JsValue) (fuel : nat),
        isNode node = true ->
        transform (S fuel) (TxFun f) node
        = mapObject (applyTransform fuel (TxFun f)) (f node)).
Proof.
  split; [|split].
  - intros table node fuel Hnode Hfuel. split.
    + apply applyTransform_table, Hfuel.
    + destruct node as [| | | | | |items|props]; try discriminate.
      simpl in Hnode. cbn [bottomUp]. rewrite Hnode. reflexivity.
  - intros table fuel node result Hnode Hrun.
    by apply (applyTransform_table_Returned table fuel).
  - intros f node fuel Hnode.
    destruct node as [| | | | | |items|props]; try discriminate.
    unfold transform. cbn [applyTransform]. rewrite Hnode. reflexivity.
Qed.

Lemma C2_transform_order_witness :
  transform 3 (TxMap Samples.onlyB) Samples.rootA
  = Returned (bottomUp Samples.onlyB Samples.rootA)
  /\ transform 3 (TxFun Samples.markSeen) Samples.rootA
     = mapObject (applyTransform 2 (TxFun Samples.markSeen)) (Samples.markSeen Samples.rootA).
Proof.
  destruct C2_transform_order as (Htable & _ & Hfun). split.
  - apply (Htable Samples.onlyB Samples.rootA 3); [reflexivity|simpl; lia].
  - apply (Hfun Samples.markSeen Samples.rootA 2). reflexivity.
Defined.

(** The two orders on a node [A] with a child [B], with the function that
    records whether the child was marked: with the single function the
    child is not yet marked when [A] is seen, with the table it is. *)
Example transform_function_top_down :
  transform 3 (TxFun Samples.markSeen) Samples.rootA
  = Returned (JObj [("kind", JStr "A");
                    ("child", JObj [("kind", JStr "B"); ("saw", JUndefined);
                                    ("mark", JStr "done")]);
                    ("saw", JUndefined); ("mark", JStr "done")]).
Proof. reflexivity. Qed.

Example transform_table_bottom_up :
  transform 3 (TxMap (fun _ => Some Samples.markSeen)) Samples.rootA
  = Returned (JObj [("kind", JStr "A");
                    ("child", JObj [("kind", JStr "B"); ("saw", JUndefined);
                                    ("mark", JStr "done")]);
                    ("saw", JStr "done"); ("mark", JStr "done")]).
Proof. reflexivity. Qed.

(** C2 as stated fails for a single function: on a node [A] with a child
    [B], the function sees [A] while [B] has not been rewritten. *)
Lemma C2_function_is_not_bottom_up : ~ rewritesBottomUp (TxFun Samples.markSeen).
Proof.
  intros Hclaim.
  specialize (Hclaim 3 Samples.rootA _ eq_refl eq_refl).
  vm_compute in Hclaim. discriminate Hclaim.
Qed.

(** ** Interruptions *)

Section Interruptions.

Import Runtime.

Variable numberToString : Q -> string.

Implicit Types (frame top handler : Frame) (lower mid frames : list Frame).
Implicit Types (kind : Interruption) (valueId : Id) (ev : Evaluation).

Lemma removelast_snoc {A : Type} (l : list A) (x : A) : removelast (l ++ [x]) = l.
Proof. apply removelast_last. Qed.

(** The loop stops at the first frame below the top that resumes [kind]. *)
Lemma unwind_found kind lower handler mid :
  kind ∈ resume handler ->
  Forall (fun frame => kind ∉ resume frame) mid ->
  forall top fuel,
    length mid < fuel ->
    unwind fuel kind (lower ++ handler :: mid ++ [top]) = Some (lower ++ [handler]).
Proof.
  intros Hhandler.
  induction mid as [|frame mid IH] using rev_ind; intros Hmid top fuel Hfuel.
  - destruct fuel as [|fuel]; [simpl in Hfuel; lia|].
    cbn [unwind app].
    replace (lower ++ [handler; top]) with ((lower ++ [handler]) ++ [top])
      by (rewrite <- app_assoc; reflexivity).
    rewrite removelast_snoc, last_snoc.
    rewrite bool_decide_eq_true_2 by exact Hhandler. reflexivity.
  - apply Forall_app in Hmid as [Hmid Hframe]. rewrite Forall_singleton in Hframe.
    rewrite length_app in Hfuel. simpl in Hfuel.
    destruct fuel as [|fuel]; [lia|].
    cbn [unwind].
    replace (lower ++ handler :: (mid ++ [frame]) ++ [top])
      with ((lower ++ handler :: mid ++ [frame]) ++ [top])
      by (rewrite <- !app_assoc; simpl; rewrite <- app_assoc; reflexivity).
    rewrite removelast_snoc.
    replace (lower ++ handler :: mid ++ [frame])
      with ((lower ++ handler :: mid) ++ [frame]) at 1
      by (rewrite <- app_assoc; reflexivity).
    rewrite last_snoc.
    rewrite bool_decide_eq_false_2 by exact Hframe. cbn [negb].
    apply IH; [exact Hmid|lia].
Qed.

(** Without such a frame the loop empties the stack. *)
Lemma unwind_exhausts kind frames :
  Forall (fun frame => kind ∉ resume frame) (removelast frames) ->
  forall fuel, length frames <= fuel -> fuel <> 0 -> unwind fuel kind frames = Some [].
Proof.
  induction frames as [|frame frames IH] using rev_ind; intros Hnone fuel Hfuel Hpos.
  - destruct fuel; [congruence|reflexivity].
  - rewrite removelast_snoc in Hnone.
    rewrite length_app in Hfuel. simpl in Hfuel.
    destruct fuel as [|fuel]; [lia|].
    cbn [unwind]. rewrite removelast_snoc.
    destruct frames as [|f frames'] using rev_ind; [reflexivity|].
    rewrite last_snoc.
    pose proof Hnone as Hall.
    apply Forall_app in Hall as [Hrest Hf]. rewrite Forall_singleton in Hf.
    rewrite bool_decide_eq_false_2 by exact Hf. cbn [negb].
    apply IH.
    + rewrite removelast_snoc. exact Hrest.
    + lia.
    + rewrite length_app in Hfuel. simpl in Hfuel. lia.
Qed.

(** A stack either has no frame that resumes [kind] or splits at the
    topmost one. *)
Lemma topmost_handler kind frames :
  Forall (fun frame => kind ∉ resume frame) frames
  \/ (exists lower handler mid,
        frames = lower ++ handler :: mid
        /\ kind ∈ resume handler
        /\ Forall (fun frame => kind ∉ resume frame) mid).
Proof.
  induction frames as [|frame frames IH] using rev_ind; [left; constructor|].
  destruct (decide (kind ∈ resume frame)) as [Hin|Hnot].
  - right. exists frames, frame, []. repeat split; [exact Hin|constructor].
  - destruct IH as [Hnone|(lower & handler & mid & -> & Hin & Hmid)].
    + left. apply Forall_app. split; [exact Hnone|]. by apply Forall_singleton.
    + right. exists lower, handler, (mid ++ [frame]). repeat split.
      * rewrite <- app_assoc. reflexivity.
      * exact Hin.
      * apply Forall_app. split; [exact Hmid|]. by apply Forall_singleton.
Qed.


Lemma interrupt_found kind valueId ev lower handler mid top :
  frameStack ev = lower ++ handler :: mid ++ [top] ->
  kind ∈ resume handler ->
  Forall (fun frame => kind ∉ resume frame) mid ->
  interrupt numberToString kind valueId ev
  = (Returned tt, setFrameStack (lower ++ [handled kind valueId handler]) ev).
Proof.
  intros Hstack Hhandler Hmid.
  unfold interrupt, interruptFuel. rewrite Hstack.
  rewrite (unwind_found kind lower handler mid Hhandler Hmid).
  - rewrite last_snoc. f_equal.
    unfold setFrameStack. cbn [instances frameStack others]. f_equal.
    rewrite length_app. simpl length.
    replace (pred (length lower + 1)) with (length lower + 0) by lia.
    rewrite insert_app_r. reflexivity.
  - rewrite !length_app. simpl. rewrite length_app. simpl. lia.
Qed.


Lemma interrupt_unhandled kind valueId ev :
  Forall (fun frame => kind ∉ resume frame) (removelast (frameStack ev)) ->
  exists e, interrupt numberToString kind valueId ev = (Thrown e, setFrameStack [] ev).
Proof.
  intros Hnone. unfold interrupt, interruptFuel.
  rewrite (unwind_exhausts kind (frameStack ev) Hnone) by lia.
  cbn [last]. unfold bind, instance, unhandledDetail, bind, instance, ret, throw.
  cbn [instances setFrameStack frameStack].
  repeat case_match; simplify_eq; eauto.
Qed.


(** C4, as the code has it: when no frame below the top resumes
    ["exception"], [interrupt("exception", X)] empties the frame stack and
    throws an error whose message ends with the module of the instance X,
    a colon, and an inner value: that of the instance under X's [message]
    field when the field is there and that inner value is truthy, X's own
    inner value otherwise (no field, or a falsy inner value such as
    [false], [0], the empty string or [undefined]).  With one frame that
    resumes nothing, X of module E and a message whose inner value is
    "boom", the message contains [E: boom]. *)
Theorem C4_unhandled_exception_message :
  (forall ev valueId (value : RuntimeObject) (shown : JsValue),
      Forall (fun frame => "exception" ∉ resume frame) (removelast (frameStack ev)) ->
      instances ev !! valueId = Some value ->
      (fields value !! "message" = None /\ shown = innerValue value)
      \/ (exists messageId messageInstance,
            fields value !! "message" = Some messageId
            /\ messageId <> EmptyString
            /\ instances ev !! messageId = Some messageInstance
            /\ shown = if truthy (innerValue messageInstance)
                       then innerValue messageInstance
                       else innerValue value) ->
      interrupt numberToString "exception" valueId ev
      = (Thrown (Error_ (unhandledMessage "exception" valueId
                           (module value +:+ ": " +:+ ToString numberToString shown))),
         setFrameStack [] ev))
  /\ (exists message,
        interrupt numberToString "exception" "X" (Samples.unhandledState JNull (JStr "boom"))
        = (Thrown (Error_ message),
           setFrameStack [] (Samples.unhandledState JNull (JStr "boom")))
        /\ includesText "E: boom" message = true).
Proof.
  split.
  - intros ev valueId value shown Hnone Hvalue Hshown.
    unfold interrupt, interruptFuel.
    rewrite (unwind_exhausts "exception" (frameStack ev) Hnone) by lia.
    cbn [last]. unfold bind at 1. unfold instance at 1.
    cbn [instances setFrameStack]. rewrite Hvalue.
    unfold unhandledDetail. cbn [String.eqb Ascii.eqb Bool.eqb].
    destruct Hshown as [[Hfield ->]|(messageId & messageInstance & Hfield & Hid & Hmsg & ->)].
    + rewrite Hfield. reflexivity.
    + rewrite Hfield. apply String.eqb_neq in Hid. rewrite Hid.
      unfold bind, instance. cbn [instances setFrameStack]. rewrite Hmsg. reflexivity.
  - eexists. split; [vm_compute; reflexivity|vm_compute; reflexivity].
Qed.

End Interruptions.

(** C4 as stated fails when the inner value of the message is falsy: X's
    own inner value is shown instead. *)
Lemma C4_falsy_message_falls_back :
  ~ (forall numberToString, Runtime.unhandledExceptionClaim numberToString).
Proof.
  intros Hclaim.
  destruct (Hclaim Samples.noDigits
              (Samples.unhandledState JUndefined (JBool false)) "X"
              (Samples.exceptionX JUndefined) (JBool false))
    as (message & Hthrown & Hshows).
  - repeat constructor.
  - reflexivity.
  - reflexivity.
  - vm_compute in Hthrown. injection Hthrown as <-.
    vm_compute in Hshows. discriminate Hshows.
Qed.

(** ** Instances of numbers *)

Section Interning.

Import Runtime.

Variable numberToString : Q -> string.
Variable stringToNumber : string -> JsValue.

Let create (precision : nat) := createInstance numberToString stringToNumber precision.


End Interning.


(** ** Hierarchies and method lookup *)

Section Lookup.

Import Linked.

Variable numberToString : Q -> string.
Variable environment : JsValue.

Lemma findR_Some {A : Type} (p : A -> Result bool) (l : list A) (x : A) :
  findR p l = Returned (Some x) -> x ∈ l /\ p x = Returned true.
Proof.
  induction l as [|y l IH]; simpl; [discriminate|].
  destruct (p y) as [[|]| |] eqn:Hy; simpl; try discriminate.
  - intros [= <-]. split; [left|exact Hy].
  - intros Hfind. destruct (IH Hfind) as [Hin Hx]. split; [by right|exact Hx].
Qed.

Lemma findR_None {A : Type} (p : A -> Result bool) (l : list A) :
  findR p l = Returned None -> forall x, x ∈ l -> p x = Returned false.
Proof.
  induction l as [|y l IH]; simpl; intros Hfind x Hin; [by apply elem_of_nil in Hin|].
  destruct (p y) as [[|]| |] eqn:Hy; simpl in Hfind; try discriminate.
  apply elem_of_cons in Hin as [->|Hin]; [exact Hy|by apply IH].
Qed.

Lemma lookupIn_Some (name : string) (arity : Z) (modules : list JsValue) (method : JsValue) :
  lookupIn name arity modules = Returned (Some method) ->
  exists module candidates,
    module ∈ modules
    /\ methods module = Returned candidates
    /\ method ∈ candidates
    /\ methodMatches name arity method = Returned true.
Proof.
  induction modules as [|module modules IH]; simpl; [discriminate|].
  destruct (methods module) as [candidates| |] eqn:Hm; simpl; try discriminate.
  destruct (findR (methodMatches name arity) candidates) as [[found|]| |] eqn:Hf;
    simpl; try discriminate.
  - intros [= <-]. apply findR_Some in Hf as [Hin Hp].
    exists module, candidates. repeat split; [left|exact Hm|exact Hin|exact Hp].
  - intros Hrest. destruct (IH Hrest) as (m & cs & Hin & Hms & Hc & Hp).
    exists m, cs. repeat split; [by right|exact Hms|exact Hc|exact Hp].
Qed.

Lemma lookupIn_None (name : string) (arity : Z) (modules : list JsValue) :
  lookupIn name arity modules = Returned None ->
  forall module candidates method,
    module ∈ modules ->
    methods module = Returned candidates ->
    method ∈ candidates ->
    methodMatches name arity method = Returned false.
Proof.
  induction modules as [|module modules IH]; simpl;
    intros Hlook m cs method Hin Hms Hc; [by apply elem_of_nil in Hin|].
  destruct (methods module) as [candidates| |] eqn:Hm; simpl in Hlook; try discriminate.
  destruct (findR (methodMatches name arity) candidates) as [[found|]| |] eqn:Hf;
    simpl in Hlook; try discriminate.
  apply elem_of_cons in Hin as [->|Hin].
  - rewrite Hm in Hms. injection Hms as <-. by eapply findR_None.
  - by eapply IH.
Qed.

(** The arity test, spelled out. *)
Lemma arityMatches_spec (member : JsValue) (parameters : list JsValue) (arity : Z) :
  get "parameters" member = JArr parameters ->
  exists matches,
    arityMatches member arity = Returned matches
    /\ (matches = true <->
        ((exists p, p ∈ parameters /\ truthy (get "isVarArg" p) = true)
         /\ (Z.of_nat (length parameters) - 1 <= arity)%Z)
        \/ Z.of_nat (length parameters) = arity).
Proof.
  intros Hparams. unfold arityMatches. rewrite Hparams. simpl.
  eexists. split; [reflexivity|].
  rewrite orb_true_iff, andb_true_iff, Z.leb_le, Z.eqb_eq, existsb_exists.
  split; intros [[(p & Hin & Hp) Hle]|Heq]; try (right; exact Heq); left; split;
    try exact Hle; exists p; split; try exact Hp; by apply list_elem_of_In.
Qed.

(** What [lookupMethod] answers, when it answers. *)
Lemma lookupMethod_Returned (fuel : nat) (this : JsValue) (name : string) (arity : Z)
    (found : option JsValue) :
  lookupMethod numberToString environment fuel this name arity = Returned found ->
  exists modules,
    hierarchy numberToString environment fuel this = Returned modules
    /\ match found with
       | Some method =>
           exists module candidates matches,
             module ∈ modules
             /\ methods module = Returned candidates
             /\ method ∈ candidates
             /\ (truthy (get "body" method) || truthy (get "isNative" method)) = true
             /\ get "name" method = JStr name
             /\ arityMatches method arity = Returned matches
             /\ matches = true
       | None =>
           forall module candidates method,
             module ∈ modules ->
             methods module = Returned candidates ->
             method ∈ candidates ->
             methodMatches name arity method = Returned false
       end.
Proof.
  intros Hlook. unfold lookupMethod in Hlook.
  destruct (hierarchy numberToString environment fuel this) as [modules| |] eqn:Hh;
    simpl in Hlook; try discriminate.
  exists modules. split; [reflexivity|].
  destruct found as [method|].
  - apply lookupIn_Some in Hlook as (module & candidates & Hin & Hms & Hc & Hp).
    unfold methodMatches in Hp.
    destruct (truthy (get "body" method) || truthy (get "isNative" method)) eqn:Hbody;
      simpl in Hp; [|discriminate].
    destruct (strictEq (get "name" method) (JStr name)) eqn:Hname; [|discriminate].
    exists module, candidates, true. repeat split; try assumption.
    destruct (get "name" method); simpl in Hname; try discriminate.
    apply String.eqb_eq in Hname as ->. reflexivity.
  - by apply lookupIn_None.
Qed.

Lemma foldR_hierarchy_prefix (fuel : nat) (parents : list JsValue) :
  forall (acc final : list JsValue * list JsValue),
    foldR (fun acc mod_ =>
             try! below := hierarchyExcluding numberToString environment fuel mod_ acc.2 in
             Returned (acc.1 ++ below, get "id" mod_ :: acc.2))
          acc parents = Returned final ->
    exists rest, final.1 = acc.1 ++ rest.
Proof.
  induction parents as [|mod_ parents IH]; intros acc final; simpl.
  - intros [= <-]. exists []. by rewrite app_nil_r.
  - destruct (hierarchyExcluding numberToString environment fuel mod_ acc.2)
      as [below| |]; simpl; try discriminate.
    intros Hfold. destruct (IH _ _ Hfold) as [rest Hrest]. simpl in Hrest.
    exists (below ++ rest). rewrite Hrest, app_assoc. reflexivity.
Qed.

(** The hierarchy of a module starts with the module. *)
Lemma hierarchy_head (fuel : nat) (this : JsValue) (modules : list JsValue) :
  hierarchy numberToString environment fuel this = Returned modules ->
  exists rest, modules = this :: rest.
Proof.
  unfold hierarchy. destruct (is_ "Module" this); [|discriminate].
  destruct fuel as [|fuel]; [discriminate|].
  cbn [hierarchyExcluding existsb].
  destruct (arrayItems (get "mixins" this)) as [mixins| |]; simpl; try discriminate.
  destruct (mapR (target numberToString environment) mixins) as [targets| |];
    simpl; try discriminate.
  match goal with
  | |- context [rbind ?sc _] => destruct sc as [superclass| |]; simpl; try discriminate
  end.
  match goal with
  | |- context [foldR ?f ?acc ?l] => destruct (foldR f acc l) as [final| |] eqn:Hfold
  end; simpl; try discriminate.
  intros [= <-]. apply foldR_hierarchy_prefix in Hfold as [rest Hrest].
  exists rest. exact Hrest.
Qed.

End Lookup.

(** C1: the hierarchy of a module starts with the module (lemma
    [hierarchy_head]), but its ids are not always distinct:
    [hierarchyExcluding] only excludes the parents already walked, not
    what was found above them.  For a class [C] that mixes [M1] and [M2],
    which both mix [M3], the hierarchy is [C, M1, M3, M2, M3]. *)
Theorem C1_hierarchy_repeats_shared_mixin :
  Linked.hierarchy Samples.noDigits Samples.diamond 3 Samples.diamondC
  = Returned [Samples.diamondC; Samples.diamondM1; Samples.diamondM3;
              Samples.diamondM2; Samples.diamondM3]
  /\ ~ NoDup (map (get "id")
                  [Samples.diamondC; Samples.diamondM1; Samples.diamondM3;
                   Samples.diamondM2; Samples.diamondM3]).
Proof.
  split.
  - vm_compute. reflexivity.
  - intros Hnodup. vm_compute in Hnodup.
    apply NoDup_cons in Hnodup as [_ Hnodup].
    apply NoDup_cons in Hnodup as [_ Hnodup].
    apply NoDup_cons in Hnodup as [Hnotin _].
    apply Hnotin. right. left.
Qed.

(** ** Copies do not share what they mutate *)

Section CopyIsolation.

Import Runtime Store.

Implicit Types (h : list Cell) (l e : nat).

Lemma lookup_extend h (new : list Cell) l c :
  h !! l = Some c -> (h ++ new) !! l = Some c.
Proof. intros H. by apply lookup_app_l_Some. Qed.

Lemma lookup_alloc h c : (h ++ [c]) !! length h = Some c.
Proof. rewrite lookup_app_r by lia. by rewrite Nat.sub_diag. Qed.

Lemma viewFrame_extend h new l frame :
  viewFrame h l = Some frame -> viewFrame (h ++ new) l = Some frame.
Proof.
  unfold viewFrame. intros H.
  repeat case_match; simplify_eq;
    repeat match goal with
           | H : h !! _ = Some _ |- _ => apply (lookup_extend h new) in H
           end; simplify_eq; reflexivity.
Qed.

Lemma viewInstance_extend h new l object :
  viewInstance h l = Some object -> viewInstance (h ++ new) l = Some object.
Proof.
  unfold viewInstance. intros H.
  repeat case_match; simplify_eq;
    repeat match goal with
           | H : h !! _ = Some _ |- _ => apply (lookup_extend h new) in H
           end; simplify_eq; reflexivity.
Qed.

Lemma frameLocs_extend h new l frame :
  viewFrame h l = Some frame -> frameLocs (h ++ new) l = frameLocs h l.
Proof.
  unfold viewFrame, frameLocs. intros H.
  destruct (h !! l) as [c|] eqn:Hl; [|discriminate].
  rewrite (lookup_extend h new l c Hl). reflexivity.
Qed.

Lemma instanceLocs_extend h new l object :
  viewInstance h l = Some object -> instanceLocs (h ++ new) l = instanceLocs h l.
Proof.
  unfold viewInstance, instanceLocs. intros H.
  destruct (h !! l) as [c|] eqn:Hl; [|discriminate].
  rewrite (lookup_extend h new l c Hl). reflexivity.
Qed.

Lemma frameLocs_valid h l frame :
  viewFrame h l = Some frame -> Forall (fun x => x < length h) (frameLocs h l).
Proof.
  unfold viewFrame, frameLocs. intros H.
  repeat case_match; simplify_eq.
  repeat constructor; eapply lookup_lt_Some; eassumption.
Qed.

Lemma instanceLocs_valid h l object :
  viewInstance h l = Some object -> Forall (fun x => x < length h) (instanceLocs h l).
Proof.
  unfold viewInstance, instanceLocs. intros H.
  repeat case_match; simplify_eq.
  repeat constructor; eapply lookup_lt_Some; eassumption.
Qed.

(** The copy of a frame is made of four new cells at the end of the
    store, and shows the same frame. *)
Lemma copyFrame_spec h l frame :
  viewFrame h l = Some frame ->
  exists l' new,
    copyFrame l h = Some (l', h ++ new)
    /\ viewFrame (h ++ new) l' = Some frame
    /\ Forall (fun x => length h <= x < length (h ++ new)) (frameLocs (h ++ new) l').
Proof.
  unfold viewFrame. intros H.
  destruct (h !! l) as [[| | |locals operands resume ex| | |]|] eqn:Hl; try discriminate.
  destruct (h !! locals) as [[|ls| | | | |]|] eqn:Hlocals; try discriminate.
  destruct (h !! operands) as [[os| | | | | |]|] eqn:Hoperands; try discriminate.
  destruct (h !! resume) as [[rs| | | | | |]|] eqn:Hresume; try discriminate.
  injection H as <-.
  exists (length h + 3),
    [CDict ls; CArray os; CArray rs; CFrame (length h) (length h + 1) (length h + 2) ex].
  assert (H0 : forall c0 c1 c2 c3, (h ++ [c0; c1; c2; c3]) !! length h = Some c0).
  { intros. rewrite lookup_app_r by lia. by rewrite Nat.sub_diag. }
  assert (H1 : forall c0 c1 c2 c3, (h ++ [c0; c1; c2; c3]) !! (length h + 1) = Some c1).
  { intros. rewrite lookup_app_r by lia.
    by replace (length h + 1 - length h) with 1 by lia. }
  assert (H2 : forall c0 c1 c2 c3, (h ++ [c0; c1; c2; c3]) !! (length h + 2) = Some c2).
  { intros. rewrite lookup_app_r by lia.
    by replace (length h + 2 - length h) with 2 by lia. }
  assert (H3 : forall c0 c1 c2 c3, (h ++ [c0; c1; c2; c3]) !! (length h + 3) = Some c3).
  { intros. rewrite lookup_app_r by lia.
    by replace (length h + 3 - length h) with 3 by lia. }
  split; [|split].
  - unfold copyFrame, copyDict, copyArray, alloc. rewrite Hl, Hlocals. cbn.
    rewrite (lookup_extend h _ operands _ Hoperands). cbn.
    rewrite (lookup_extend (h ++ [CDict ls]) _ resume (CArray rs))
      by (by apply lookup_extend).
    cbn. rewrite !length_app. cbn. rewrite <- !app_assoc. cbn.
    replace (length h + 1 + 1 + 1) with (length h + 3) by lia.
    replace (length h + 1 + 1) with (length h + 2) by lia. reflexivity.
  - unfold viewFrame. rewrite H3, H0, H1, H2. reflexivity.
  - unfold frameLocs. rewrite H3. rewrite length_app. cbn.
    repeat constructor; lia.
Qed.

Lemma copyInstance_spec h l object :
  viewInstance h l = Some object ->
  exists l' new,
    copyInstance l h = Some (l', h ++ new)
    /\ viewInstance (h ++ new) l' = Some object
    /\ Forall (fun x => length h <= x < length (h ++ new)) (instanceLocs (h ++ new) l').
Proof.
  unfold viewInstance. intros H.
  destruct (h !! l) as [[| |id module fields inner| | | |]|] eqn:Hl; try discriminate.
  destruct (h !! fields) as [[|fs| | | | |]|] eqn:Hfields; try discriminate.
  injection H as <-.
  exists (length h + 1), [CDict fs; CInstance id module (length h) inner].
  assert (H0 : forall c0 c1, (h ++ [c0; c1]) !! length h = Some c0).
  { intros. rewrite lookup_app_r by lia. by rewrite Nat.sub_diag. }
  assert (H1 : forall c0 c1, (h ++ [c0; c1]) !! (length h + 1) = Some c1).
  { intros. rewrite lookup_app_r by lia.
    by replace (length h + 1 - length h) with 1 by lia. }
  split; [|split].
  - unfold copyInstance, copyDict, alloc. rewrite Hl, Hfields. cbn.
    rewrite !length_app. cbn. rewrite <- !app_assoc. cbn. reflexivity.
  - unfold viewInstance. rewrite H1, H0. reflexivity.
  - unfold instanceLocs. rewrite H1. rewrite length_app. cbn.
    repeat constructor; lia.
Qed.

Lemma copyFrames_spec (frames : list nat) :
  forall h (stack : list Frame),
    Forall2 (fun l frame => viewFrame h l = Some frame) frames stack ->
    exists frames' new,
      copyFrames frames h = Some (frames', h ++ new)
      /\ Forall2 (fun l frame => viewFrame (h ++ new) l = Some frame) frames' stack
      /\ Forall (fun x => length h <= x < length (h ++ new))
                (flat_map (frameLocs (h ++ new)) frames').
Proof.
  induction frames as [|l frames IH]; intros h stack Hview.
  - apply Forall2_nil_inv_l in Hview as ->.
    exists [], []. rewrite app_nil_r. repeat split; constructor.
  - apply Forall2_cons_inv_l in Hview as (frame & stack' & Hl & Hrest & ->).
    destruct (copyFrame_spec h l frame Hl) as (l' & new1 & Hcopy & Hview1 & Hlocs1).
    destruct (IH (h ++ new1) stack') as (frames' & new2 & Hcopies & Hviews & Hlocs2).
    { eapply Forall2_impl; [exact Hrest|]. intros x y. apply viewFrame_extend. }
    exists (l' :: frames'), (new1 ++ new2). rewrite app_assoc. split; [|split].
    + cbn. rewrite Hcopy. cbn. rewrite Hcopies. reflexivity.
    + constructor; [by apply viewFrame_extend|exact Hviews].
    + cbn. apply Forall_app. split.
      * rewrite (frameLocs_extend _ _ _ _ Hview1).
        eapply Forall_impl; [exact Hlocs1|]. intros x. cbn. rewrite !length_app. lia.
      * eapply Forall_impl; [exact Hlocs2|]. intros x. cbn. rewrite !length_app. lia.
Qed.

Lemma viewEntry_extend h new entry object :
  viewEntry h entry = Some object -> viewEntry (h ++ new) entry = Some object.
Proof.
  unfold viewEntry. destruct (viewInstance h entry.2) as [o|] eqn:Ho; [|discriminate].
  rewrite (viewInstance_extend h new _ o Ho). trivial.
Qed.

Lemma copyTable_spec (table : list (string * nat)) :
  forall h (objects : list (string * RuntimeObject)),
    Forall2 (fun entry object => viewEntry h entry = Some object) table objects ->
    exists table' new,
      copyTable table h = Some (table', h ++ new)
      /\ Forall2 (fun entry object => viewEntry (h ++ new) entry = Some object) table' objects
      /\ Forall (fun x => length h <= x < length (h ++ new))
                (flat_map (instanceLocs (h ++ new)) table'.*2).
Proof.
  induction table as [|[name l] table IH]; intros h objects Hview.
  - apply Forall2_nil_inv_l in Hview as ->.
    exists [], []. rewrite app_nil_r. repeat split; constructor.
  - apply Forall2_cons_inv_l in Hview as (object & objects' & Hl & Hrest & ->).
    unfold viewEntry in Hl. cbn in Hl.
    destruct (viewInstance h l) as [o|] eqn:Ho; [|discriminate].
    cbn in Hl. injection Hl as <-.
    destruct (copyInstance_spec h l o Ho) as (l' & new1 & Hcopy & Hview1 & Hlocs1).
    destruct (IH (h ++ new1) objects') as (table' & new2 & Hcopies & Hviews & Hlocs2).
    { eapply Forall2_impl; [exact Hrest|]. intros x y. apply viewEntry_extend. }
    exists ((name, l') :: table'), (new1 ++ new2). rewrite app_assoc. split; [|split].
    + cbn. rewrite Hcopy. cbn. rewrite Hcopies. reflexivity.
    + constructor; [|exact Hviews].
      unfold viewEntry. cbn. rewrite (viewInstance_extend _ new2 _ _ Hview1). reflexivity.
    + cbn. apply Forall_app. split.
      * rewrite (instanceLocs_extend _ _ _ _ Hview1).
        eapply Forall_impl; [exact Hlocs1|]. intros x. cbn. rewrite !length_app. lia.
      * eapply Forall_impl; [exact Hlocs2|]. intros x. cbn. rewrite !length_app. lia.
Qed.

(** A snapshot, taken apart. *)
Lemma snapshot_Some h e objects stack rest :
  snapshot h e = Some (objects, stack, rest) <->
  exists instances frameStack table frames,
    h !! e = Some (CEvaluation instances frameStack rest)
    /\ h !! instances = Some (CInstances table)
    /\ h !! frameStack = Some (CFrameStack frames)
    /\ Forall2 (fun entry object => viewEntry h entry = Some object) table objects
    /\ Forall2 (fun l frame => viewFrame h l = Some frame) frames stack.
Proof.
  unfold snapshot. split.
  - intros H.
    destruct (h !! e) as [[| | | | | |instances frameStack others]|] eqn:He; try discriminate.
    destruct (h !! instances) as [[| | | | |table|]|] eqn:Hi; try discriminate.
    destruct (h !! frameStack) as [[| | | |frames| |]|] eqn:Hf; try discriminate.
    destruct (mapM (viewEntry h) table) as [objects'|] eqn:Ho; [|discriminate].
    destruct (mapM (viewFrame h) frames) as [stack'|] eqn:Hs; [|discriminate].
    cbn in H. injection H as <- <- <-.
    exists instances, frameStack, table, frames.
    repeat split; try assumption; by apply mapM_Some.
  - intros (instances & frameStack & table & frames & -> & -> & -> & Ho & Hs).
    apply mapM_Some in Ho, Hs. rewrite Ho, Hs. reflexivity.
Qed.

(** Two stores that agree on the cells of a frame, an instance or an
    evaluation show the same of it. *)
Lemma viewFrame_agree h h' l frame :
  viewFrame h l = Some frame ->
  Forall (fun x => h' !! x = h !! x) (frameLocs h l) ->
  viewFrame h' l = Some frame /\ frameLocs h' l = frameLocs h l.
Proof.
  unfold viewFrame, frameLocs. intros H Hagree.
  destruct (h !! l) as [[| | |locals operands resume ex| | |]|] eqn:Hl; try discriminate.
  apply Forall_cons in Hagree as [H0 Hagree].
  apply Forall_cons in Hagree as [H1 Hagree].
  apply Forall_cons in Hagree as [H2 Hagree].
  apply Forall_cons in Hagree as [H3 _].
  rewrite H0, Hl, H1, H2, H3. split; [exact H|reflexivity].
Qed.

Lemma viewInstance_agree h h' l object :
  viewInstance h l = Some object ->
  Forall (fun x => h' !! x = h !! x) (instanceLocs h l) ->
  viewInstance h' l = Some object /\ instanceLocs h' l = instanceLocs h l.
Proof.
  unfold viewInstance, instanceLocs. intros H Hagree.
  destruct (h !! l) as [[| |id module fields inner| | | |]|] eqn:Hl; try discriminate.
  apply Forall_cons in Hagree as [H0 Hagree].
  apply Forall_cons in Hagree as [H1 _].
  rewrite H0, Hl, H1. split; [exact H|reflexivity].
Qed.

Lemma frames_agree h h' (frames : list nat) (stack : list Frame) :
  Forall2 (fun l frame => viewFrame h l = Some frame) frames stack ->
  Forall (fun x => h' !! x = h !! x) (flat_map (frameLocs h) frames) ->
  Forall2 (fun l frame => viewFrame h' l = Some frame) frames stack
  /\ flat_map (frameLocs h') frames = flat_map (frameLocs h) frames.
Proof.
  induction 1 as [|l frame frames stack Hl _ IH]; intros Hagree; [by split|].
  cbn in Hagree. apply Forall_app in Hagree as [Hhere Hrest].
  destruct (viewFrame_agree h h' l frame Hl Hhere) as [Hview Hlocs].
  destruct (IH Hrest) as [Hviews Hlocss].
  split; [by constructor|]. cbn. by rewrite Hlocs, Hlocss.
Qed.

Lemma table_agree h h' (table : list (string * nat)) (objects : list (string * RuntimeObject)) :
  Forall2 (fun entry object => viewEntry h entry = Some object) table objects ->
  Forall (fun x => h' !! x = h !! x) (flat_map (instanceLocs h) table.*2) ->
  Forall2 (fun entry object => viewEntry h' entry = Some object) table objects
  /\ flat_map (instanceLocs h') table.*2 = flat_map (instanceLocs h) table.*2.
Proof.
  induction 1 as [|[name l] object table objects Hl _ IH]; intros Hagree; [by split|].
  cbn in Hagree. apply Forall_app in Hagree as [Hhere Hrest].
  unfold viewEntry in Hl. cbn in Hl.
  destruct (viewInstance h l) as [o|] eqn:Ho; [|discriminate].
  destruct (viewInstance_agree h h' l o Ho Hhere) as [Hview Hlocs].
  destruct (IH Hrest) as [Hviews Hlocss].
  split.
  - constructor; [|exact Hviews]. unfold viewEntry. cbn. rewrite Hview. exact Hl.
  - cbn. by rewrite Hlocs, Hlocss.
Qed.

Lemma snapshot_agree h h' e view :
  snapshot h e = Some view ->
  Forall (fun x => h' !! x = h !! x) (ownedLocs h e) ->
  snapshot h' e = Some view /\ ownedLocs h' e = ownedLocs h e.
Proof.
  destruct view as [[objects stack] rest]. intros Hsnap Hagree.
  apply snapshot_Some in Hsnap
    as (instances & frameStack & table & frames & He & Hi & Hf & Ho & Hs).
  unfold ownedLocs in *. rewrite He, Hi, Hf in Hagree.
  apply Forall_cons in Hagree as [He' Hagree].
  apply Forall_cons in Hagree as [Hi' Hagree].
  apply Forall_cons in Hagree as [Hf' Hagree].
  apply Forall_app in Hagree as [Hto Hfr].
  destruct (table_agree h h' table objects Ho Hto) as [Ho' Hlo].
  destruct (frames_agree h h' frames stack Hs Hfr) as [Hs' Hls].
  rewrite He', He. cbv beta iota. rewrite Hi', Hi, Hf', Hf. cbv beta iota.
  rewrite Hlo, Hls. split; [|reflexivity].
  apply snapshot_Some. exists instances, frameStack, table, frames.
  rewrite He', Hi', Hf'. by repeat split.
Qed.

Lemma frames_valid h (frames : list nat) (stack : list Frame) :
  Forall2 (fun l frame => viewFrame h l = Some frame) frames stack ->
  Forall (fun x => x < length h) (flat_map (frameLocs h) frames).
Proof.
  induction 1 as [|l frame frames stack Hl _ IH]; [constructor|].
  cbn. apply Forall_app. split; [by eapply frameLocs_valid|exact IH].
Qed.

Lemma table_valid h (table : list (string * nat)) (objects : list (string * RuntimeObject)) :
  Forall2 (fun entry object => viewEntry h entry = Some object) table objects ->
  Forall (fun x => x < length h) (flat_map (instanceLocs h) table.*2).
Proof.
  induction 1 as [|[name l] object table objects Hl _ IH]; [constructor|].
  cbn. apply Forall_app. split; [|exact IH].
  unfold viewEntry in Hl. cbn in Hl.
  destruct (viewInstance h l) as [o|] eqn:Ho; [|discriminate].
  by eapply instanceLocs_valid.
Qed.

Lemma ownedLocs_valid h e view :
  snapshot h e = Some view -> Forall (fun x => x < length h) (ownedLocs h e).
Proof.
  destruct view as [[objects stack] rest]. intros Hsnap.
  apply snapshot_Some in Hsnap
    as (instances & frameStack & table & frames & He & Hi & Hf & Ho & Hs).
  unfold ownedLocs. rewrite He, Hi, Hf.
  repeat (apply Forall_cons; split; [by eapply lookup_lt_Some|]).
  apply Forall_app. split; [by eapply table_valid|by eapply frames_valid].
Qed.

Lemma snapshot_extend h new e view :
  snapshot h e = Some view ->
  snapshot (h ++ new) e = Some view /\ ownedLocs (h ++ new) e = ownedLocs h e.
Proof.
  intros Hsnap. apply snapshot_agree; [exact Hsnap|].
  eapply Forall_impl; [by eapply ownedLocs_valid|].
  intros x Hx. cbn. by apply lookup_app_l.
Qed.

(** On an evaluation that is all there, [copy()] answers: a new
    evaluation, made of new cells only, that shows what the original
    shows. *)
Lemma copy_spec h e view :
  snapshot h e = Some view ->
  exists e2 new,
    copy e h = Some (e2, h ++ new)
    /\ snapshot (h ++ new) e2 = Some view
    /\ Forall (fun x => length h <= x < length (h ++ new)) (ownedLocs (h ++ new) e2).
Proof.
  destruct view as [[objects stack] rest]. intros Hsnap.
  apply snapshot_Some in Hsnap
    as (instances & frameStack & table & frames & He & Hi & Hf & Ho & Hs).
  destruct (copyTable_spec table h objects Ho) as (table' & new1 & Hct & Ho1 & Hlo1).
  set (h2 := (h ++ new1) ++ [CInstances table']).
  assert (Hs2 : Forall2 (fun l frame => viewFrame h2 l = Some frame) frames stack).
  { eapply Forall2_impl; [exact Hs|]. intros x y Hx. unfold h2.
    by apply viewFrame_extend, viewFrame_extend. }
  destruct (copyFrames_spec frames h2 stack Hs2) as (frames' & new2 & Hcf & Hs3 & Hls3).
  set (h4 := (h2 ++ new2) ++ [CFrameStack frames']).
  set (h5 := h4 ++ [CEvaluation (length (h ++ new1)) (length (h2 ++ new2)) rest]).
  exists (length h4),
    (new1 ++ [CInstances table'] ++ new2 ++ [CFrameStack frames']
     ++ [CEvaluation (length (h ++ new1)) (length (h2 ++ new2)) rest]).
  assert (Hh5 : h ++ new1 ++ [CInstances table'] ++ new2 ++ [CFrameStack frames']
                ++ [CEvaluation (length (h ++ new1)) (length (h2 ++ new2)) rest] = h5).
  { unfold h5, h4, h2. rewrite <- !app_assoc. reflexivity. }
  rewrite Hh5.
  assert (Hle : h5 !! length h4
                = Some (CEvaluation (length (h ++ new1)) (length (h2 ++ new2)) rest))
    by apply lookup_alloc.
  assert (Hli : h5 !! length (h ++ new1) = Some (CInstances table')).
  { unfold h5, h4. apply lookup_extend, lookup_extend, lookup_extend. apply lookup_alloc. }
  assert (Hlf : h5 !! length (h2 ++ new2) = Some (CFrameStack frames')).
  { unfold h5. apply lookup_extend. apply lookup_alloc. }
  assert (Ho5 : Forall2 (fun entry object => viewEntry h5 entry = Some object) table' objects).
  { eapply Forall2_impl; [exact Ho1|]. intros x y Hx. unfold h5, h4, h2.
    by do 4 apply viewEntry_extend. }
  assert (Hs5 : Forall2 (fun l frame => viewFrame h5 l = Some frame) frames' stack).
  { eapply Forall2_impl; [exact Hs3|]. intros x y Hx. unfold h5, h4.
    by do 2 apply viewFrame_extend. }
  split; [|split].
  - unfold copy, alloc. rewrite He, Hi, Hf, Hct. cbn.
    fold h2. rewrite Hcf. cbn. reflexivity.
  - apply snapshot_Some. exists (length (h ++ new1)), (length (h2 ++ new2)), table', frames'.
    by repeat split.
  - assert (Hlen5 : length h5
                    = length h + length new1 + 1 + length new2 + 1 + 1).
    { unfold h5, h4, h2. rewrite !length_app. cbn. lia. }
    assert (Hlen4 : length h4 = length h + length new1 + 1 + length new2 + 1).
    { unfold h4, h2. rewrite !length_app. cbn. lia. }
    assert (Hlen2 : length h2 = length h + length new1 + 1).
    { unfold h2. rewrite !length_app. cbn. lia. }
    unfold ownedLocs. rewrite Hle, Hli, Hlf.
    repeat (apply Forall_cons; split; [rewrite ?length_app; lia|]).
    apply Forall_app. split.
    + destruct (table_agree (h ++ new1) h5 table' objects Ho1) as [_ ->].
      * eapply Forall_impl; [by eapply table_valid|]. intros x Hx. cbn in Hx |- *.
        unfold h5, h4, h2. clear -Hx.
        repeat match goal with
               | |- (?l1 ++ ?l2) !! ?i = _ =>
                   first [reflexivity
                         |rewrite (lookup_app_l l1 l2 i) by (rewrite ?length_app in *; cbn; lia)]
               end.
      * eapply Forall_impl; [exact Hlo1|]. intros x. cbn. rewrite length_app. lia.
    + destruct (frames_agree (h2 ++ new2) h5 frames' stack Hs3) as [_ ->].
      * eapply Forall_impl; [by eapply frames_valid|]. intros x Hx. cbn in Hx |- *.
        unfold h5, h4. clear -Hx.
        repeat match goal with
               | |- (?l1 ++ ?l2) !! ?i = _ =>
                   first [reflexivity
                         |rewrite (lookup_app_l l1 l2 i) by (rewrite ?length_app in *; cbn; lia)]
               end.
      * eapply Forall_impl; [exact Hls3|]. intros x. cbn. rewrite !length_app. lia.
Qed.

(** Stores that differ only in arrays and dictionaries, present or not,
    have the same evaluations made of the same cells. *)
Lemma sameStructure_frameLocs h h' l :
  sameStructure h h' -> frameLocs h' l = frameLocs h l.
Proof.
  intros Hsame. unfold frameLocs.
  destruct (Hsame l) as [->|[H1 H2]]; [reflexivity|].
  destruct (h !! l) as [[]|], (h' !! l) as [[]|]; cbn in *; congruence.
Qed.

Lemma sameStructure_instanceLocs h h' l :
  sameStructure h h' -> instanceLocs h' l = instanceLocs h l.
Proof.
  intros Hsame. unfold instanceLocs.
  destruct (Hsame l) as [->|[H1 H2]]; [reflexivity|].
  destruct (h !! l) as [[]|], (h' !! l) as [[]|]; cbn in *; congruence.
Qed.

Lemma sameStructure_ownedLocs h h' e :
  sameStructure h h' -> ownedLocs h' e = ownedLocs h e.
Proof.
  intros Hsame. unfold ownedLocs.
  destruct (Hsame e) as [->|[H1 H2]].
  - destruct (h !! e) as [[| | | | | |instances frameStack others]|]; try reflexivity.
    do 3 f_equal. f_equal.
    + destruct (Hsame instances) as [->|[H1 H2]].
      * destruct (h !! instances) as [[| | | | |table|]|]; try reflexivity.
        apply flat_map_ext. intros x. by apply sameStructure_instanceLocs.
      * destruct (h !! instances) as [[]|], (h' !! instances) as [[]|];
          cbn in *; congruence.
    + destruct (Hsame frameStack) as [->|[H1 H2]].
      * destruct (h !! frameStack) as [[| | | |frames| |]|]; try reflexivity.
        apply flat_map_ext. intros x. by apply sameStructure_frameLocs.
      * destruct (h !! frameStack) as [[]|], (h' !! frameStack) as [[]|];
          cbn in *; congruence.
  - destruct (h !! e) as [[]|], (h' !! e) as [[]|]; cbn in *; congruence.
Qed.

Lemma sameStructure_write h x c0 c :
  h !! x = Some c0 -> leaf c0 = true -> leaf c = true ->
  sameStructure h (<[x := c]> h).
Proof.
  intros Hx H0 Hc l. destruct (decide (l = x)) as [->|Hne].
  - right. rewrite Hx, list_lookup_insert_eq by (by eapply lookup_lt_Some).
    cbn. by split.
  - left. by apply list_lookup_insert_ne.
Qed.

Lemma sameStructure_alloc h c : leaf c = true -> sameStructure h (h ++ [c]).
Proof.
  intros Hc l. destruct (decide (l < length h)) as [Hlt|Hge].
  - left. by apply lookup_app_l.
  - right. rewrite (lookup_ge_None_2 h l) by lia. split; [reflexivity|].
    destruct (decide (l = length h)) as [->|Hne].
    + rewrite lookup_alloc. exact Hc.
    + rewrite lookup_ge_None_2; [reflexivity|]. rewrite length_app. cbn. lia.
Qed.

(** Giving a frame another [resume] array adds that array to the cells
    of the evaluation, and no other. *)
Lemma ownedLocs_setResume h l locals operands resume resume' ex e :
  h !! l = Some (CFrame locals operands resume ex) ->
  forall y,
    y ∈ ownedLocs (<[l := CFrame locals operands resume' ex]> h) e ->
    y ∈ ownedLocs h e \/ y = resume'.
Proof.
  intros Hl. set (h' := <[l := CFrame locals operands resume' ex]> h).
  assert (Hl' : h' !! l = Some (CFrame locals operands resume' ex))
    by (apply list_lookup_insert_eq; by eapply lookup_lt_Some).
  assert (Hne : forall x, x <> l -> h' !! x = h !! x)
    by (intros x Hx; by apply list_lookup_insert_ne).
  assert (Hinst : forall x, instanceLocs h' x = instanceLocs h x).
  { intros x. unfold instanceLocs. destruct (decide (x = l)) as [->|Hx].
    - by rewrite Hl', Hl.
    - by rewrite Hne. }
  assert (Hframe : forall x y, y ∈ frameLocs h' x -> y ∈ frameLocs h x \/ y = resume').
  { intros x y. unfold frameLocs. destruct (decide (x = l)) as [->|Hx].
    - rewrite Hl', Hl. rewrite !elem_of_cons, !elem_of_nil. tauto.
    - rewrite Hne by exact Hx. by left. }
  assert (Hframes : forall frames y,
            y ∈ flat_map (frameLocs h') frames ->
            y ∈ flat_map (frameLocs h) frames \/ y = resume').
  { intros frames y Hy. apply list_elem_of_In, in_flat_map in Hy as (x & Hx & Hy).
    apply list_elem_of_In in Hy. destruct (Hframe x y Hy) as [Hin| ->]; [left|by right].
    apply list_elem_of_In, in_flat_map. exists x. split; [exact Hx|by apply list_elem_of_In]. }
  intros y. unfold ownedLocs.
  destruct (decide (e = l)) as [->|He].
  { rewrite Hl', Hl. by left. }
  rewrite (Hne e He).
  destruct (h !! e) as [[| | | | | |instances frameStack others]|]; try (by left).
  rewrite !elem_of_cons, !elem_of_app.
  intros [-> | [-> | [-> | [Hy | Hy]]]]; try (left; tauto).
  - left. do 3 right. left.
    destruct (decide (instances = l)) as [->|Hi].
    + rewrite Hl' in Hy. by apply elem_of_nil in Hy.
    + rewrite (Hne instances Hi) in Hy.
      destruct (h !! instances) as [[| | | | |table|]|]; try exact Hy.
      erewrite flat_map_ext in Hy; [exact Hy|]. intros x. apply Hinst.
  - destruct (decide (frameStack = l)) as [->|Hf].
    + rewrite Hl' in Hy. by apply elem_of_nil in Hy.
    + rewrite (Hne frameStack Hf) in Hy.
      destruct (h !! frameStack) as [[| | | |frames| |]|];
        try (by apply elem_of_nil in Hy).
      destruct (Hframes frames y Hy) as [Hin| ->]; [|by right].
      left. do 4 right. exact Hin.
Qed.

Lemma frameAt_owned h e i l :
  frameAt h e i = Some l -> forall x, x ∈ frameLocs h l -> x ∈ ownedLocs h e.
Proof.
  unfold frameAt, ownedLocs. intros H x Hx.
  destruct (h !! e) as [[| | | | | |instances frameStack others]|]; try discriminate.
  destruct (h !! frameStack) as [[| | | |frames| |]|]; try discriminate.
  do 3 right. apply elem_of_app. right.
  apply list_elem_of_In, in_flat_map. exists l.
  split; [by eapply list_elem_of_In, list_elem_of_lookup_2|by apply list_elem_of_In].
Qed.

Lemma assoc_elem (id : string) (table : list (string * nat)) l :
  assoc id table = Some l -> l ∈ table.*2.
Proof.
  induction table as [|[k x] table IH]; cbn; [discriminate|].
  destruct (String.eqb k id); [intros [= ->]; left|intros H; right; by apply IH].
Qed.

Lemma instanceAt_owned h e id l :
  instanceAt h e id = Some l -> forall x, x ∈ instanceLocs h l -> x ∈ ownedLocs h e.
Proof.
  unfold instanceAt, ownedLocs. intros H x Hx.
  destruct (h !! e) as [[| | | | | |instances frameStack others]|]; try discriminate.
  destruct (h !! instances) as [[| | | | |table|]|]; try discriminate.
  do 3 right. apply elem_of_app. left.
  apply list_elem_of_In, in_flat_map. exists l.
  split; [by eapply list_elem_of_In, assoc_elem|by apply list_elem_of_In].
Qed.

(** Writing an array or a dictionary of an evaluation stays within a
    region that holds its cells. *)
Lemma leaf_write_region (R : nat -> Prop) h e x c0 c :
  h !! x = Some c0 -> leaf c0 = true -> leaf c = true ->
  x ∈ ownedLocs h e ->
  Forall R (ownedLocs h e) ->
  Forall R (ownedLocs (<[x := c]> h) e)
  /\ (forall y, ~ R y -> <[x := c]> h !! y = h !! y)
  /\ length h <= length (<[x := c]> h).
Proof.
  intros Hx H0 Hc Hin HR. split; [|split].
  - by rewrite (sameStructure_ownedLocs h _ e (sameStructure_write h x c0 c Hx H0 Hc)).
  - intros y Hy. apply list_lookup_insert_ne. intros ->.
    apply Hy. rewrite Forall_forall in HR. by apply HR.
  - by rewrite length_insert.
Qed.

(** A mutation through an evaluation stays within any region that holds
    the cells of the evaluation and the cells still to be allocated. *)
Lemma mutate_region (R : nat -> Prop) (m : Mutation) h h' e :
  mutate m e h = Some h' ->
  Forall R (ownedLocs h e) ->
  (forall y, length h <= y -> R y) ->
  Forall R (ownedLocs h' e)
  /\ (forall y, ~ R y -> h' !! y = h !! y)
  /\ length h <= length h'.
Proof.
  intros Hm HR Hfresh.
  destruct m as [i id|i|i name id|i resume|i interruption|instance name id]; cbn in Hm.
  - destruct (frameAt h e i) as [l|] eqn:Hat; [|discriminate]. cbn in Hm.
    destruct (h !! l) as [[| | |locals operands res ex| | |]|] eqn:Hl; try discriminate.
    destruct (h !! operands) as [[items| | | | | |]|] eqn:Ho; try discriminate.
    injection Hm as <-. eapply leaf_write_region; eauto.
    apply (frameAt_owned h e i l Hat). unfold frameLocs. rewrite Hl. repeat constructor.
  - destruct (frameAt h e i) as [l|] eqn:Hat; [|discriminate]. cbn in Hm.
    destruct (h !! l) as [[| | |locals operands res ex| | |]|] eqn:Hl; try discriminate.
    destruct (h !! operands) as [[items| | | | | |]|] eqn:Ho; try discriminate.
    injection Hm as <-. eapply leaf_write_region; eauto.
    apply (frameAt_owned h e i l Hat). unfold frameLocs. rewrite Hl. repeat constructor.
  - destruct (frameAt h e i) as [l|] eqn:Hat; [|discriminate]. cbn in Hm.
    destruct (h !! l) as [[| | |locals operands res ex| | |]|] eqn:Hl; try discriminate.
    destruct (h !! locals) as [[|entries| | | | |]|] eqn:Ho; try discriminate.
    injection Hm as <-. eapply leaf_write_region; eauto.
    apply (frameAt_owned h e i l Hat). unfold frameLocs. rewrite Hl. repeat constructor.
  - destruct (frameAt h e i) as [l|] eqn:Hat; [|discriminate]. cbn in Hm.
    destruct (h !! l) as [[| | |locals operands res ex| | |]|] eqn:Hl; try discriminate.
    injection Hm as <-.
    assert (Hl1 : (h ++ [CArray resume]) !! l = Some (CFrame locals operands res ex))
      by (by apply lookup_extend).
    assert (Hown : l ∈ ownedLocs h e).
    { apply (frameAt_owned h e i l Hat). unfold frameLocs. rewrite Hl. repeat constructor. }
    rewrite Forall_forall in HR.
    split; [|split].
    + apply Forall_forall. intros y Hy.
      apply (ownedLocs_setResume _ _ _ _ _ _ _ _ Hl1) in Hy as [Hy| ->].
      * rewrite (sameStructure_ownedLocs h _ e (sameStructure_alloc h (CArray resume) eq_refl)) in Hy.
        by apply HR.
      * by apply Hfresh.
    + intros y Hy. rewrite list_lookup_insert_ne.
      * apply lookup_app_l. destruct (decide (y < length h)); [done|].
        exfalso. apply Hy, Hfresh. lia.
      * intros ->. by apply Hy, HR.
    + rewrite length_insert, length_app. lia.
  - destruct (frameAt h e i) as [l|] eqn:Hat; [|discriminate]. cbn in Hm.
    destruct (h !! l) as [[| | |locals operands res ex| | |]|] eqn:Hl; try discriminate.
    destruct (h !! res) as [[items| | | | | |]|] eqn:Ho; try discriminate.
    injection Hm as <-. eapply leaf_write_region; eauto.
    apply (frameAt_owned h e i l Hat). unfold frameLocs. rewrite Hl. repeat constructor.
  - destruct (instanceAt h e instance) as [l|] eqn:Hat; [|discriminate]. cbn in Hm.
    destruct (h !! l) as [[| |id' module fields inner| | | |]|] eqn:Hl; try discriminate.
    destruct (h !! fields) as [[|entries| | | | |]|] eqn:Ho; try discriminate.
    injection Hm as <-. eapply leaf_write_region; eauto.
    apply (instanceAt_owned h e instance l Hat). unfold instanceLocs. rewrite Hl. repeat constructor.
Qed.

(** Mutations through one evaluation leave another one alone when a
    region separates the two. *)
Lemma mutateAll_isolated (R : nat -> Prop) (ms : list Mutation) :
  forall h h' e other view,
    mutateAll ms e h = Some h' ->
    Forall R (ownedLocs h e) ->
    (forall y, length h <= y -> R y) ->
    snapshot h other = Some view ->
    Forall (fun y => ~ R y) (ownedLocs h other) ->
    snapshot h' other = Some view.
Proof.
  induction ms as [|m ms IH]; intros h h' e other view Hrun HR Hfresh Hview Hother.
  - by injection Hrun as <-.
  - cbn in Hrun. destruct (mutate m e h) as [h1|] eqn:Hm; [|discriminate]. cbn in Hrun.
    destruct (mutate_region R m h h1 e Hm HR Hfresh) as (HR1 & Hsame & Hlen).
    destruct (snapshot_agree h h1 other view Hview) as [Hview1 Hlocs1].
    { eapply Forall_impl; [exact Hother|]. intros y Hy. by apply Hsame. }
    apply (IH h1 h' e other view Hrun HR1); [|exact Hview1|by rewrite Hlocs1].
    intros y Hy. apply Hfresh. lia.
Qed.

(** C9: [copy()] of an evaluation that is all there answers an
    evaluation [e2] that shows the same instances and frames, and from
    then on whatever is done through [e2] to the operand stack, the locals
    or the resume set of a frame, or to the fields of an instance, leaves
    what [e] shows as it was; and the same with [e] and [e2] exchanged.
    What an evaluation shows is its instances, its frames and its
    remaining attributes, the latter handed over to [e2] as they are. *)
Theorem C9_copy_isolation h e view :
  snapshot h e = Some view ->
  exists e2 h1,
    copy e h = Some (e2, h1)
    /\ snapshot h1 e2 = Some view
    /\ snapshot h1 e = Some view
    /\ (forall ms h2, mutateAll ms e2 h1 = Some h2 -> snapshot h2 e = Some view)
    /\ (forall ms h2, mutateAll ms e h1 = Some h2 -> snapshot h2 e2 = Some view).
Proof.
  intros Hview.
  destruct (copy_spec h e view Hview) as (e2 & new & Hcopy & Hview2 & Hlocs2).
  destruct (snapshot_extend h new e view Hview) as [Hview1 Hlocs1].
  pose proof (ownedLocs_valid h e view Hview) as Hvalid.
  exists e2, (h ++ new). repeat split; try assumption.
  - intros ms h2 Hrun.
    apply (mutateAll_isolated (fun y => length h <= y) ms (h ++ new) h2 e2 e view Hrun).
    + eapply Forall_impl; [exact Hlocs2|]. cbn. lia.
    + intros y. rewrite length_app. lia.
    + exact Hview1.
    + rewrite Hlocs1. eapply Forall_impl; [exact Hvalid|]. cbn. lia.
  - intros ms h2 Hrun.
    apply (mutateAll_isolated (fun y => y < length h \/ length (h ++ new) <= y)
             ms (h ++ new) h2 e e2 view Hrun).
    + rewrite Hlocs1. eapply Forall_impl; [exact Hvalid|]. cbn. tauto.
    + intros y. tauto.
    + exact Hview2.
    + eapply Forall_impl; [exact Hlocs2|]. cbn. lia.
Qed.

End CopyIsolation.

(** ** The environment index *)

Section Index.

Import Linked.

Variable numberToString : Q -> string.

Lemma flat_map_app_perm {A B : Type} (f g : A -> list B) (l : list A) :
  flat_map (fun x => f x ++ g x) l ≡ₚ flat_map f l ++ flat_map g l.
Proof.
  induction l as [|x l IH]; simpl; [reflexivity|].
  rewrite IH, <- !app_assoc. apply Permutation_app_head.
  rewrite !app_assoc. apply Permutation_app_tail, Permutation_app_comm.
Qed.

Lemma flat_map_perm_Forall {A B : Type} (f g : A -> list B) (l : list A) :
  Forall (fun x => f x ≡ₚ g x) l -> flat_map f l ≡ₚ flat_map g l.
Proof.
  induction 1 as [|x l Hx _ IH]; simpl; [reflexivity|]. by rewrite Hx, IH.
Qed.

(** Every node inside a value is extracted from it or is the child of a
    node inside it. *)
Lemma nodesIn_children (v : JsValue) :
  nodesIn v ≡ₚ extractChildren v ++ flat_map children (nodesIn v).
Proof.
  induction v as [| | | | | |items IH|props IH] using JsValue_nested_ind;
    try reflexivity.
  - cbn [nodesIn extractChildren]. rewrite flat_map_nested.
    rewrite <- flat_map_app_perm. apply flat_map_perm_Forall, IH.
  - assert (Hprops :
      flat_map (fun '(_, x) => nodesIn x) props
      ≡ₚ flat_map (fun '(_, x) => extractChildren x) props
         ++ flat_map children (flat_map (fun '(_, x) => nodesIn x) props)).
    { rewrite flat_map_nested, <- flat_map_app_perm. apply flat_map_perm_Forall.
      eapply Forall_impl; [exact IH|]. intros [k x] Hx. exact Hx. }
    cbn [nodesIn extractChildren].
    destruct (truthy (lookupProp "kind" props)) eqn:Hk.
    + cbn [app flat_map]. constructor. cbn [children]. rewrite <- Hprops. reflexivity.
    + exact Hprops.
Qed.

Lemma nodesIn_root (node : JsValue) : isNode node = true -> node ∈ nodesIn node.
Proof. intros H. rewrite (nodesIn_node node H). left. Qed.

Lemma nodesIn_child (v parent child : JsValue) :
  parent ∈ nodesIn v -> child ∈ children parent -> child ∈ nodesIn v.
Proof.
  intros Hp Hc. rewrite (nodesIn_children v). apply elem_of_app. right.
  apply list_elem_of_In, in_flat_map. exists parent. split; by apply list_elem_of_In.
Qed.

Lemma NoDup_flat_map_inj {A B : Type} (f : A -> list B) (l : list A) (x y : A) (z : B) :
  NoDup (flat_map f l) -> x ∈ l -> y ∈ l -> z ∈ f x -> z ∈ f y -> x = y.
Proof.
  induction l as [|a l IH]; intros Hnd Hx Hy Hzx Hzy; [by apply elem_of_nil in Hx|].
  cbn in Hnd. apply NoDup_app in Hnd as (_ & Hdisj & Hrest).
  assert (Hin : forall w, w ∈ l -> z ∈ f w -> z ∈ flat_map f l).
  { intros w Hw Hz. apply list_elem_of_In, in_flat_map. exists w.
    split; by apply list_elem_of_In. }
  apply elem_of_cons in Hx as [->|Hx]; apply elem_of_cons in Hy as [->|Hy].
  - reflexivity.
  - exfalso. apply (Hdisj z Hzx). by apply (Hin y).
  - exfalso. apply (Hdisj z Hzy). by apply (Hin x).
  - by apply IH.
Qed.

Lemma NoDup_fmap_inj {A B : Type} (f : A -> B) (l : list A) (x y : A) :
  NoDup (map f l) -> x ∈ l -> y ∈ l -> f x = f y -> x = y.
Proof.
  induction l as [|a l IH]; intros Hnd Hx Hy Hf; [by apply elem_of_nil in Hx|].
  cbn in Hnd. apply NoDup_cons in Hnd as [Hnot Hnd].
  assert (Hin : forall w, w ∈ l -> f w ∈ map f l).
  { intros w Hw. apply list_elem_of_In, in_map, list_elem_of_In, Hw. }
  apply elem_of_cons in Hx as [->|Hx]; apply elem_of_cons in Hy as [->|Hy].
  - reflexivity.
  - exfalso. apply Hnot. rewrite Hf. by apply Hin.
  - exfalso. apply Hnot. rewrite <- Hf. by apply Hin.
  - by apply IH.
Qed.

Lemma find_app_Some {A : Type} (p : A -> bool) (l1 l2 : list A) :
  find p (l1 ++ l2) = match find p l1 with Some x => Some x | None => find p l2 end.
Proof.
  induction l1 as [|x l1 IH]; cbn; [reflexivity|]. destruct (p x); [reflexivity|exact IH].
Qed.

(** [search] answers the first node, depth first, that has the id. *)
Lemma search_find (id v : JsValue) :
  search id v = find (fun node => strictEq (get "id" node) id) (nodesIn v).
Proof.
  induction v as [| | | | | |items IH|props IH] using JsValue_nested_ind;
    try reflexivity.
  - cbn [search nodesIn]. induction IH as [|x items Hx _ IHitems]; [reflexivity|].
    cbn [flat_map]. rewrite find_app_Some, <- Hx, <- IHitems. reflexivity.
  - cbn [search nodesIn].
    assert (Hvalues :
      (fix searchValues (l : list (string * JsValue)) : option JsValue :=
         match l with
         | [] => None
         | (_, value) :: rest =>
             match search id value with
             | Some found => Some found
             | None => searchValues rest
             end
         end) props
      = find (fun node => strictEq (get "id" node) id)
             (flat_map (fun '(_, x) => nodesIn x) props)).
    { induction IH as [|[k x] props' Hx _ IHprops]; [reflexivity|].
      cbn [flat_map]. cbn in Hx. rewrite find_app_Some, <- Hx, <- IHprops. reflexivity. }
    destruct (truthy (lookupProp "kind" props)) eqn:Hk; cbn [andb app find get].
    + destruct (strictEq (lookupProp "id" props) id); [reflexivity|exact Hvalues].
    + exact Hvalues.
Qed.

Lemma strictEq_string (a : JsValue) (s : string) :
  strictEq a (JStr s) = true <-> a = JStr s.
Proof.
  destruct a; cbn; try (split; [discriminate|intros [=]]).
  rewrite String.eqb_eq. split; [by intros ->|by intros [= ->]].
Qed.

Lemma find_unique {A : Type} (p : A -> bool) (l : list A) (x : A) :
  x ∈ l -> p x = true -> (forall y, y ∈ l -> p y = true -> y = x) -> find p l = Some x.
Proof.
  intros Hx Hp Huniq.
  destruct (find p l) as [y|] eqn:Hfind.
  - apply find_some in Hfind as [Hy Hpy]. f_equal. apply Huniq; [by apply list_elem_of_In|done].
  - exfalso. pose proof (find_none _ _ Hfind x) as Hnone.
    rewrite Hnone in Hp; [done|by apply list_elem_of_In].
Qed.

Section Environment.

Variable environment : JsValue.
Hypothesis environment_node : isNode environment = true.
Hypothesis environment_ids : uniqueIds environment.

Lemma same_id (a b : JsValue) :
  a ∈ nodesIn environment -> b ∈ nodesIn environment ->
  strictEq (get "id" a) (get "id" b) = true -> a = b.
Proof.
  intros Ha Hb Heq. destruct environment_ids as [Hnodup Hstr].
  rewrite Forall_forall in Hstr. destruct (Hstr b Hb) as [id Hid].
  rewrite Hid in Heq. apply strictEq_string in Heq.
  apply (NoDup_fmap_inj (get "id") (nodesIn environment)); try assumption. congruence.
Qed.

Lemma id_reflexive (a : JsValue) :
  a ∈ nodesIn environment -> strictEq (get "id" a) (get "id" a) = true.
Proof.
  intros Ha. destruct environment_ids as [_ Hstr].
  rewrite Forall_forall in Hstr. destruct (Hstr a Ha) as [id Hid].
  rewrite Hid. by apply strictEq_string.
Qed.

(** [getNodeById] answers the node of the environment that has the id. *)
Lemma getNodeById_node (node : JsValue) :
  node ∈ nodesIn environment ->
  getNodeById numberToString environment (get "id" node) = Returned node.
Proof.
  intros Hnode. unfold getNodeById. rewrite search_find.
  rewrite (find_unique _ _ node); [reflexivity|exact Hnode|by apply id_reflexive|].
  intros other Hother Heq. by apply same_id.
Qed.

Lemma nodesIn_NoDup : NoDup (nodesIn environment).
Proof.
  destruct environment_ids as [Hnodup _].
  by apply (NoDup_fmap_1 (get "id")).
Qed.

Lemma children_NoDup : NoDup (flat_map children (nodesIn environment)).
Proof.
  pose proof nodesIn_NoDup as Hnodup.
  rewrite (nodesIn_children environment) in Hnodup.
  by apply NoDup_app in Hnodup as (_ & _ & Hnodup).
Qed.

(** [parent()] answers the node that has the node among its children. *)
Lemma parent_node (holder child : JsValue) :
  holder ∈ nodesIn environment ->
  child ∈ children holder ->
  parent numberToString environment child = Returned holder.
Proof.
  intros Hholder Hchild. unfold parent.
  destruct (descendants_spec None environment environment_node) as (below & -> & Hbelow).
  cbn [ofKind] in Hbelow.
  assert (Hall : forall x, x ∈ environment :: below <-> x ∈ nodesIn environment).
  { intros x. rewrite (nodesIn_node environment environment_node), Hbelow. reflexivity. }
  assert (Hchild_in : child ∈ nodesIn environment) by by eapply nodesIn_child.
  rewrite (find_unique _ _ holder).
  - by apply getNodeById_node.
  - by apply Hall.
  - apply existsb_exists. exists child.
    split; [by apply list_elem_of_In|by apply id_reflexive].
  - intros other Hother Hhas. apply Hall in Hother.
    apply existsb_exists in Hhas as (c & Hc & Hid). apply list_elem_of_In in Hc.
    assert (c = child) as -> by (apply same_id; [by eapply nodesIn_child|done..]).
    by apply (NoDup_flat_map_inj children (nodesIn environment) other holder child
                children_NoDup).
Qed.

End Environment.

End Index.

(** ** Splitting and joining names *)

Section Names.

Import Linked.

Local Arguments String.append : simpl nomatch.

Implicit Types (a b str : string) (sep c : ascii) (names : list string).

Lemma hasChar_String c c' a : hasChar c (String c' a) = Ascii.eqb c' c || hasChar c a.
Proof. reflexivity. Qed.

Lemma hasChar_app c a b : hasChar c (a +:+ b) = hasChar c a || hasChar c b.
Proof.
  induction a as [|c' a IH]; [reflexivity|].
  simpl. rewrite IH. apply orb_assoc.
Qed.

Lemma splitOn_cons sep str : exists head tail, splitOn sep str = head :: tail.
Proof.
  destruct str as [|c rest]; simpl; [by eexists _, _|].
  destruct (Ascii.eqb c sep); [by eexists _, _|].
  destruct (splitOn sep rest); by eexists _, _.
Qed.

Lemma splitOn_app sep a b :
  hasChar sep a = false ->
  splitOn sep (a +:+ String sep b) = a :: splitOn sep b.
Proof.
  induction a as [|c a IH]; simpl.
  - intros _. by rewrite Ascii.eqb_refl.
  - intros H. apply orb_false_iff in H as [Hc Ha].
    rewrite Hc, (IH Ha). reflexivity.
Qed.

Lemma splitOn_plain sep a : hasChar sep a = false -> splitOn sep a = [a].
Proof.
  induction a as [|c a IH]; simpl; [reflexivity|].
  intros H. apply orb_false_iff in H as [Hc Ha].
  rewrite Hc, (IH Ha). reflexivity.
Qed.

Lemma concat_cons2 (s x y : string) (l : list string) :
  String.concat s (x :: y :: l) = x +:+ s +:+ String.concat s (y :: l).
Proof. reflexivity. Qed.

Lemma concat_splitOn sep str : String.concat (String sep EmptyString) (splitOn sep str) = str.
Proof.
  induction str as [|c rest IH]; [reflexivity|]. simpl splitOn.
  destruct (splitOn_cons sep rest) as (head & tail & Hsplit).
  rewrite Hsplit in IH |- *.
  destruct (Ascii.eqb_spec c sep) as [->|Hne].
  - rewrite concat_cons2, IH. reflexivity.
  - destruct tail as [|t ts].
    + simpl in IH |- *. by rewrite IH.
    + rewrite concat_cons2 in IH |- *. rewrite <- IH. reflexivity.
Qed.

Lemma divideOn_app sep a b :
  hasChar sep a = false -> divideOn sep (a +:+ String sep b) = (a, b).
Proof.
  intros Ha. unfold divideOn. rewrite (splitOn_app sep a b Ha).
  by rewrite concat_splitOn.
Qed.

Lemma divideOn_plain sep a : hasChar sep a = false -> divideOn sep a = (a, EmptyString).
Proof. intros Ha. unfold divideOn. by rewrite (splitOn_plain sep a Ha). Qed.


Lemma dotted_cons name names :
  names <> [] -> dotted (name :: names) = name +:+ String "." (dotted names).
Proof. destruct names; [done|reflexivity]. Qed.



Lemma dotted_hasChar c names :
  c <> "."%char ->
  Forall (fun name => hasChar c name = false) names -> hasChar c (dotted names) = false.
Proof.
  intros Hc. induction 1 as [|n names Hn Hnames IH]; [reflexivity|].
  destruct names as [|n' names]; [exact Hn|].
  rewrite dotted_cons by done. rewrite hasChar_app, Hn, hasChar_String.
  rewrite IH, orb_false_r. apply Ascii.eqb_neq. congruence.
Qed.

Lemma splitOn_dotted names :
  names <> [] ->
  Forall (fun name => hasChar "." name = false) names ->
  splitOn "." (dotted names) = names.
Proof.
  intros Hne. induction 1 as [|n names Hn Hnames IH]; [done|].
  destruct names as [|n' names]; [by apply splitOn_plain|].
  rewrite dotted_cons by done. rewrite (splitOn_app "." n _ Hn), IH by done. reflexivity.
Qed.

Lemma dotted_nonempty names :
  names <> [] ->
  Forall (fun name => name <> EmptyString) names -> dotted names <> EmptyString.
Proof.
  intros Hne. destruct 1 as [|n names Hn Hnames]; [done|].
  destruct names as [|n' names]; [exact Hn|].
  rewrite dotted_cons by done. destruct n; [done|]. discriminate.
Qed.

End Names.

(** ** Fully qualified names *)

Section QualifiedNames.

Import Linked.

Variable numberToString : Q -> string.
Variable environment : JsValue.
Hypothesis environment_node : isNode environment = true.
Hypothesis environment_ids : uniqueIds environment.
Hypothesis environment_kind : is_ "Package" environment = false.


Lemma packaged_names (entity : JsValue) (names : list string) :
  packaged environment entity names -> names <> [] /\ Forall plainName names.
Proof.
  induction 1 as [entity name _ _ _ Hplain|package names entity name _ [_ IH] _ _ _ _ Hplain].
  - split; [done|by apply Forall_singleton].
  - split; [by destruct names|]. apply Forall_app. split; [exact IH|by apply Forall_singleton].
Qed.

Lemma plain_no_dot (names : list string) :
  Forall plainName names -> Forall (fun name => hasChar "." name = false) names.
Proof. intros H. eapply Forall_impl; [exact H|]. by intros name (_ & Hd & _). Qed.

Lemma plain_no_hash (names : list string) :
  Forall plainName names -> Forall (fun name => hasChar "#" name = false) names.
Proof. intros H. eapply Forall_impl; [exact H|]. by intros name (_ & _ & Hh). Qed.

Lemma plain_nonempty (names : list string) :
  Forall plainName names -> Forall (fun name => name <> EmptyString) names.
Proof. intros H. eapply Forall_impl; [exact H|]. by intros name (Hn & _ & _). Qed.



Lemma foldR_app {A B : Type} (f : B -> A -> Result B) (l1 l2 : list A) (acc mid : B) :
  foldR f acc l1 = Returned mid -> foldR f acc (l1 ++ l2) = foldR f mid l2.
Proof.
  revert acc. induction l1 as [|x l1 IH]; intros acc; cbn.
  - by intros [= ->].
  - destruct (f acc x); cbn; try discriminate. apply IH.
Qed.

(** From the top-level package named first, the remaining names lead to
    the entity. *)
Lemma packaged_walk (entity : JsValue) (names : list string) :
  packaged environment entity names ->
  exists first rest root,
    names = first :: rest
    /\ find (fun child => strictEq (get "name" child) (JStr first)) (children environment)
       = Some root
    /\ (rest <> [] -> is_ "Package" root = true)
    /\ forall qualifiedName this,
         foldR (stepInto numberToString qualifiedName this) root rest = Returned entity.
Proof.
  induction 1
    as [entity name Hin Hentity Hname Hplain Huniq
       |package names entity name Hpackage IH Hkind Hin Hentity Hname Hplain Huniq].
  - exists name, [], entity. repeat split; try done.
    apply find_unique; [exact Hin|by apply strictEq_string|].
    intros other Hother Ho. apply strictEq_string in Ho. by apply Huniq.
  - destruct IH as (first & rest & root & -> & Hroot & Hroot_kind & Hwalk).
    exists first, (rest ++ [name]), root. repeat split; try done.
    + intros _. destruct rest as [|r rest]; [|by apply Hroot_kind].
      specialize (Hwalk EmptyString root). cbn in Hwalk. by injection Hwalk as ->.
    + intros qualifiedName this.
      rewrite (foldR_app _ rest [name] root package (Hwalk qualifiedName this)).
      cbn [foldR]. unfold stepInto at 1.
      rewrite (find_unique _ _ entity); [reflexivity|exact Hin| |].
      * rewrite Hentity. by apply strictEq_string.
      * intros other Hother Ho. apply andb_true_iff in Ho as [He Ho].
        apply strictEq_string in Ho. by apply Huniq.
Qed.






End QualifiedNames.

(** ** The linearisation ends *)

Section Termination.

Import Linked.

Variable numberToString : Q -> string.
Variable environment : JsValue.
Hypothesis environment_ids : uniqueIds environment.

Lemma getNodeById_in (id node : JsValue) :
  getNodeById numberToString environment id = Returned node ->
  node ∈ nodesIn environment.
Proof.
  unfold getNodeById. rewrite search_find.
  destruct (find _ _) as [found|] eqn:Hfind; [|discriminate].
  intros [= <-]. apply find_some in Hfind as [Hin _]. by apply list_elem_of_In.
Qed.

Lemma foldR_stepInto_in (qualifiedName : string) (this : JsValue) (steps : list string) :
  forall current node : JsValue,
    current ∈ nodesIn environment ->
    foldR (stepInto numberToString qualifiedName this) current steps = Returned node ->
    node ∈ nodesIn environment.
Proof.
  induction steps as [|step steps IH]; intros current node Hcurrent; cbn.
  - by intros [= <-].
  - unfold stepInto at 1.
    destruct (find _ (children current)) as [next|] eqn:Hfind; cbn; [|discriminate].
    apply IH. apply find_some in Hfind as [Hin _].
    eapply nodesIn_child; [exact Hcurrent|by apply list_elem_of_In].
Qed.

Lemma foldR_stepInto_fuel (qualifiedName : string) (this : JsValue) (steps : list string) :
  forall current : JsValue,
    foldR (stepInto numberToString qualifiedName this) current steps <> OutOfFuel.
Proof.
  induction steps as [|step steps IH]; intros current; cbn; [discriminate|].
  unfold stepInto at 1.
  destruct (find _ (children current)); cbn; [apply IH|discriminate].
Qed.

Lemma getNodeByQN_in (this node : JsValue) (qualifiedName : string) :
  this ∈ nodesIn environment ->
  getNodeByQN numberToString environment this qualifiedName = Returned node ->
  node ∈ nodesIn environment.
Proof.
  intros Hthis. unfold getNodeByQN.
  destruct (is_ "Package" this); cbn [negb]; [|discriminate].
  destruct (splitOn "#" qualifiedName) as [|before [|id after]];
    try (by apply foldR_stepInto_in).
  destruct (String.eqb id EmptyString);
    [by apply foldR_stepInto_in|apply getNodeById_in].
Qed.

Lemma getNodeByQN_fuel (this : JsValue) (qualifiedName : string) :
  getNodeByQN numberToString environment this qualifiedName <> OutOfFuel.
Proof.
  unfold getNodeByQN.
  destruct (is_ "Package" this); cbn [negb]; [|discriminate].
  destruct (splitOn "#" qualifiedName) as [|before [|id after]];
    try apply foldR_stepInto_fuel.
  destruct (String.eqb id EmptyString); [apply foldR_stepInto_fuel|].
  unfold getNodeById. by destruct (search _ _).
Qed.

(** [target()] answers a node of the environment, or throws. *)
Lemma target_in (reference node : JsValue) :
  target numberToString environment reference = Returned node ->
  node ∈ nodesIn environment.
Proof.
  unfold target. destruct (is_ "Reference" reference); cbn [negb]; [|discriminate].
  destruct (get "name" reference) as [| | | |name| | |]; try discriminate.
  destruct (divideOn "." name) as [start rest].
  destruct (getNodeById numberToString environment (get start (get "scope" reference)))
    as [root| |] eqn:Hroot; cbn; try discriminate.
  apply getNodeById_in in Hroot.
  destruct (String.length rest =? 0)%nat; [by intros [= <-]|by apply getNodeByQN_in].
Qed.

Lemma target_fuel (reference : JsValue) :
  target numberToString environment reference <> OutOfFuel.
Proof.
  unfold target. destruct (is_ "Reference" reference); cbn [negb]; [|discriminate].
  destruct (get "name" reference) as [| | | |name| | |]; try discriminate.
  destruct (divideOn "." name) as [start rest].
  unfold getNodeById at 1. destruct (search _ _); cbn; [|discriminate].
  destruct (String.length rest =? 0)%nat; [discriminate|apply getNodeByQN_fuel].
Qed.

Lemma mapR_target (references : list JsValue) :
  mapR (target numberToString environment) references <> OutOfFuel
  /\ forall targets,
       mapR (target numberToString environment) references = Returned targets ->
       Forall (fun node => node ∈ nodesIn environment) targets.
Proof.
  induction references as [|reference references [IHfuel IHin]]; cbn.
  - split; [discriminate|]. intros targets [= <-]. constructor.
  - pose proof (target_fuel reference) as Hfuel.
    destruct (target numberToString environment reference) as [node| |] eqn:Hnode;
      cbn; [|split; [discriminate|discriminate]|done].
    destruct (mapR (target numberToString environment) references) as [nodes| |];
      cbn; [|split; [discriminate|discriminate]|done].
    split; [discriminate|]. intros targets [= <-].
    constructor; [by eapply target_in|by apply IHin].
Qed.

Lemma filter_excludes_mono (exclude exclude' : list JsValue) (nodes : list JsValue) :
  (forall node, excludes exclude node = true -> excludes exclude' node = true) ->
  length (filter (fun node => excludes exclude' node = false) nodes)
  <= length (filter (fun node => excludes exclude node = false) nodes).
Proof.
  intros Hmono. induction nodes as [|node nodes IH]; [done|].
  rewrite !filter_cons.
  destruct (excludes exclude node) eqn:Hold.
  - rewrite (Hmono node Hold). by repeat (case_decide; try discriminate).
  - destruct (excludes exclude' node);
      repeat (case_decide; try discriminate); try done; cbn [length]; lia.
Qed.

Lemma remaining_mono (exclude exclude' : list JsValue) :
  (forall node, excludes exclude node = true -> excludes exclude' node = true) ->
  remaining environment exclude' <= remaining environment exclude.
Proof. apply filter_excludes_mono. Qed.

Lemma remaining_less (exclude : list JsValue) (module : JsValue) :
  module ∈ nodesIn environment ->
  excludes exclude module = false ->
  remaining environment (get "id" module :: exclude) < remaining environment exclude.
Proof.
  intros Hin Hfree. unfold remaining.
  assert (Hself : excludes (get "id" module :: exclude) module = true).
  { unfold excludes. cbn [existsb].
    destruct environment_ids as [_ Hstr]. rewrite Forall_forall in Hstr.
    destruct (Hstr module Hin) as [id ->]. cbn. by rewrite String.eqb_refl. }
  assert (Hmono : forall node, excludes exclude node = true ->
                               excludes (get "id" module :: exclude) node = true).
  { intros node H. unfold excludes in *. cbn [existsb]. rewrite H. apply orb_true_r. }
  induction Hin as [module nodes|module node nodes Hin IH]; rewrite !filter_cons.
  - rewrite Hself, Hfree. repeat (case_decide; try discriminate); try done. cbn [length].
    apply Nat.lt_succ_r. by apply filter_excludes_mono.
  - specialize (IH Hfree Hself Hmono).
    destruct (excludes exclude node) eqn:Hold.
    + rewrite (Hmono node Hold). by repeat (case_decide; try discriminate).
    + destruct (excludes (get "id" module :: exclude) node);
        repeat (case_decide; try discriminate); try done; cbn [length]; lia.
Qed.

(** [hierarchyExcluding] on a module of the environment answers or throws
    when the fuel exceeds the number of nodes not yet excluded. *)
Lemma hierarchyExcluding_fuel (fuel : nat) :
  forall (module : JsValue) (exclude : list JsValue),
    module ∈ nodesIn environment ->
    remaining environment exclude < fuel ->
    hierarchyExcluding numberToString environment fuel module exclude <> OutOfFuel.
Proof.
  induction fuel as [|fuel IH]; intros module exclude Hin Hfuel; [lia|].
  cbn [hierarchyExcluding]. fold (excludes exclude module).
  destruct (excludes exclude module) eqn:Hexcluded; [discriminate|].
  destruct (arrayItems (get "mixins" module)) as [mixins| |] eqn:Hmixins;
    cbn [rbind]; [|discriminate|by destruct (get "mixins" module)].
  destruct (mapR_target mixins) as [Hmfuel Hmin].
  destruct (mapR (target numberToString environment) mixins) as [targets| |];
    cbn [rbind]; [|discriminate|done].
  specialize (Hmin targets eq_refl).
  assert (Hsuper : exists superclass,
    (if strictEq (get "kind" module) (JStr "Mixin") then Returned []
     else try! node := superclassNode numberToString environment module in
          Returned (if truthy node then [node] else []))
    = superclass
    /\ superclass <> OutOfFuel
    /\ forall nodes, superclass = Returned nodes ->
                     Forall (fun node => node ∈ nodesIn environment) nodes).
  { eexists. split; [reflexivity|].
    destruct (strictEq (get "kind" module) (JStr "Mixin")).
    { split; [discriminate|]. intros nodes [= <-]. constructor. }
    unfold superclassNode.
    destruct (is_ "Class" module).
    - destruct (truthy (get "superclass" module)).
      + pose proof (target_fuel (get "superclass" module)) as Hf.
        destruct (target numberToString environment (get "superclass" module))
          as [node| |] eqn:Hnode; cbn; [|split; discriminate|done].
        split; [discriminate|]. intros nodes [= <-].
        destruct (truthy node); repeat constructor. by eapply target_in.
      + cbn. split; [discriminate|]. intros nodes [= <-]. constructor.
    - destruct (is_ "Singleton" module); cbn; [|split; discriminate].
      pose proof (target_fuel (get "superclass" (get "superCall" module))) as Hf.
      destruct (target numberToString environment
                  (get "superclass" (get "superCall" module)))
        as [node| |] eqn:Hnode; cbn; [|split; discriminate|done].
      split; [discriminate|]. intros nodes [= <-].
      destruct (truthy node); repeat constructor. by eapply target_in. }
  destruct Hsuper as (superclass & -> & Hsfuel & Hsin).
  destruct superclass as [nodes| |]; cbn [rbind]; [|discriminate|done].
  specialize (Hsin nodes eq_refl).
  assert (Hparents : Forall (fun node => node ∈ nodesIn environment) (targets ++ nodes))
    by (by apply Forall_app).
  assert (Hstart : remaining environment (get "id" module :: exclude) < fuel).
  { pose proof (remaining_less exclude module Hin Hexcluded). lia. }
  assert (Hfold : forall parents (acc : list JsValue * list JsValue),
            Forall (fun node => node ∈ nodesIn environment) parents ->
            remaining environment acc.2 < fuel ->
            rbind (foldR (fun acc mod_ =>
                            try! below := hierarchyExcluding numberToString environment
                                            fuel mod_ acc.2 in
                            Returned (acc.1 ++ below, get "id" mod_ :: acc.2))
                         acc parents)
                  (fun final => Returned final.1)
            <> OutOfFuel).
  { clear -IH. induction parents as [|parent parents IHparents]; intros acc Hparents Hacc;
      cbn; [discriminate|].
    apply Forall_cons in Hparents as [Hparent Hparents].
    pose proof (IH parent acc.2 Hparent Hacc) as Hcall.
    destruct (hierarchyExcluding numberToString environment fuel parent acc.2)
      as [below| |]; cbn [rbind]; [|discriminate|done].
    apply IHparents; [exact Hparents|]. cbn [snd].
    eapply Nat.le_lt_trans; [|exact Hacc].
    apply remaining_mono. intros node H. unfold excludes in *. cbn [existsb].
    rewrite H. apply orb_true_r. }
  by apply Hfold.
Qed.

(** [hierarchy()] of a module of the environment ends: with more fuel
    than the environment has nodes it answers or throws. *)
Lemma hierarchy_ends (this : JsValue) :
  this ∈ nodesIn environment ->
  hierarchy numberToString environment (S (nodeCount environment)) this <> OutOfFuel.
Proof.
  intros Hin. unfold hierarchy. destruct (is_ "Module" this); [|discriminate].
  apply hierarchyExcluding_fuel; [exact Hin|].
  unfold remaining. cbn [excludes existsb].
  rewrite <- nodesIn_length. apply Nat.lt_succ_r, length_filter.
Qed.

Lemma lookupIn_fuel (name : string) (arity : Z) (modules : list JsValue) :
  lookupIn name arity modules <> OutOfFuel.
Proof.
  induction modules as [|module modules IH]; cbn; [discriminate|].
  unfold methods. destruct (arrayItems (get "members" module)) as [members| |] eqn:Hm;
    cbn; [|discriminate|by destruct (get "members" module)].
  assert (Hfind : forall candidates,
            findR (methodMatches name arity) candidates <> OutOfFuel).
  { induction candidates as [|member candidates IHc]; cbn; [discriminate|].
    assert (Hmember : methodMatches name arity member <> OutOfFuel).
    { unfold methodMatches, arityMatches.
      destruct (_ && _); [|discriminate].
      by destruct (get "parameters" member). }
    destruct (methodMatches name arity member) as [[|]| |]; cbn; try done. }
  match goal with
  | |- rbind ?found _ <> _ =>
      assert (Hf : found <> OutOfFuel) by apply Hfind;
      destruct found as [[method|]| |]; cbn; [discriminate|exact IH|discriminate|done]
  end.
Qed.

(** [lookupMethod] on a module of the environment ends as well. *)
Lemma lookupMethod_ends (this : JsValue) (name : string) (arity : Z) :
  this ∈ nodesIn environment ->
  lookupMethod numberToString environment (S (nodeCount environment)) this name arity
  <> OutOfFuel.
Proof.
  intros Hin. unfold lookupMethod. pose proof (hierarchy_ends this Hin) as Hends.
  destruct (hierarchy numberToString environment (S (nodeCount environment)) this)
    as [modules| |]; cbn; [apply lookupIn_fuel|discriminate|done].
Qed.

End Termination.

(** C6: for a method with [n] parameters that [lookupMethod(name, arity)]
    considers, the arity matches iff some parameter is a vararg and
    [n - 1 <= arity], or [n = arity].  On a module of a linked
    environment [lookupMethod] ends: it throws (a reference that does not
    resolve), or it answers a method of a module of the hierarchy that
    has a body or is native, has the name and passes this test, or it
    answers none and no such method is there.  For the module [M] that
    declares [foo(a, *b)], [lookupMethod("foo", 1)] and
    [lookupMethod("foo", 4)] answer that method and
    [lookupMethod("foo", 0)] answers none. *)
Theorem C6_lookupMethod_arity :
  (forall (member : JsValue) (parameters : list JsValue) (arity : Z),
      get "parameters" member = JArr parameters ->
      exists matches,
        Linked.arityMatches member arity = Returned matches
        /\ (matches = true <->
            ((exists p, p ∈ parameters /\ truthy (get "isVarArg" p) = true)
             /\ (Z.of_nat (length parameters) - 1 <= arity)%Z)
            \/ Z.of_nat (length parameters) = arity))
  /\ (forall (numberToString : Q -> string) (environment this : JsValue)
             (name : string) (arity : Z),
        Linked.uniqueIds environment ->
        this ∈ nodesIn environment ->
        let fuel := S (nodeCount environment) in
        (exists e, Linked.lookupMethod numberToString environment fuel this name arity
                   = Thrown e)
        \/ (exists modules found,
              Linked.hierarchy numberToString environment fuel this = Returned modules
              /\ Linked.lookupMethod numberToString environment fuel this name arity
                 = Returned found
              /\ match found with
                 | Some method =>
                     exists module candidates matches,
                       module ∈ modules
                       /\ Linked.methods module = Returned candidates
                       /\ method ∈ candidates
                       /\ (truthy (get "body" method)
                           || truthy (get "isNative" method)) = true
                       /\ get "name" method = JStr name
                       /\ Linked.arityMatches method arity = Returned matches
                       /\ matches = true
                 | None =>
                     forall module candidates method,
                       module ∈ modules ->
                       Linked.methods module = Returned candidates ->
                       method ∈ candidates ->
                       Linked.methodMatches name arity method = Returned false
                 end))
  /\ (forall numberToString : Q -> string,
        let fuel := S (nodeCount Samples.varargs) in
        Linked.lookupMethod numberToString Samples.varargs fuel Samples.moduleM "foo" 1
        = Returned (Some Samples.fooMethod)
        /\ Linked.lookupMethod numberToString Samples.varargs fuel Samples.moduleM "foo" 4
           = Returned (Some Samples.fooMethod)
        /\ Linked.lookupMethod numberToString Samples.varargs fuel Samples.moduleM "foo" 0
           = Returned None).
Proof.
  split; [exact arityMatches_spec|split].
  - intros numberToString environment this name arity Hids Hin fuel.
    pose proof (lookupMethod_ends numberToString environment Hids this name arity Hin)
      as Hends.
    fold fuel in Hends.
    destruct (Linked.lookupMethod numberToString environment fuel this name arity)
      as [found|e|] eqn:Hlook; [|left; by exists e|done].
    right.
    destruct (lookupMethod_Returned numberToString environment fuel this name arity
                found Hlook) as (modules & Hh & Hfound).
    by exists modules, found.
  - intros numberToString fuel. repeat split; vm_compute; reflexivity.
Qed.

(** ** The properties on the samples *)

Lemma nested_ids : Linked.uniqueIds Samples.nested.
Proof.
  split.
  - vm_compute.
    repeat (apply NoDup_cons_2;
            [intros Hin;
             repeat (apply elem_of_cons in Hin as [Hin|Hin]; [discriminate Hin|]);
             by apply elem_of_nil in Hin|]).
    apply NoDup_nil_2.
  - vm_compute. repeat (constructor; [eexists; reflexivity|]). constructor.
Qed.


Ltac only_child Hin :=
  cbn in Hin;
  repeat (apply elem_of_cons in Hin as [->|Hin]; [try reflexivity; try discriminate|]);
  by apply elem_of_nil in Hin.

Lemma nested_packaged :
  Linked.packaged Samples.nested Samples.nestedC ["p"; "q"; "C"].
Proof.
  apply (Linked.packaged_member Samples.nested Samples.packageQ ["p"; "q"] Samples.nestedC "C").
  - apply (Linked.packaged_member Samples.nested Samples.packageP ["p"] Samples.packageQ "q").
    + apply Linked.packaged_top; try reflexivity.
      * cbn. left.
      * by repeat split.
      * intros other Hin _. only_child Hin.
    + reflexivity.
    + cbn. left.
    + reflexivity.
    + reflexivity.
    + by repeat split.
    + intros other Hin _ _. only_child Hin.
  - reflexivity.
  - cbn. left.
  - reflexivity.
  - reflexivity.
  - by repeat split.
  - intros other Hin _ _. only_child Hin.
Qed.




(** The scenario of C3, computed: the stack becomes [F1, F2], F2 resumes
    nothing and X is on top of its operands. *)
Example interrupt_three_frames :
  Runtime.interrupt Samples.noDigits "exception" "X" Samples.threeFrames
  = (Returned tt,
     Runtime.mkEvaluation ∅
       [Samples.plainFrame ["a"]; Runtime.mkFrame ∅ ["b"; "X"] [] JUndefined] JUndefined).
Proof. reflexivity. Qed.


Lemma C4_unhandled_exception_message_witness :
  Runtime.interrupt Samples.noDigits "exception" "X"
    (Samples.unhandledState JNull (JStr "boom"))
  = (Thrown (Error_ (Runtime.unhandledMessage "exception" "X"
                       ("E" +:+ ": " +:+ ToString Samples.noDigits (JStr "boom")))),
     Runtime.setFrameStack [] (Samples.unhandledState JNull (JStr "boom"))).
Proof.
  destruct (C4_unhandled_exception_message Samples.noDigits) as [Hgeneral _].
  apply (Hgeneral (Samples.unhandledState JNull (JStr "boom")) "X"
           (Samples.exceptionX JNull) (JStr "boom")).
  - constructor.
  - reflexivity.
  - right. exists "Y", (Samples.messageY (JStr "boom")).
    split; [reflexivity|split; [discriminate|split; reflexivity]].
Defined.


Lemma varargs_ids : Linked.uniqueIds Samples.varargs.
Proof.
  split.
  - vm_compute.
    repeat (apply NoDup_cons_2;
            [intros Hin;
             repeat (apply elem_of_cons in Hin as [Hin|Hin]; [discriminate Hin|]);
             by apply elem_of_nil in Hin|]).
    apply NoDup_nil_2.
  - vm_compute. repeat (constructor; [eexists; reflexivity|]). constructor.
Qed.

Lemma C6_lookupMethod_arity_witness :
  (exists matches,
      Linked.arityMatches Samples.fooMethod 4 = Returned matches
      /\ (matches = true <->
          ((exists p, p ∈ [Samples.parameter "a" false; Samples.parameter "b" true]
                      /\ truthy (get "isVarArg" p) = true)
           /\ (Z.of_nat 2 - 1 <= 4)%Z)
          \/ Z.of_nat 2 = 4%Z))
  /\ ((exists e,
         Linked.lookupMethod Samples.noDigits Samples.varargs
           (S (nodeCount Samples.varargs)) Samples.moduleM "foo" 4 = Thrown e)
      \/ (exists modules found,
            Linked.hierarchy Samples.noDigits Samples.varargs
              (S (nodeCount Samples.varargs)) Samples.moduleM = Returned modules
            /\ Linked.lookupMethod Samples.noDigits Samples.varargs
                 (S (nodeCount Samples.varargs)) Samples.moduleM "foo" 4 = Returned found
            /\ match found with
               | Some method =>
                   exists module candidates matches,
                     module ∈ modules
                     /\ Linked.methods module = Returned candidates
                     /\ method ∈ candidates
                     /\ (truthy (get "body" method)
                         || truthy (get "isNative" method)) = true
                     /\ get "name" method = JStr "foo"
                     /\ Linked.arityMatches method 4 = Returned matches
                     /\ matches = true
               | None =>
                   forall module candidates method,
                     module ∈ modules ->
                     Linked.methods module = Returned candidates ->
                     method ∈ candidates ->
                     Linked.methodMatches "foo" 4 method = Returned false
               end)).
Proof.
  destruct C6_lookupMethod_arity as (Harity & Hlookup & _).
  split.
  - apply (Harity Samples.fooMethod
             [Samples.parameter "a" false; Samples.parameter "b" true] 4%Z).
    reflexivity.
  - apply (Hlookup Samples.noDigits Samples.varargs Samples.moduleM "foo" 4%Z).
    + exact varargs_ids.
    + vm_compute. repeat constructor.
Defined.

Lemma C9_copy_isolation_witness :
  exists e2 h1,
    Store.copy 8 Samples.smallStore = Some (e2, h1)
    /\ Store.snapshot h1 e2 = Some Samples.smallView
    /\ Store.snapshot h1 8 = Some Samples.smallView
    /\ (forall ms h2, Store.mutateAll ms e2 h1 = Some h2 ->
                      Store.snapshot h2 8 = Some Samples.smallView)
    /\ (forall ms h2, Store.mutateAll ms 8 h1 = Some h2 ->
                      Store.snapshot h2 e2 = Some Samples.smallView).
Proof. apply (C9_copy_isolation Samples.smallStore 8 Samples.smallView). reflexivity. Defined.

(** Pushing on the copy, and taking ["exception"] out of its resume set,
    is seen through the copy and not through the original. *)
Example push_on_the_copy :
  exists e2 h1 h2,
    Store.copy 8 Samples.smallStore = Some (e2, h1)
    /\ Store.mutateAll [Store.PushOperand 0 "b"; Store.SetResume 0 []] e2 h1 = Some h2
    /\ Store.snapshot h2 8 = Some Samples.smallView
    /\ Store.snapshot h2 e2
       = Some ([("a", Runtime.mkRuntimeObject "a" "M" ∅ JUndefined)],
               [Runtime.mkFrame ∅ ["a"; "b"] [] JUndefined],
               JStr "the node tree").
Proof. do 3 eexists. repeat split; reflexivity. Qed.

(** * Further properties of the behaviours *)

(** ** Kinds and categories *)



(** ** The memo of [cache(f)] *)

Section CacheFacts.

Context {R : Type}.
Variable truthyR : R -> bool.
Variable f : JsValue -> R.

Lemma cache_response (this : JsValue) (CACHE : list (JsValue * R)) :
  (forall r, truthy (get "id" this) = true ->
             cacheGet (get "id" this) CACHE = Some r -> truthyR r = true -> r = f this) ->
  (cache truthyR f this CACHE).1 = f this.
Proof.
  intros Hinv. unfold cache.
  destruct (truthy (get "id" this)) eqn:Hid; [|reflexivity].
  destruct (cacheGet (get "id" this) CACHE) as [r|] eqn:Hget; [|reflexivity].
  destruct (truthyR r) eqn:Hr; [|reflexivity].
  cbn. by apply Hinv.
Qed.

Lemma cache_table (this : JsValue) (CACHE : list (JsValue * R)) (key : JsValue) (r : R) :
  cacheGet key (cache truthyR f this CACHE).2 = Some r ->
  (truthy (get "id" this) = true /\ strictEq (get "id" this) key = true /\ r = f this)
  \/ cacheGet key CACHE = Some r.
Proof.
  unfold cache.
  destruct (truthy (get "id" this)) eqn:Hid; [|by right].
  destruct (cacheGet (get "id" this) CACHE) as [c|] eqn:Hget.
  - destruct (truthyR c); [by right|].
    cbn. destruct (strictEq (get "id" this) key) eqn:Hkey; [|by right].
    intros [= <-]. by left.
  - cbn. destruct (strictEq (get "id" this) key) eqn:Hkey; [|by right].
    intros [= <-]. by left.
Qed.

Lemma cacheCalls_transparent (callers : list JsValue) :
  forall CACHE : list (JsValue * R),
    (forall a b, a ∈ callers -> b ∈ callers ->
                 truthy (get "id" a) = true ->
                 strictEq (get "id" a) (get "id" b) = true -> f a = f b) ->
    (forall b r, b ∈ callers -> cacheGet (get "id" b) CACHE = Some r -> r = f b) ->
    (cacheCalls truthyR f callers CACHE).1 = map f callers.
Proof.
  induction callers as [|this rest IH]; intros CACHE Hsame Hinv; [reflexivity|].
  cbn [cacheCalls map].
  pose proof (cache_response this CACHE) as Hresponse.
  pose proof (cache_table this CACHE) as Htable.
  destruct (cache truthyR f this CACHE) as [response CACHE'].
  specialize (IH CACHE').
  destruct (cacheCalls truthyR f rest CACHE') as [responses CACHE''].
  cbn in *. f_equal.
  - apply Hresponse. intros r _ Hget _. apply (Hinv this r); [left|exact Hget].
  - apply IH.
    + intros a b Ha Hb. apply Hsame; by right.
    + intros b r Hb Hget. destruct (Htable _ _ Hget) as [(Hid & Hkey & ->)|Hold].
      * apply Hsame; [left|by right|exact Hid|exact Hkey].
      * apply (Hinv b r); [by right|exact Hold].
Qed.

(** X2: memoisation by [cache(f)] is transparent where ids tell the
    callers apart: on a fresh table, when callers with the same truthy id
    have the same response, every call in a row of calls answers what [f]
    answers for its caller. *)
Theorem cache_transparent (callers : list JsValue) :
  (forall a b, a ∈ callers -> b ∈ callers ->
               truthy (get "id" a) = true ->
               strictEq (get "id" a) (get "id" b) = true -> f a = f b) ->
  (cacheCalls truthyR f callers []).1 = map f callers.
Proof.
  intros Hsame. apply cacheCalls_transparent; [exact Hsame|].
  intros b r _ Hget. discriminate.
Qed.

Lemma strictEq_truthy (a b : JsValue) :
  strictEq a b = true -> truthy a = truthy b.
Proof.
  destruct a, b; try discriminate; cbn; try reflexivity.
  - intros H. apply Bool.eqb_prop in H. by subst.
  - intros H. apply Qeq_bool_iff in H.
    f_equal. destruct (Qeq_bool q 0) eqn:Hq, (Qeq_bool q0 0) eqn:Hq0; try reflexivity.
    + apply Qeq_bool_iff in Hq. rewrite H in Hq. apply Qeq_bool_iff in Hq. congruence.
    + apply Qeq_bool_iff in Hq0. rewrite <- H in Hq0. apply Qeq_bool_iff in Hq0. congruence.
  - intros H. apply String.eqb_eq in H. by subst.
Qed.

Lemma cacheCalls_hits (a : JsValue) (callers : list JsValue) (older : list (JsValue * R)) :
  truthy (get "id" a) = true ->
  truthyR (f a) = true ->
  Forall (fun b => strictEq (get "id" a) (get "id" b) = true) callers ->
  cacheCalls truthyR f callers ((get "id" a, f a) :: older)
  = (map (fun _ => f a) callers, (get "id" a, f a) :: older).
Proof.
  intros Hid Hr. induction 1 as [|b rest Hb _ IH]; [reflexivity|].
  cbn [cacheCalls map]. unfold cache at 1.
  rewrite <- (strictEq_truthy _ _ Hb), Hid. cbn [cacheGet]. rewrite Hb, Hr.
  by rewrite IH.
Qed.

Lemma cache_answers_by_id (a : JsValue) (callers : list JsValue) :
  truthy (get "id" a) = true ->
  truthyR (f a) = true ->
  Forall (fun b => strictEq (get "id" a) (get "id" b) = true) callers ->
  (cacheCalls truthyR f (a :: callers) []).1 = f a :: map (fun _ => f a) callers.
Proof.
  intros Hid Hr Hcallers. cbn [cacheCalls]. unfold cache at 1. rewrite Hid. cbn [cacheGet].
  unfold cacheSet. by rewrite (cacheCalls_hits a callers [] Hid Hr Hcallers).
Qed.

End CacheFacts.

(** X3: the memo of [children()] answers by id alone.  After the
    memoised [children()] has answered for a node with a truthy id, a call
    of the same closure on any object with that id answers the first
    node's children, whatever the children of that object are. *)
Theorem children_memo_answers_by_id (a b : JsValue) :
  truthy (get "id" a) = true ->
  strictEq (get "id" a) (get "id" b) = true ->
  (cachedChildren a []).1 = children a
  /\ (cachedChildren b (cachedChildren a []).2).1 = children a.
Proof.
  intros Hid Hsame.
  pose proof (cache_answers_by_id (fun _ => true) children a [b] Hid eq_refl
                ltac:(by repeat constructor)) as Hcalls.
  cbn [cacheCalls map] in Hcalls. unfold cachedChildren.
  destruct (cache (fun _ => true) children a []) as [first CACHE]. cbn [fst snd] in *.
  destruct (cache (fun _ => true) children b CACHE) as [second CACHE'].
  cbn in Hcalls |- *. by injection Hcalls as -> ->.
Qed.

(** ** Breadth-first descendants *)





(** ** The fold of [reduce] *)


(** ** Transforms that change nothing *)

Lemma nodesIn_item (items : list JsValue) (x node : JsValue) :
  x ∈ items -> node ∈ nodesIn x -> node ∈ nodesIn (JArr items).
Proof.
  intros Hx Hnode. cbn [nodesIn]. apply list_elem_of_In, in_flat_map.
  exists x. split; by apply list_elem_of_In.
Qed.

Lemma nodesIn_prop (props : list (string * JsValue)) (k : string) (x node : JsValue) :
  (k, x) ∈ props -> node ∈ nodesIn x -> node ∈ nodesIn (JObj props).
Proof.
  intros Hx Hnode. cbn [nodesIn]. apply elem_of_app. right.
  apply list_elem_of_In, in_flat_map.
  exists (k, x). split; by apply list_elem_of_In.
Qed.

Lemma bottomUp_untouched (table : string -> option (JsValue -> JsValue)) (value : JsValue) :
  (forall node kind, node ∈ nodesIn value -> get "kind" node = JStr kind -> table kind = None) ->
  bottomUp table value = value.
Proof.
  induction value as [| | | | | |items IH|props IH] using JsValue_nested_ind; intros Htable;
    try reflexivity.
  - cbn [bottomUp]. f_equal. rewrite <- (map_id items) at 2. apply map_ext_Forall.
    rewrite Forall_forall in IH |- *. intros x Hx. apply IH; [exact Hx|].
    intros node kind Hnode. apply Htable. by apply (nodesIn_item items x).
  - cbn [bottomUp].
    assert (Hprops : map (fun '(k, v) => (k, bottomUp table v)) props = props).
    { rewrite <- (map_id props) at 2. apply map_ext_Forall.
      rewrite Forall_forall in IH |- *. intros [k x] Hx. f_equal. apply (IH (k, x)); [exact Hx|].
      intros node kind Hnode. apply Htable. by apply (nodesIn_prop props k x). }
    rewrite Hprops.
    destruct (truthy (lookupProp "kind" props)) eqn:Hkind; [|reflexivity].
    unfold txFor. destruct (get "kind" (JObj props)) eqn:Hk; try reflexivity.
    rewrite (Htable (JObj props) s); [reflexivity| |exact Hk].
    cbn [nodesIn]. rewrite Hkind. left.
Qed.

Lemma applyTransform_id (fuel : nat) :
  forall value : JsValue,
    depth value <= fuel ->
    applyTransform fuel (TxFun id) value = Returned value.
Proof.
  induction fuel as [|fuel IH]; intros value Hdepth.
  { destruct value; cbn in Hdepth; lia. }
  assert (Hobject : forall props, depth (JObj props) <= S fuel ->
            mapObject (applyTransform fuel (TxFun id)) (JObj props) = Returned (JObj props)).
  { intros props Hd. cbn [mapObject].
    rewrite (mapR_map _ id).
    - cbn. by rewrite map_id.
    - apply Forall_forall. intros [k x] Hx. rewrite IH; [reflexivity|].
      pose proof (depth_prop props k x Hx). lia. }
  destruct value as [| | | | | |items|props]; try reflexivity.
  - cbn [applyTransform]. rewrite (mapR_map _ id).
    + cbn. by rewrite map_id.
    + apply Forall_forall. intros x Hx. apply IH.
      pose proof (depth_item items x Hx). unfold id. lia.
  - cbn [applyTransform]. unfold id at 2.
    rewrite (Hobject props Hdepth). by destruct (isNode (JObj props)).
Qed.

(** X7: a transform that has nothing to do returns its input: with a
    table that has no function for the kind of any node inside the value,
    and with the identity as single function, [transform] answers the
    value itself, given fuel for its depth. *)
Theorem transform_unchanged (fuel : nat) (table : string -> option (JsValue -> JsValue))
    (value : JsValue) :
  depth value <= fuel ->
  (forall node kind, node ∈ nodesIn value -> get "kind" node = JStr kind -> table kind = None) ->
  transform fuel (TxMap table) value = Returned value
  /\ transform fuel (TxFun id) value = Returned value.
Proof.
  intros Hdepth Htable. unfold transform. split.
  - rewrite (applyTransform_table table fuel value Hdepth). f_equal.
    by apply bottomUp_untouched.
  - by apply applyTransform_id.
Qed.

(** ** Looking nodes up and climbing to parents *)

Lemma find_first {A : Type} (p : A -> bool) (l : list A) (x : A) :
  find p l = Some x ->
  exists before after,
    l = before ++ x :: after /\ p x = true /\ Forall (fun y => p y = false) before.
Proof.
  induction l as [|y l IH]; [discriminate|]. cbn [find].
  destruct (p y) eqn:Hy.
  - intros [= ->]. exists [], l. repeat split; [exact Hy|constructor].
  - intros Hfind. destruct (IH Hfind) as (before & after & -> & Hx & Hbefore).
    exists (y :: before), after. repeat split; [exact Hx|by constructor].
Qed.

Lemma find_nothing {A : Type} (p : A -> bool) (l : list A) :
  find p l = None -> Forall (fun y => p y = false) l.
Proof.
  induction l as [|y l IH]; [constructor|]. cbn [find].
  destruct (p y) eqn:Hy; [discriminate|]. intros Hfind. constructor; [exact Hy|by apply IH].
Qed.

Lemma nodesIn_isNode (v node : JsValue) : node ∈ nodesIn v -> isNode node = true.
Proof.
  induction v as [| | | | | |items IH|props IH] using JsValue_nested_ind; cbn [nodesIn];
    try (intros H; by apply elem_of_nil in H).
  - intros H. apply list_elem_of_In, in_flat_map in H as (x & Hx & Hnode).
    apply list_elem_of_In in Hx, Hnode. rewrite Forall_forall in IH. by apply (IH x).
  - intros H. apply elem_of_app in H as [H|H].
    + destruct (truthy (lookupProp "kind" props)) eqn:Hkind; [|by apply elem_of_nil in H].
      apply list_elem_of_singleton in H as ->. exact Hkind.
    + apply list_elem_of_In, in_flat_map in H as ([k x] & Hx & Hnode).
      apply list_elem_of_In in Hx, Hnode. rewrite Forall_forall in IH. by apply (IH (k, x)).
Qed.

Lemma nodesIn_below (v node inner : JsValue) :
  node ∈ nodesIn v -> inner ∈ nodesIn node -> inner ∈ nodesIn v.
Proof.
  induction v as [| | | | | |items IH|props IH] using JsValue_nested_ind; cbn [nodesIn];
    try (intros H; by apply elem_of_nil in H).
  - intros H Hinner. apply list_elem_of_In, in_flat_map in H as (x & Hx & Hnode).
    apply list_elem_of_In in Hx, Hnode. rewrite Forall_forall in IH.
    apply list_elem_of_In, in_flat_map. exists x.
    split; apply list_elem_of_In; [exact Hx|by apply (IH x)].
  - intros H Hinner. apply elem_of_app in H as [H|H].
    + destruct (truthy (lookupProp "kind" props)) eqn:Hkind; [|by apply elem_of_nil in H].
      apply list_elem_of_singleton in H as ->. cbn [nodesIn] in Hinner.
      by rewrite Hkind in Hinner.
    + apply list_elem_of_In, in_flat_map in H as ([k x] & Hx & Hnode).
      apply list_elem_of_In in Hx, Hnode. rewrite Forall_forall in IH.
      apply elem_of_app. right. apply list_elem_of_In, in_flat_map. exists (k, x).
      split; apply list_elem_of_In; [exact Hx|by apply (IH (k, x))].
Qed.

Lemma nodesIn_smaller (v node : JsValue) :
  isNode v = true -> node ∈ nodesIn v -> node = v \/ nodeCount node < nodeCount v.
Proof.
  remember (nodeCount v) as n eqn:Hn. revert v node Hn.
  induction n as [n IH] using lt_wf_ind. intros v node -> Hv Hnode.
  rewrite (nodesIn_node v Hv) in Hnode. apply elem_of_cons in Hnode as [->|Hnode]; [by left|].
  right. apply list_elem_of_In, in_flat_map in Hnode as (c & Hc & Hnode).
  apply list_elem_of_In in Hc, Hnode.
  pose proof (children_nodeCount v Hv) as Hcount.
  pose proof (list_sum_elem_le nodeCount (children v) c Hc) as Hle.
  destruct (IH (nodeCount c) ltac:(lia) c node eq_refl (children_isNode v c Hc) Hnode)
    as [->|Hlt]; lia.
Qed.

Section Climbing.

Import Linked.

Variable numberToString : Q -> string.
Variable environment : JsValue.

(** X9: [getNodeById(id)] answers the first node, in depth-first
    pre-order, whose id is strictly equal to [id]; when the environment
    has no such node it throws [Missing node <id>].  It never runs on. *)
Theorem getNodeById_first_match (id : JsValue) :
  match getNodeById numberToString environment id with
  | Returned node =>
      exists before after,
        nodesIn environment = before ++ node :: after
        /\ strictEq (get "id" node) id = true
        /\ Forall (fun other => strictEq (get "id" other) id = false) before
  | Thrown e =>
      e = Error_ ("Missing node " +:+ ToString numberToString id)
      /\ Forall (fun other => strictEq (get "id" other) id = false) (nodesIn environment)
  | OutOfFuel => False
  end.
Proof.
  unfold getNodeById, getOrUpdate. rewrite search_find.
  destruct (find _ (nodesIn environment)) as [node|] eqn:Hfind.
  - destruct (find_first _ _ _ Hfind) as (before & after & Hsplit & Hid & Hbefore).
    by exists before, after.
  - split; [reflexivity|]. by apply find_nothing.
Qed.

Hypothesis environment_node : isNode environment = true.
Hypothesis environment_ids : uniqueIds environment.

Lemma root_is_no_child (holder child : JsValue) :
  holder ∈ nodesIn environment -> child ∈ children holder -> child <> environment.
Proof.
  intros Hholder Hchild ->.
  pose proof (nodesIn_NoDup environment environment_ids) as Hnodup.
  rewrite (nodesIn_children environment) in Hnodup.
  assert (Hroot : extractChildren environment = [environment]).
  { destruct environment; try discriminate. cbn in environment_node |- *.
    by rewrite environment_node. }
  rewrite Hroot in Hnodup. cbn [app] in Hnodup. apply NoDup_cons in Hnodup as [Hnot _].
  apply Hnot. apply list_elem_of_In, in_flat_map. exists holder.
  split; by apply list_elem_of_In.
Qed.

Lemma holder_of (node : JsValue) :
  node ∈ nodesIn environment ->
  node = environment
  \/ exists holder, holder ∈ nodesIn environment /\ node ∈ children holder.
Proof.
  intros Hnode.
  assert (Hroot : extractChildren environment = [environment]).
  { destruct environment; try discriminate. cbn in environment_node |- *.
    by rewrite environment_node. }
  rewrite (nodesIn_children environment), Hroot in Hnode.
  apply elem_of_cons in Hnode as [->|Hnode]; [by left|]. right.
  apply list_elem_of_In, in_flat_map in Hnode as (holder & Hholder & Hnode).
  exists holder. split; by apply list_elem_of_In.
Qed.

Lemma parent_root :
  parent numberToString environment environment
  = Thrown (Error_ ("Node " +:+ ToString numberToString (get "kind" environment) +:+ "#"
                    +:+ ToString numberToString (get "id" environment)
                    +:+ " is not in the environment")).
Proof.
  unfold parent, getOrUpdate.
  destruct (descendants_spec None environment environment_node) as (below & -> & Hbelow).
  cbn [ofKind] in Hbelow.
  assert (Hall : forall x, x ∈ environment :: below -> x ∈ nodesIn environment).
  { intros x. by rewrite (nodesIn_node environment environment_node), Hbelow. }
  destruct (find _ (environment :: below)) as [found|] eqn:Hfind; [|reflexivity].
  exfalso. apply find_some in Hfind as [Hfound Hhas].
  apply list_elem_of_In, Hall in Hfound.
  apply existsb_exists in Hhas as (c & Hc & Hid). apply list_elem_of_In in Hc.
  apply (root_is_no_child found c Hfound Hc).
  apply (same_id environment environment_ids); [by eapply nodesIn_child| |exact Hid].
  by apply nodesIn_root.
Qed.

(** X11: in an environment with unique ids, [parent()] of a node of the
    environment returns the node that has it among its children; for the
    environment itself, and only for it, it throws
    [Node <kind>#<id> is not in the environment]. *)
Theorem parent_holds_the_node (node : JsValue) :
  node ∈ nodesIn environment ->
  (node = environment
   /\ parent numberToString environment node
      = Thrown (Error_ ("Node " +:+ ToString numberToString (get "kind" node) +:+ "#"
                        +:+ ToString numberToString (get "id" node)
                        +:+ " is not in the environment")))
  \/ (exists holder,
        holder ∈ nodesIn environment
        /\ node ∈ children holder
        /\ parent numberToString environment node = Returned holder).
Proof.
  intros Hnode. destruct (holder_of node Hnode) as [->|(holder & Hholder & Hchild)].
  - left. split; [reflexivity|apply parent_root].
  - right. exists holder. repeat split; [exact Hholder|exact Hchild|].
    by apply parent_node.
Qed.

(** X10: in an environment with unique ids [getNodeById(id)] returns a
    node exactly when that node is in the environment and has the id:
    looking a node up by its own id gives the node back. *)
Theorem getNodeById_round_trip (id : string) (node : JsValue) :
  getNodeById numberToString environment (JStr id) = Returned node
  <-> node ∈ nodesIn environment /\ get "id" node = JStr id.
Proof.
  split.
  - intros Hfound. split; [by eapply getNodeById_in|].
    unfold getNodeById, getOrUpdate in Hfound. rewrite search_find in Hfound.
    destruct (find _ (nodesIn environment)) as [found|] eqn:Hfind; [|discriminate].
    injection Hfound as ->. apply find_some in Hfind as [_ Hid]. by apply strictEq_string.
  - intros [Hnode <-]. by apply getNodeById_node.
Qed.

(** The holder of a node is below every other node that has the node
    inside. *)
Lemma holder_below (holder this : JsValue) :
  holder ∈ nodesIn environment ->
  this ∈ children holder ->
  forall above : JsValue,
    above ∈ nodesIn environment ->
    this ∈ nodesIn above ->
    above <> this ->
    holder ∈ nodesIn above.
Proof.
  intros Hholder Hchild above. remember (nodeCount above) as n eqn:Hn. revert above Hn.
  induction n as [n IH] using lt_wf_ind. intros above -> Habove Hthis Hne.
  pose proof (nodesIn_isNode _ _ Habove) as Hnode.
  rewrite (nodesIn_node above Hnode) in Hthis.
  apply elem_of_cons in Hthis as [->|Hthis]; [done|].
  apply list_elem_of_In, in_flat_map in Hthis as (c & Hc & Hthis).
  apply list_elem_of_In in Hc, Hthis.
  destruct (nodesIn_smaller c this (children_isNode above c Hc) Hthis) as [<-|Hc_lt].
  - assert (above = holder) as ->.
    { by apply (NoDup_flat_map_inj children (nodesIn environment) above holder this
                  (children_NoDup environment environment_ids)). }
    by apply nodesIn_root.
  - apply (nodesIn_below above c holder).
    + apply (nodesIn_child above above c); [by apply nodesIn_root|exact Hc].
    + pose proof (children_nodeCount above Hnode) as Hcount.
      pose proof (list_sum_elem_le nodeCount (children above) c Hc) as Hle.
      apply (IH (nodeCount c) ltac:(lia) c eq_refl); [|exact Hthis|intros ->; lia].
      by apply (nodesIn_child environment above c).
Qed.

Lemma closestAncestor_climbs (kind : string) (fuel : nat) :
  forall this : JsValue,
    this ∈ nodesIn environment ->
    nodeCount environment - nodeCount this < fuel ->
    exists answer,
      closestAncestor numberToString environment fuel kind this = Returned answer
      /\ match answer with
         | Some ancestor =>
             ancestor ∈ nodesIn environment
             /\ is_ kind ancestor = true
             /\ this ∈ nodesIn ancestor
             /\ ancestor <> this
             /\ forall between,
                  between ∈ nodesIn ancestor -> this ∈ nodesIn between ->
                  between <> ancestor -> between <> this -> is_ kind between = false
         | None =>
             forall above,
               above ∈ nodesIn environment -> this ∈ nodesIn above ->
               above <> this -> is_ kind above = false
         end.
Proof.
  induction fuel as [|fuel IH]; intros this Hthis Hfuel; [lia|].
  cbn [closestAncestor].
  destruct (holder_of this Hthis) as [->|(holder & Hholder & Hchild)];
    [rewrite parent_root|rewrite (parent_node numberToString environment environment_node
                                    environment_ids holder this Hholder Hchild)].
  - exists None. split; [reflexivity|]. intros above Habove Hin Hne.
    destruct (nodesIn_smaller environment above environment_node Habove) as [->|Hlt]; [done|].
    destruct (nodesIn_smaller above environment (nodesIn_isNode _ _ Habove) Hin) as [->|Hgt];
      [done|lia].
  - pose proof (nodesIn_isNode _ _ Hholder) as Hnode.
    pose proof (children_nodeCount holder Hnode) as Hcount.
    pose proof (list_sum_elem_le nodeCount (children holder) this Hchild) as Hle.
    assert (Hthis_in : this ∈ nodesIn holder).
    { apply (nodesIn_child holder holder this); [by apply nodesIn_root|exact Hchild]. }
    assert (Hdistinct : holder <> this) by (intros ->; lia).
    destruct (is_ kind holder) eqn:Hkind.
    + exists (Some holder). split; [reflexivity|].
      repeat split; [exact Hholder|exact Hkind|exact Hthis_in|exact Hdistinct|].
      intros between Hbetween Hin Hne Hne'. exfalso.
      assert (Hbetween_in : between ∈ nodesIn environment)
        by by apply (nodesIn_below environment holder between).
      pose proof (holder_below holder this Hholder Hchild between Hbetween_in Hin Hne') as Hup.
      destruct (nodesIn_smaller holder between Hnode Hbetween) as [->|Hlt]; [done|].
      destruct (nodesIn_smaller between holder (nodesIn_isNode _ _ Hbetween_in) Hup)
        as [->|Hgt]; [done|lia].
    + pose proof (nodesIn_smaller environment holder environment_node Hholder) as Hroot.
      destruct (IH holder Hholder) as (answer & -> & Hanswer).
      { destruct Hroot as [->|Hlt]; lia. }
      exists answer. split; [reflexivity|].
      destruct answer as [ancestor|].
      * destruct Hanswer as (Hin & Hkind' & Hbelow & Hne & Hclosest).
        assert (Hthis_anc : this ∈ nodesIn ancestor)
          by by apply (nodesIn_below ancestor holder this).
        repeat split; [exact Hin|exact Hkind'|exact Hthis_anc| |].
        { intros ->.
          destruct (nodesIn_smaller this holder (nodesIn_isNode _ _ Hthis) Hbelow)
            as [->|Hlt]; [done|lia]. }
        intros between Hbetween Hthis_b Hne1 Hne2.
        assert (Hbetween_in : between ∈ nodesIn environment)
          by by apply (nodesIn_below environment ancestor between).
        pose proof (holder_below holder this Hholder Hchild between Hbetween_in Hthis_b Hne2)
          as Hup.
        destruct (nodesIn_smaller between holder (nodesIn_isNode _ _ Hbetween_in) Hup)
          as [->|Hlt]; [exact Hkind|].
        apply Hclosest; [exact Hbetween|exact Hup|exact Hne1|intros ->; lia].
      * intros above Habove Hin Hne.
        pose proof (holder_below holder this Hholder Hchild above Habove Hin Hne) as Hup.
        destruct (nodesIn_smaller above holder (nodesIn_isNode _ _ Habove) Hup)
          as [->|Hlt]; [exact Hkind|].
        apply Hanswer; [exact Habove|exact Hup|intros ->; lia].
Qed.

(** X12: in an environment with unique ids, [closestAncestor(kind)] of
    a node of the environment ends without throwing.  What it returns is
    a proper ancestor of the kind with no node of the kind between it and
    the node; it returns [undefined] exactly when no proper ancestor is
    of the kind. *)
Theorem closestAncestor_is_closest (kind : string) (this : JsValue) :
  this ∈ nodesIn environment ->
  exists answer,
    closestAncestor numberToString environment (S (nodeCount environment)) kind this
    = Returned answer
    /\ match answer with
       | Some ancestor =>
           ancestor ∈ nodesIn environment
           /\ is_ kind ancestor = true
           /\ this ∈ nodesIn ancestor
           /\ ancestor <> this
           /\ forall between,
                between ∈ nodesIn ancestor -> this ∈ nodesIn between ->
                between <> ancestor -> between <> this -> is_ kind between = false
       | None =>
           forall above,
             above ∈ nodesIn environment -> this ∈ nodesIn above ->
             above <> this -> is_ kind above = false
       end.
Proof. intros Hthis. apply closestAncestor_climbs; [exact Hthis|lia]. Qed.

End Climbing.

(** ** References, qualified names and hierarchies *)

Lemma findR_first {A : Type} (p : A -> Result bool) (l : list A) (x : A) :
  findR p l = Returned (Some x) <->
  exists before after,
    l = before ++ x :: after
    /\ p x = Returned true
    /\ Forall (fun y => p y = Returned false) before.
Proof.
  split.
  - induction l as [|y l IH]; [discriminate|]. cbn [findR].
    destruct (p y) as [[|]| |] eqn:Hy; cbn [rbind]; try discriminate.
    + intros [= ->]. exists [], l. repeat split; [exact Hy|constructor].
    + intros Hfind. destruct (IH Hfind) as (before & after & -> & Hx & Hbefore).
      exists (y :: before), after. repeat split; [exact Hx|by constructor].
  - intros (before & after & -> & Hx & Hbefore).
    induction Hbefore as [|y before Hy _ IH]; cbn [findR app].
    + by rewrite Hx.
    + by rewrite Hy.
Qed.

Lemma member_is_child (this : JsValue) (members : list JsValue) (member : JsValue) :
  get "members" this = JArr members ->
  member ∈ members -> isNode member = true -> member ∈ children this.
Proof.
  intros Hmembers Hin Hnode. destruct this as [| | | | | | |props]; try discriminate.
  cbn [get] in Hmembers. cbn [children].
  induction props as [|[k v] props IH]; [discriminate|].
  cbn [lookupProp] in Hmembers. cbn [flat_map]. apply elem_of_app.
  destruct (String.eqb k "members").
  - left. subst v. cbn [extractChildren]. apply list_elem_of_In, in_flat_map.
    exists member. split; [by apply list_elem_of_In|].
    destruct member; try discriminate. cbn in Hnode |- *. rewrite Hnode. by left.
  - right. by apply IH.
Qed.

Lemma membersOfKind_found (kind : string) (this : JsValue) (found : list JsValue) :
  membersOfKind kind this = Returned found ->
  exists members,
    get "members" this = JArr members
    /\ found = filter (fun member => is_ kind member = true) members
    /\ Forall (fun member => member ∈ children this) found.
Proof.
  unfold membersOfKind.
  destruct (get "members" this) as [| | | | | |members|] eqn:Hmembers; try discriminate.
  cbn [arrayItems rbind].
  destruct (forallb isNode members) eqn:Hnodes; [|discriminate].
  intros [= <-]. exists members. repeat split.
  apply Forall_forall. intros member Hin. apply list_elem_of_filter in Hin as [_ Hin].
  apply (member_is_child this members member Hmembers Hin).
  rewrite forallb_forall in Hnodes. by apply Hnodes, list_elem_of_In.
Qed.

(** X8: [fields()], [constructors()] and [tests()] exist on modules,
    classes and describes only; what they return are children of the node
    of the kind asked for; and no member is both a field and a method. *)
Theorem fields_constructors_tests (this : JsValue) :
  (forall found, fields this = Returned found ->
     is_ "Module" this = true
     /\ Forall (fun member => member ∈ children this /\ is_ "Field" member = true) found)
  /\ (forall found, constructors this = Returned found ->
        is_ "Class" this = true
        /\ Forall (fun member => member ∈ children this /\ is_ "Constructor" member = true)
                  found)
  /\ (forall found, tests this = Returned found ->
        is_ "Describe" this = true
        /\ Forall (fun member => member ∈ children this /\ is_ "Test" member = true) found)
  /\ (forall someFields someMethods member,
        fields this = Returned someFields ->
        Linked.methods this = Returned someMethods ->
        member ∈ someFields -> member ∉ someMethods).
Proof.
  assert (Hkind : forall kind found,
            membersOfKind kind this = Returned found ->
            Forall (fun member => member ∈ children this /\ is_ kind member = true) found).
  { intros kind found Hfound.
    destruct (membersOfKind_found kind this found Hfound) as (members & _ & -> & Hchildren).
    rewrite Forall_forall in Hchildren |- *. intros member Hin. split; [by apply Hchildren|].
    by apply list_elem_of_filter in Hin as [Hkind _]. }
  unfold fields, constructors, tests. repeat split.
  - by destruct (is_ "Module" this).
  - destruct (is_ "Module" this); [by apply Hkind|discriminate].
  - by destruct (is_ "Class" this).
  - destruct (is_ "Class" this); [by apply Hkind|discriminate].
  - by destruct (is_ "Describe" this).
  - destruct (is_ "Describe" this); [by apply Hkind|discriminate].
  - intros someFields someMethods member Hfields Hmethods Hfield Hmethod.
    destruct (is_ "Module" this); [|discriminate].
    apply Hkind in Hfields. rewrite Forall_forall in Hfields.
    destruct (Hfields member Hfield) as [_ Hkind_field].
    unfold Linked.methods in Hmethods.
    destruct (arrayItems (get "members" this)) as [members| |]; cbn [rbind] in Hmethods;
      try discriminate.
    injection Hmethods as <-. apply list_elem_of_filter in Hmethod as [Hkind_method _].
    unfold is_ in Hkind_field, Hkind_method. cbn [String.eqb Ascii.eqb Bool.eqb] in *.
    destruct (get "kind" member); try discriminate.
    cbn in Hkind_field, Hkind_method.
    apply String.eqb_eq in Hkind_field, Hkind_method. congruence.
Qed.

Section Resolution.

Import Linked.

Variable numberToString : Q -> string.
Variable environment : JsValue.

(** X13: [getNodeByQN] of a name with a hash looks at the id only:
    [<prefix>#<id>] resolves as [getNodeById(id)] does, whatever the
    prefix says. *)
Theorem getNodeByQN_by_id (this : JsValue) (prefix id : string) :
  is_ "Package" this = true ->
  hasChar "#" prefix = false ->
  hasChar "#" id = false ->
  id <> EmptyString ->
  getNodeByQN numberToString environment this (prefix +:+ "#" +:+ id)
  = getNodeById numberToString environment (JStr id).
Proof.
  intros Hkind Hprefix Hid Hne. unfold getNodeByQN. rewrite Hkind. cbn [negb].
  change (prefix +:+ "#" +:+ id) with (String.append prefix (String "#" id)).
  rewrite (splitOn_app "#" prefix id Hprefix), (splitOn_plain "#" id Hid).
  apply String.eqb_neq in Hne. by rewrite Hne.
Qed.

(** X18: [lookupConstructor(arity)] exists on classes only.  A
    constructor it returns is a child of the class, the first of its
    constructors whose parameters match the arity (as many parameters, or
    some varargs parameter and at most one parameter more than the
    arity); it returns [undefined] only when no constructor matches. *)
Theorem lookupConstructor_first_match (this : JsValue) (arity : Z) (found : option JsValue) :
  lookupConstructor this arity = Returned found ->
  is_ "Class" this = true
  /\ exists members,
       get "members" this = JArr members
       /\ match found with
          | Some constructor =>
              constructor ∈ children this
              /\ exists before after parameters,
                   filter (fun member => is_ "Constructor" member = true) members
                   = before ++ constructor :: after
                   /\ get "parameters" constructor = JArr parameters
                   /\ ((exists p, p ∈ parameters /\ truthy (get "isVarArg" p) = true)
                       /\ (Z.of_nat (length parameters) - 1 <= arity)%Z
                       \/ Z.of_nat (length parameters) = arity)
                   /\ Forall (fun other => arityMatches other arity = Returned false) before
          | None =>
              forall member, member ∈ members -> is_ "Constructor" member = true ->
                             arityMatches member arity = Returned false
          end.
Proof.
  unfold lookupConstructor, constructors, membersOfKind.
  destruct (is_ "Class" this); [|discriminate]. cbn [negb].
  destruct (get "members" this) as [| | | | | |members|] eqn:Hmembers; try discriminate.
  cbn [arrayItems rbind].
  destruct (forallb isNode members) eqn:Hnodes; [|discriminate]. cbn [rbind].
  intros Hfind. split; [reflexivity|]. exists members. split; [reflexivity|].
  destruct found as [constructor|].
  - apply findR_first in Hfind as (before & after & Hsplit & Hmatch & Hbefore).
    assert (Hin : constructor ∈ members).
    { apply (list_elem_of_filter (fun member => is_ "Constructor" member = true)).
      rewrite Hsplit. apply elem_of_app. right. left. }
    split.
    + apply (member_is_child this members constructor Hmembers Hin).
      rewrite forallb_forall in Hnodes. by apply Hnodes, list_elem_of_In.
    + unfold arityMatches in Hmatch.
      destruct (get "parameters" constructor) as [| | | | | |parameters|] eqn:Hparameters;
        try discriminate.
      exists before, after, parameters. repeat split; [exact Hsplit| |exact Hbefore].
      destruct (arityMatches_spec constructor parameters arity Hparameters)
        as (matches & Hspec & Hiff).
      unfold arityMatches in Hspec. rewrite Hparameters in Hspec.
      rewrite Hmatch in Hspec. injection Hspec as <-. by apply Hiff.
  - intros member Hin Hkind. apply (findR_None _ _ Hfind).
    by apply list_elem_of_filter.
Qed.

Lemma foldR_hierarchy_in (fuel : nat) (parents : list JsValue) :
  (forall module exclude modules,
     module ∈ nodesIn environment ->
     hierarchyExcluding numberToString environment fuel module exclude = Returned modules ->
     Forall (fun node => node ∈ nodesIn environment) modules) ->
  forall (acc final : list JsValue * list JsValue),
    Forall (fun node => node ∈ nodesIn environment) parents ->
    Forall (fun node => node ∈ nodesIn environment) acc.1 ->
    foldR (fun acc mod_ =>
             try! below := hierarchyExcluding numberToString environment fuel mod_ acc.2 in
             Returned (acc.1 ++ below, get "id" mod_ :: acc.2))
          acc parents = Returned final ->
    Forall (fun node => node ∈ nodesIn environment) final.1.
Proof.
  intros IH. induction parents as [|mod_ parents IHparents]; intros acc final Hparents Hacc;
    cbn [foldR].
  - by intros [= <-].
  - apply Forall_cons in Hparents as [Hmod Hparents].
    destruct (hierarchyExcluding numberToString environment fuel mod_ acc.2)
      as [below| |] eqn:Hbelow; cbn [rbind]; try discriminate.
    apply IHparents; [exact Hparents|]. cbn [fst].
    apply Forall_app. split; [exact Hacc|]. by apply (IH mod_ acc.2).
Qed.

Lemma hierarchyExcluding_in (fuel : nat) :
  forall (module : JsValue) (exclude modules : list JsValue),
    module ∈ nodesIn environment ->
    hierarchyExcluding numberToString environment fuel module exclude = Returned modules ->
    Forall (fun node => node ∈ nodesIn environment) modules.
Proof.
  induction fuel as [|fuel IH]; intros module exclude modules Hin; [discriminate|].
  cbn [hierarchyExcluding].
  destruct (existsb (strictEq (get "id" module)) exclude); [intros [= <-]; constructor|].
  destruct (arrayItems (get "mixins" module)) as [mixins| |]; cbn [rbind]; try discriminate.
  destruct (mapR_target numberToString environment mixins) as [_ Hmixins].
  destruct (mapR (target numberToString environment) mixins) as [targets| |];
    cbn [rbind]; try discriminate.
  specialize (Hmixins targets eq_refl).
  match goal with
  | |- context [rbind ?sc _] => destruct sc as [superclass| |] eqn:Hsuper
  end; cbn [rbind]; try discriminate.
  assert (Hsuper_in : Forall (fun node => node ∈ nodesIn environment) superclass).
  { destruct (strictEq (get "kind" module) (JStr "Mixin")).
    { injection Hsuper as <-. constructor. }
    destruct (superclassNode numberToString environment module) as [node| |] eqn:Hnode;
      cbn [rbind] in Hsuper; try discriminate.
    injection Hsuper as <-. destruct (truthy node) eqn:Htruthy; [|constructor].
    repeat constructor. unfold superclassNode in Hnode.
    destruct (is_ "Class" module).
    - destruct (truthy (get "superclass" module)); [by eapply target_in|].
      injection Hnode as <-. discriminate.
    - destruct (is_ "Singleton" module); [by eapply target_in|discriminate]. }
  match goal with
  | |- context [foldR ?f ?acc ?l] => destruct (foldR f acc l) as [final| |] eqn:Hfold
  end; cbn [rbind]; try discriminate.
  intros [= <-].
  apply (foldR_hierarchy_in fuel (targets ++ superclass) IH _ _ ltac:(by apply Forall_app))
    in Hfold; [exact Hfold|].
  cbn [fst]. by repeat constructor.
Qed.

Hypothesis environment_ids : uniqueIds environment.

(** X15: in an environment with unique ids, [hierarchy()] of a node of
    the environment ends, with fuel for one call per node, also when the
    inheritance goes in circles; it returns on modules only, and every
    module it lists is a node of the environment. *)
Theorem hierarchy_ends_in_environment (this : JsValue) :
  this ∈ nodesIn environment ->
  hierarchy numberToString environment (S (nodeCount environment)) this <> OutOfFuel
  /\ forall fuel modules,
       hierarchy numberToString environment fuel this = Returned modules ->
       is_ "Module" this = true
       /\ Forall (fun node => node ∈ nodesIn environment) modules.
Proof.
  intros Hin. split; [by apply hierarchy_ends|].
  intros fuel modules. unfold hierarchy.
  destruct (is_ "Module" this); [|discriminate].
  intros H. split; [reflexivity|]. by apply (hierarchyExcluding_in fuel this []).
Qed.

(** X16: in an environment with unique ids, [inherits(other)] ends and
    is true exactly when [other] is listed by [hierarchy()]; a module
    inherits from itself. *)
Theorem inherits_is_membership (this other : JsValue) :
  this ∈ nodesIn environment ->
  other ∈ nodesIn environment ->
  inherits numberToString environment (S (nodeCount environment)) this other <> OutOfFuel
  /\ forall fuel answer,
       inherits numberToString environment fuel this other = Returned answer ->
       exists modules,
         hierarchy numberToString environment fuel this = Returned modules
         /\ (answer = true <-> other ∈ modules)
         /\ (other = this -> answer = true).
Proof.
  intros Hthis Hother. split.
  - unfold inherits. pose proof (hierarchy_ends numberToString environment environment_ids
                                   this Hthis) as Hends.
    by destruct (hierarchy numberToString environment (S (nodeCount environment)) this).
  - intros fuel answer. unfold inherits.
    destruct (hierarchy numberToString environment fuel this) as [modules| |] eqn:Hmodules;
      cbn [rbind]; try discriminate.
    intros [= <-]. exists modules. split; [reflexivity|].
    assert (Hall : Forall (fun node => node ∈ nodesIn environment) modules).
    { unfold hierarchy in Hmodules. destruct (is_ "Module" this); [|discriminate].
      by apply (hierarchyExcluding_in fuel this []). }
    rewrite Forall_forall in Hall.
    assert (Hiff : existsb (fun m => strictEq (get "id" other) (get "id" m)) modules = true
                   <-> other ∈ modules).
    { rewrite existsb_exists. split.
      - intros (m & Hm & Hid). apply list_elem_of_In in Hm.
        by rewrite (same_id environment environment_ids other m Hother (Hall m Hm) Hid).
      - intros Hin'. exists other. split; [by apply list_elem_of_In|].
        by apply (id_reflexive environment environment_ids). }
    split; [exact Hiff|]. intros ->. apply Hiff.
    destruct (hierarchy_head numberToString environment fuel this modules Hmodules)
      as [rest ->]. left.
Qed.

Hypothesis environment_node : isNode environment = true.

(** X14: [target()] of a reference whose name is the dotted path of an
    entity reached through packages, and whose scope maps the first name
    to the id of the top package of that name, returns the entity. *)
Theorem target_resolves_qualified_name (reference entity : JsValue) (names : list string) :
  packaged environment entity names ->
  is_ "Reference" reference = true ->
  get "name" reference = JStr (dotted names) ->
  (forall root first,
     head names = Some first ->
     root ∈ children environment ->
     get "name" root = JStr first ->
     get first (get "scope" reference) = get "id" root) ->
  target numberToString environment reference = Returned entity.
Proof.
  intros Hpackaged Hkind Hname Hscope.
  destruct (packaged_names environment entity names Hpackaged) as [_ Hplain].
  destruct (packaged_walk numberToString environment entity names Hpackaged)
    as (first & rest & root & -> & Hroot & Hroot_kind & Hwalk).
  apply Forall_cons in Hplain as [(Hne & Hdot & Hhash) Hrest].
  apply find_some in Hroot as [Hroot_in Hroot_name].
  apply list_elem_of_In in Hroot_in. apply strictEq_string in Hroot_name.
  assert (Hroot_node : root ∈ nodesIn environment).
  { apply (nodesIn_child environment environment root); [by apply nodesIn_root|exact Hroot_in]. }
  unfold target. rewrite Hkind, Hname. cbn [negb].
  destruct rest as [|second rest].
  - cbn [dotted String.concat]. rewrite (divideOn_plain _ _ Hdot).
    rewrite (Hscope root first eq_refl Hroot_in Hroot_name).
    rewrite (getNodeById_node numberToString environment environment_ids root Hroot_node).
    cbn [rbind String.length Nat.eqb].
    specialize (Hwalk EmptyString root). cbn in Hwalk. exact Hwalk.
  - rewrite dotted_cons by done. rewrite (divideOn_app _ _ _ Hdot).
    rewrite (Hscope root first eq_refl Hroot_in Hroot_name).
    rewrite (getNodeById_node numberToString environment environment_ids root Hroot_node).
    cbn [rbind].
    pose proof (dotted_nonempty (second :: rest) ltac:(done) (plain_nonempty _ Hrest)) as Hsome.
    destruct (dotted (second :: rest)) as [|c tail] eqn:Hdotted; [done|].
    cbn [String.length Nat.eqb]. rewrite <- Hdotted.
    unfold getNodeByQN. rewrite Hroot_kind by done. cbn [negb].
    rewrite (splitOn_plain "#" (dotted (second :: rest)))
      by (apply dotted_hasChar; [done|by apply plain_no_hash]).
    rewrite splitOn_dotted by (done || by apply plain_no_dot).
    apply Hwalk.
Qed.

End Resolution.

(** ** Operands, instances and unhandled interruptions *)

Section RuntimeFacts.

Import Runtime.

Variable numberToString : Q -> string.
Variable stringToNumber : string -> JsValue.
Variable DECIMAL_PRECISION : nat.

(** X19: [popOperand()] after [pushOperand(id)] returns the id and
    leaves the frame as it was before the push, except that an empty id
    is popped and reported as [Popped empty operand stack]; on an empty
    operand stack [popOperand()] throws that error and changes nothing. *)
Theorem popOperand_pushOperand (i : Id) (frame : Frame) :
  popOperand (pushOperand i frame)
  = (if String.eqb i EmptyString then Thrown (RangeError "Popped empty operand stack")
     else Returned i,
     frame)
  /\ popOperand (mkFrame (locals frame) [] (resume frame) (executorState frame))
     = (Thrown (RangeError "Popped empty operand stack"),
        mkFrame (locals frame) [] (resume frame) (executorState frame)).
Proof.
  split; [|reflexivity].
  unfold popOperand, pushOperand. cbn [operandStack locals resume executorState].
  unfold last. rewrite last_snoc, removelast_snoc. by destruct frame.
Qed.

(** X20: [createInstance] followed by [instance] of the returned id
    gives an object with that id, the module and no fields, in place of
    whatever was stored under the id; the other instances, the frame
    stack and the other attributes stay.  Outside numbers the inner value
    is the one given, and outside numbers and strings the id is the uuid.
    It throws only for a number module whose inner value is no number,
    and then changes nothing. *)
Theorem createInstance_stores (uuid : Id) (module : Name) (baseInnerValue : JsValue)
    (ev : Evaluation) :
  match createInstance numberToString stringToNumber DECIMAL_PRECISION uuid module
          baseInnerValue ev with
  | (Returned i, ev') =>
      exists stored,
        instance i ev'
        = (Returned {| id := i; module := module; fields := ∅; innerValue := stored |}, ev')
        /\ (module <> "wollok.lang.Number" -> stored = baseInnerValue)
        /\ (module <> "wollok.lang.Number" -> module <> "wollok.lang.String" -> i = uuid)
        /\ (forall j, j <> i -> instances ev' !! j = instances ev !! j)
        /\ frameStack ev' = frameStack ev
        /\ others ev' = others ev
  | (Thrown e, ev') =>
      module = "wollok.lang.Number" /\ (forall x, baseInnerValue <> JNum x) /\ ev' = ev
  | (OutOfFuel, _) => False
  end.
Proof.
  unfold createInstance, bind, ret, throw, modify, setInstances, instance.
  destruct (String.eqb_spec module "wollok.lang.Number") as [->|Hnumber].
  - destruct baseInnerValue; try (repeat split; discriminate).
    cbn [fst snd instances frameStack others]. eexists.
    rewrite lookup_insert_eq. repeat split; try done.
    intros j Hj. by rewrite lookup_insert_ne.
  - destruct (String.eqb_spec module "wollok.lang.String") as [->|Hstring];
      cbn [fst snd instances frameStack others]; eexists;
      rewrite lookup_insert_eq; (repeat split; try done);
      intros j Hj; by rewrite lookup_insert_ne.
Qed.

(** X21: string instances are interned by their text: the id is
    [S!<text>], two texts get the same id exactly when they are equal,
    and creating the same string again leaves the evaluation as it is. *)
Theorem createInstance_string_ids (uuid1 uuid2 : Id) (s1 s2 : string) (ev1 ev2 : Evaluation) :
  let create uuid s :=
    createInstance numberToString stringToNumber DECIMAL_PRECISION uuid
      "wollok.lang.String" (JStr s) in
  (create uuid1 s1 ev1).1 = Returned ("S!" +:+ s1)
  /\ ((create uuid1 s1 ev1).1 = (create uuid2 s2 ev2).1 <-> s1 = s2)
  /\ (create uuid2 s1 (create uuid1 s1 ev1).2).2 = (create uuid1 s1 ev1).2.
Proof.
  cbv zeta. unfold createInstance, bind, ret, modify, setInstances.
  cbn [String.eqb Ascii.eqb Bool.eqb fst snd instances frameStack others ToString].
  repeat split.
  - intros H.
    apply (f_equal (fun answer => match answer with
                                  | Returned (String _ (String _ text)) => text
                                  | _ => EmptyString
                                  end)) in H.
    exact H.
  - by intros ->.
  - by rewrite insert_insert_eq.
Qed.

(** X22: [interrupt] always ends and only works on the frame stack:
    instances and other attributes stay.  When it returns, the stack is
    not empty and shorter than before; when it throws, also on an empty
    stack, the stack is left empty. *)
Theorem interrupt_leaves_instances (kind : Interruption) (valueId : Id) (ev : Evaluation) :
  exists answer stack,
    interrupt numberToString kind valueId ev = (answer, setFrameStack stack ev)
    /\ match answer with
       | Returned _ => stack <> [] /\ length stack < length (frameStack ev)
       | Thrown _ => stack = []
       | OutOfFuel => False
       end.
Proof.
  destruct (frameStack ev) as [|first rest] eqn:Hstack using rev_ind.
  - destruct (interrupt_unhandled numberToString kind valueId ev) as [e He].
    { rewrite Hstack. constructor. }
    by exists (Thrown e), [].
  - clear IHrest. rename rest into frames, first into top.
    destruct (topmost_handler kind frames) as [Hnone|(lower & handler & mid & -> & Hin & Hmid)].
    + destruct (interrupt_unhandled numberToString kind valueId ev) as [e He].
      { by rewrite Hstack, removelast_snoc. }
      by exists (Thrown e), [].
    + exists (Returned tt), (lower ++ [handled kind valueId handler]). split.
      * apply (interrupt_found numberToString kind valueId ev lower handler mid top);
          try assumption.
        by rewrite Hstack, <- app_assoc.
      * split; [by destruct lower|]. rewrite !length_app. cbn [length]. lia.
Qed.


End RuntimeFacts.

(** ** Inherited methods *)

Section Inheritance.

Import Linked.

Variable numberToString : Q -> string.
Variable environment : JsValue.

Lemma lookupIn_skips (name : string) (arity : Z) (earlier rest : list JsValue) :
  Forall (fun module =>
            exists candidates,
              methods module = Returned candidates
              /\ Forall (fun other => methodMatches name arity other = Returned false)
                        candidates) earlier ->
  lookupIn name arity (earlier ++ rest) = lookupIn name arity rest.
Proof.
  induction 1 as [|module earlier (candidates & Hmethods & Hnone) _ IH]; [reflexivity|].
  cbn [app lookupIn]. rewrite Hmethods. cbn [rbind].
  assert (Hfind : findR (methodMatches name arity) candidates = Returned None).
  { clear Hmethods. induction Hnone as [|other candidates Hother _ IHnone]; [reflexivity|].
    cbn [findR]. by rewrite Hother. }
  rewrite Hfind. cbn [rbind]. exact IH.
Qed.

(** X17: [lookupMethod] answers the first match in the order of the
    hierarchy: when no method of the modules listed before [module]
    matches and [method] is the first matching method of [module], it is
    what [lookupMethod] returns.  With nothing listed before, [module] is
    the receiver: a method of its own wins over every inherited one. *)
Theorem lookupMethod_first_in_hierarchy (fuel : nat) (this : JsValue) (name : string)
    (arity : Z) (earlier later candidates before after : list JsValue)
    (module method : JsValue) :
  hierarchy numberToString environment fuel this = Returned (earlier ++ module :: later) ->
  Forall (fun module =>
            exists candidates,
              methods module = Returned candidates
              /\ Forall (fun other => methodMatches name arity other = Returned false)
                        candidates) earlier ->
  methods module = Returned candidates ->
  candidates = before ++ method :: after ->
  methodMatches name arity method = Returned true ->
  Forall (fun other => methodMatches name arity other = Returned false) before ->
  lookupMethod numberToString environment fuel this name arity = Returned (Some method)
  /\ (earlier = [] -> module = this).
Proof.
  intros Hhierarchy Hearlier Hmethods Hsplit Hmatch Hbefore. split.
  - unfold lookupMethod. rewrite Hhierarchy. cbn [rbind].
    rewrite (lookupIn_skips name arity earlier (module :: later) Hearlier).
    cbn [lookupIn]. rewrite Hmethods. cbn [rbind].
    assert (Hfind : findR (methodMatches name arity) candidates = Returned (Some method)).
    { apply findR_first. by exists before, after. }
    by rewrite Hfind.
  - intros ->. cbn [app] in Hhierarchy.
    destruct (hierarchy_head numberToString environment fuel this _ Hhierarchy) as [rest Hrest].
    by injection Hrest as ->.
Qed.

Hypothesis environment_ids : uniqueIds environment.

Lemma singleInheritance_in (chain : list JsValue) :
  singleInheritance numberToString environment chain ->
  forall module, head chain = Some module -> module ∈ nodesIn environment ->
  Forall (fun node => node ∈ nodesIn environment) chain.
Proof.
  induction 1 as [module Hmixins Hend|module superclass rest Hmixins Hkind Hsuper Htruthy _ IH];
    intros first [= <-] Hin.
  - by repeat constructor.
  - constructor; [exact Hin|]. apply (IH superclass eq_refl).
    unfold superclassNode in Hsuper.
    destruct (is_ "Class" module).
    + destruct (truthy (get "superclass" module)); [by eapply target_in|].
      injection Hsuper as <-. discriminate.
    + destruct (is_ "Singleton" module); [by eapply target_in|discriminate].
Qed.

Lemma hierarchyExcluding_chain (chain : list JsValue) :
  singleInheritance numberToString environment chain ->
  Forall (fun node => node ∈ nodesIn environment) chain ->
  NoDup chain ->
  forall (module : JsValue) (exclude : list JsValue),
    head chain = Some module ->
    Forall (fun node => excludes exclude node = false) chain ->
    hierarchyExcluding numberToString environment (length chain) module exclude
    = Returned chain.
Proof.
  induction 1 as [module Hmixins Hend|module superclass rest Hmixins Hkind Hsuper Htruthy _ IH];
    intros Hin Hnodup first exclude [= <-] Hexclude.
  - apply Forall_cons in Hexclude as [Hexclude _]. unfold excludes in Hexclude.
    cbn [length hierarchyExcluding]. rewrite Hexclude, Hmixins. cbn [arrayItems rbind mapR].
    destruct Hend as [Hkind|(node & Hsuper & Hfalsy)].
    + by rewrite Hkind.
    + destruct (strictEq (get "kind" module) (JStr "Mixin")); [reflexivity|].
      by rewrite Hsuper; cbn [rbind]; rewrite Hfalsy.
  - apply Forall_cons in Hexclude as [Hexclude Hexclude_rest].
    apply Forall_cons in Hin as [Hmodule Hin].
    apply NoDup_cons in Hnodup as [Hfresh Hnodup].
    unfold excludes in Hexclude.
    change (length (module :: superclass :: rest)) with (S (length (superclass :: rest))).
    cbn [hierarchyExcluding].
    rewrite Hexclude, Hmixins. cbn [arrayItems rbind mapR]. rewrite Hkind, Hsuper.
    cbn [rbind]. rewrite Htruthy. cbn [app foldR snd fst].
    rewrite (IH Hin Hnodup superclass (get "id" module :: exclude) eq_refl).
    + reflexivity.
    + rewrite Forall_forall in Hexclude_rest, Hin |- *. intros node Hnode.
      unfold excludes. cbn [existsb]. apply orb_false_intro.
      * destruct (strictEq (get "id" node) (get "id" module)) eqn:Hid; [|reflexivity].
        exfalso. apply Hfresh.
        by rewrite <- (same_id environment environment_ids node module (Hin node Hnode)
                         Hmodule Hid).
      * by apply Hexclude_rest.
Qed.

(** X27: with single inheritance [hierarchy()] is the chain of
    superclasses, the receiver first: for modules without mixins, where
    each has the next as superclass and the last has none, it returns
    exactly that chain, given fuel for one call per module. *)
Theorem hierarchy_of_single_inheritance (this : JsValue) (rest : list JsValue) :
  this ∈ nodesIn environment ->
  is_ "Module" this = true ->
  singleInheritance numberToString environment (this :: rest) ->
  NoDup (this :: rest) ->
  hierarchy numberToString environment (S (length rest)) this = Returned (this :: rest).
Proof.
  intros Hin Hkind Hchain Hnodup. unfold hierarchy. rewrite Hkind.
  apply (hierarchyExcluding_chain (this :: rest) Hchain); try done.
  - by apply (singleInheritance_in (this :: rest) Hchain this).
  - apply Forall_forall. by intros node _.
Qed.

End Inheritance.

(** ** Names that resolve *)

Section Naming.

Import Linked.

Local Arguments String.append : simpl nomatch.

Variable numberToString : Q -> string.
Variable environment : JsValue.

Lemma splitOn_pieces (sep : ascii) (str : string) :
  Forall (fun piece => hasChar sep piece = false) (splitOn sep str).
Proof.
  induction str as [|c str IH]; cbn [splitOn]; [by repeat constructor|].
  destruct (Ascii.eqb c sep) eqn:Hc; [by constructor|].
  destruct (splitOn sep str) as [|head tail]; [repeat constructor; cbn; by rewrite Hc|].
  apply Forall_cons in IH as [Hhead Htail]. constructor; [|exact Htail].
  rewrite hasChar_String, Hc. exact Hhead.
Qed.

Lemma concat_empty (sep : string) (pieces : list string) :
  sep <> EmptyString ->
  String.concat sep pieces = EmptyString -> pieces = [] \/ pieces = [EmptyString].
Proof.
  intros Hsep. destruct pieces as [|a [|b rest]]; cbn [String.concat].
  - by left.
  - intros ->. by right.
  - intros H. exfalso. destruct a; [|discriminate]. cbn in H. by destruct sep.
Qed.

Lemma foldR_stepInto_reached (qualifiedName : string) (this : JsValue) (steps : list string) :
  forall (current node : JsValue) (names : list string),
    reached environment current names ->
    foldR (stepInto numberToString qualifiedName this) current steps = Returned node ->
    reached environment node (names ++ steps).
Proof.
  induction steps as [|step steps IH]; intros current node names Hcurrent; cbn [foldR].
  - intros [= <-]. by rewrite app_nil_r.
  - unfold stepInto at 1.
    destruct (find _ (children current)) as [next|] eqn:Hfind; cbn [rbind]; [|discriminate].
    intros Hrest. apply find_some in Hfind as [Hin Hnext].
    apply andb_prop in Hnext as [Hkind Hname]. apply strictEq_string in Hname.
    apply list_elem_of_In in Hin.
    replace (names ++ step :: steps) with ((names ++ [step]) ++ steps)
      by (by rewrite <- app_assoc).
    apply (IH next node); [|exact Hrest].
    by apply (reached_member environment current names next step).
Qed.

(** X24: a name that [getNodeByFQN] resolves names the node: when the
    name has no hash and a node is returned, a chain of children leads
    from the environment to the node, the first with the first name of
    the dotted path and every later one an entity with the next name (a
    dot at the very end of the name is dropped). *)
Theorem getNodeByFQN_names_the_node (name : string) (node : JsValue) :
  hasChar "#" name = false ->
  getNodeByFQN numberToString environment name = Returned node ->
  exists names,
    reached environment node names
    /\ (splitOn "." name = names \/ splitOn "." name = names ++ [EmptyString]).
Proof.
  intros Hhash. unfold getNodeByFQN, divideOn.
  pose proof (concat_splitOn "." name) as Hjoin.
  pose proof (splitOn_pieces "." name) as Hpieces.
  destruct (splitOn "." name) as [|head tail] eqn:Hsplit.
  { by destruct (splitOn_cons "." name) as (h & t & Hcons); rewrite Hcons in Hsplit. }
  destruct (find _ (children environment)) as [root|] eqn:Hfind; [|discriminate].
  apply find_some in Hfind as [Hroot Hroot_name].
  apply list_elem_of_In in Hroot. apply strictEq_string in Hroot_name.
  pose proof (reached_top environment root head Hroot Hroot_name) as Hreached.
  destruct (String.eqb_spec (String.concat "." tail) EmptyString) as [Hrest|Hrest].
  - intros [= <-]. exists [head]. split; [exact Hreached|].
    destruct (concat_empty "." tail ltac:(done) Hrest) as [-> | ->]; [by left|by right].
  - apply Forall_cons in Hpieces as [Hhead Htail].
    assert (Htail_some : tail <> []) by (by intros ->).
    assert (Hname : name = head +:+ String "." (String.concat "." tail)).
    { rewrite <- Hjoin. by destruct tail. }
    assert (Hrest_hash : hasChar "#" (String.concat "." tail) = false).
    { rewrite Hname, hasChar_app, hasChar_String in Hhash.
      apply orb_false_elim in Hhash as [_ Hhash]. by apply orb_false_elim in Hhash as [_ Hhash]. }
    unfold getNodeByQN. destruct (is_ "Package" root); cbn [negb]; [|discriminate].
    rewrite (splitOn_plain "#" _ Hrest_hash).
    change (String.concat "." tail) with (dotted tail).
    rewrite (splitOn_dotted tail Htail_some Htail).
    intros Hwalk. exists (head :: tail). split; [|by left].
    by apply (foldR_stepInto_reached (dotted tail) root tail root node [head]).
Qed.

Hypothesis environment_node : isNode environment = true.
Hypothesis environment_ids : uniqueIds environment.
Hypothesis environment_kind : is_ "Package" environment = false.


End Naming.

(** ** The text of a number *)

Section Digits.

Import Runtime.

Local Arguments String.append : simpl nomatch.

















End Digits.

Section FixedPoint.

Import Runtime.

Local Arguments String.append : simpl nomatch.

Variable numberToString : Q -> string.
Variable stringToNumber : string -> JsValue.




End FixedPoint.

Section CanonicalIds.

Import Runtime.

Local Arguments String.append : simpl nomatch.

Variable numberToString : Q -> string.
Variable stringToNumber : string -> JsValue.
Variable DECIMAL_PRECISION : nat.








End CanonicalIds.

Section Rounding.

Import Runtime.

Variable numberToString : Q -> string.
Variable stringToNumber : string -> JsValue.
Variable DECIMAL_PRECISION : nat.



End Rounding.

(** ** Worked instances *)

Lemma cyclic_ids : Linked.uniqueIds Samples.cyclic.
Proof.
  split.
  - vm_compute.
    repeat (apply NoDup_cons_2;
            [intros Hin;
             repeat (apply elem_of_cons in Hin as [Hin|Hin]; [discriminate Hin|]);
             by apply elem_of_nil in Hin|]).
    apply NoDup_nil_2.
  - vm_compute. repeat (constructor; [eexists; reflexivity|]). constructor.
Qed.

Lemma cache_transparent_witness :
  (cacheCalls (fun _ => true) children
     [Samples.smallClass; Samples.smallPackage; Samples.smallClass] []).1
  = map children [Samples.smallClass; Samples.smallPackage; Samples.smallClass].
Proof.
  apply (cache_transparent (fun _ => true) children).
  intros a b Ha Hb _ Hid.
  rewrite !elem_of_cons, elem_of_nil in Ha, Hb.
  destruct Ha as [->|[->|[->|[]]]], Hb as [->|[->|[->|[]]]];
    first [reflexivity|discriminate Hid].
Defined.

Lemma children_memo_answers_by_id_witness :
  (cachedChildren Samples.smallClass []).1 = [Samples.smallMethod]
  /\ (cachedChildren Samples.emptyClass (cachedChildren Samples.smallClass []).2).1
     = [Samples.smallMethod]
  /\ children Samples.emptyClass = [].
Proof.
  destruct (children_memo_answers_by_id Samples.smallClass Samples.emptyClass eq_refl eq_refl)
    as [Hfirst Hsecond].
  split; [exact Hfirst|]. split; [exact Hsecond|reflexivity].
Defined.



Lemma transform_unchanged_witness :
  transform 3 (TxMap (fun kind => if String.eqb kind "Z" then Some Samples.markSeen else None))
    Samples.rootA
  = Returned Samples.rootA
  /\ transform 3 (TxFun id) Samples.rootA = Returned Samples.rootA.
Proof.
  apply (transform_unchanged 3
           (fun kind => if String.eqb kind "Z" then Some Samples.markSeen else None)
           Samples.rootA).
  - cbn. lia.
  - intros node kind Hin Hkind. cbn in Hin.
    rewrite !elem_of_cons, elem_of_nil in Hin.
    destruct Hin as [->|[->|[]]]; injection Hkind as <-; reflexivity.
Defined.

Lemma parent_holds_the_node_witness :
  (Samples.nestedC = Samples.nested
   /\ Linked.parent Samples.noDigits Samples.nested Samples.nestedC
      = Thrown (Error_ ("Node " +:+ ToString Samples.noDigits (get "kind" Samples.nestedC)
                        +:+ "#" +:+ ToString Samples.noDigits (get "id" Samples.nestedC)
                        +:+ " is not in the environment")))
  \/ (exists holder,
        holder ∈ nodesIn Samples.nested
        /\ Samples.nestedC ∈ children holder
        /\ Linked.parent Samples.noDigits Samples.nested Samples.nestedC = Returned holder).
Proof.
  apply (parent_holds_the_node Samples.noDigits Samples.nested eq_refl nested_ids
           Samples.nestedC).
  vm_compute. repeat constructor.
Defined.

Lemma getNodeById_round_trip_witness :
  Linked.getNodeById Samples.noDigits Samples.nested (JStr "C") = Returned Samples.nestedC
  <-> Samples.nestedC ∈ nodesIn Samples.nested /\ get "id" Samples.nestedC = JStr "C".
Proof.
  exact (getNodeById_round_trip Samples.noDigits Samples.nested nested_ids "C"
           Samples.nestedC).
Defined.

Lemma closestAncestor_is_closest_witness :
  exists answer,
    Linked.closestAncestor Samples.noDigits Samples.nested (S (nodeCount Samples.nested))
      "Class" Samples.literalObject
    = Returned answer
    /\ match answer with
       | Some ancestor =>
           ancestor ∈ nodesIn Samples.nested
           /\ is_ "Class" ancestor = true
           /\ Samples.literalObject ∈ nodesIn ancestor
           /\ ancestor <> Samples.literalObject
           /\ forall between,
                between ∈ nodesIn ancestor -> Samples.literalObject ∈ nodesIn between ->
                between <> ancestor -> between <> Samples.literalObject ->
                is_ "Class" between = false
       | None =>
           forall above,
             above ∈ nodesIn Samples.nested -> Samples.literalObject ∈ nodesIn above ->
             above <> Samples.literalObject -> is_ "Class" above = false
       end.
Proof.
  apply (closestAncestor_is_closest Samples.noDigits Samples.nested eq_refl nested_ids
           "Class" Samples.literalObject).
  vm_compute. repeat constructor.
Defined.

Lemma getNodeByQN_by_id_witness :
  Linked.getNodeByQN Samples.noDigits Samples.nested Samples.packageP ("q.C" +:+ "#" +:+ "o1")
  = Linked.getNodeById Samples.noDigits Samples.nested (JStr "o1").
Proof.
  apply (getNodeByQN_by_id Samples.noDigits Samples.nested Samples.packageP "q.C" "o1");
    [reflexivity|reflexivity|reflexivity|discriminate].
Defined.

Lemma target_resolves_qualified_name_witness :
  Linked.target Samples.noDigits Samples.nested (Samples.reference "o1-extends" "q.C")
  = Returned Samples.nestedC.
Proof.
  apply (target_resolves_qualified_name Samples.noDigits Samples.nested nested_ids eq_refl
           (Samples.reference "o1-extends" "q.C") Samples.nestedC ["p"; "q"; "C"]).
  - exact nested_packaged.
  - reflexivity.
  - reflexivity.
  - intros root first [= <-] Hin _. cbn in Hin.
    rewrite !elem_of_cons, elem_of_nil in Hin. destruct Hin as [->|[]]. reflexivity.
Defined.

Lemma hierarchy_ends_in_environment_witness :
  Linked.hierarchy Samples.noDigits Samples.cyclic (S (nodeCount Samples.cyclic))
    Samples.cyclicA
  <> OutOfFuel
  /\ forall fuel modules,
       Linked.hierarchy Samples.noDigits Samples.cyclic fuel Samples.cyclicA
       = Returned modules ->
       is_ "Module" Samples.cyclicA = true
       /\ Forall (fun node => node ∈ nodesIn Samples.cyclic) modules.
Proof.
  apply (hierarchy_ends_in_environment Samples.noDigits Samples.cyclic cyclic_ids
           Samples.cyclicA).
  vm_compute. repeat constructor.
Defined.

Example hierarchy_of_a_cycle :
  Linked.hierarchy Samples.noDigits Samples.cyclic (S (nodeCount Samples.cyclic))
    Samples.cyclicA
  = Returned [Samples.cyclicA; Samples.cyclicB].
Proof. vm_compute. reflexivity. Qed.

Lemma inherits_is_membership_witness :
  Linked.inherits Samples.noDigits Samples.cyclic (S (nodeCount Samples.cyclic))
    Samples.cyclicA Samples.cyclicB
  <> OutOfFuel
  /\ forall fuel answer,
       Linked.inherits Samples.noDigits Samples.cyclic fuel Samples.cyclicA Samples.cyclicB
       = Returned answer ->
       exists modules,
         Linked.hierarchy Samples.noDigits Samples.cyclic fuel Samples.cyclicA
         = Returned modules
         /\ (answer = true <-> Samples.cyclicB ∈ modules)
         /\ (Samples.cyclicB = Samples.cyclicA -> answer = true).
Proof.
  apply (inherits_is_membership Samples.noDigits Samples.cyclic cyclic_ids
           Samples.cyclicA Samples.cyclicB); vm_compute; repeat constructor.
Defined.

Lemma lookupConstructor_first_match_witness :
  is_ "Class" Samples.pointClass = true
  /\ exists members,
       get "members" Samples.pointClass = JArr members
       /\ Samples.pointMany ∈ children Samples.pointClass
       /\ exists before after parameters,
            filter (fun member => is_ "Constructor" member = true) members
            = before ++ Samples.pointMany :: after
            /\ get "parameters" Samples.pointMany = JArr parameters
            /\ ((exists p, p ∈ parameters /\ truthy (get "isVarArg" p) = true)
                /\ (Z.of_nat (length parameters) - 1 <= 5)%Z
                \/ Z.of_nat (length parameters) = 5%Z)
            /\ Forall (fun other => Linked.arityMatches other 5 = Returned false) before.
Proof.
  apply (lookupConstructor_first_match Samples.pointClass 5 (Some Samples.pointMany)).
  reflexivity.
Defined.


Lemma getNodeByFQN_names_the_node_witness :
  exists names,
    Linked.reached Samples.nested Samples.nestedC names
    /\ (splitOn "." "p.q.C" = names \/ splitOn "." "p.q.C" = names ++ [EmptyString]).
Proof.
  apply (getNodeByFQN_names_the_node Samples.noDigits Samples.nested "p.q.C" Samples.nestedC);
    reflexivity.
Defined.



Lemma overriding_ids : Linked.uniqueIds Samples.overriding.
Proof.
  split.
  - vm_compute.
    repeat (apply NoDup_cons_2;
            [intros Hin;
             repeat (apply elem_of_cons in Hin as [Hin|Hin]; [discriminate Hin|]);
             by apply elem_of_nil in Hin|]).
    apply NoDup_nil_2.
  - vm_compute. repeat (constructor; [eexists; reflexivity|]). constructor.
Qed.

Lemma lookupMethod_first_in_hierarchy_witness :
  Linked.lookupMethod Samples.noDigits Samples.overriding 3 Samples.moduleE "foo" 3
  = Returned (Some Samples.ownFoo).
Proof.
  eapply proj1.
  apply (lookupMethod_first_in_hierarchy Samples.noDigits Samples.overriding 3 Samples.moduleE
           "foo" 3 [Samples.moduleE] [Samples.moduleM] [Samples.ownFoo] [] []
           Samples.moduleD Samples.ownFoo).
  - vm_compute. reflexivity.
  - repeat constructor. exists []. split; [reflexivity|constructor].
  - reflexivity.
  - reflexivity.
  - reflexivity.
  - constructor.
Defined.

Lemma hierarchy_of_single_inheritance_witness :
  Linked.hierarchy Samples.noDigits Samples.overriding 3 Samples.moduleE
  = Returned [Samples.moduleE; Samples.moduleD; Samples.moduleM].
Proof.
  apply (hierarchy_of_single_inheritance Samples.noDigits Samples.overriding overriding_ids
           Samples.moduleE [Samples.moduleD; Samples.moduleM]).
  - vm_compute. repeat constructor.
  - reflexivity.
  - apply Linked.chain_step; [reflexivity|reflexivity|vm_compute; reflexivity|reflexivity|].
    apply Linked.chain_step; [reflexivity|reflexivity|vm_compute; reflexivity|reflexivity|].
    apply Linked.chain_end; [reflexivity|].
    right. exists JNull. split; reflexivity.
  - repeat (apply NoDup_cons_2;
            [intros Hin;
             repeat (apply elem_of_cons in Hin as [Hin|Hin]; [discriminate Hin|]);
             by apply elem_of_nil in Hin|]).
    apply NoDup_nil_2.
Defined.

